(** * The release script [make-release-stabletoken.ts]

    A shallow embedding of
    [packages/protocol/scripts/truffle/make-release-stabletoken.ts]:
    the address table ([ContractAddresses]), the deployment helpers
    ([deployImplementation], [deployProxy], [deployCoreContract],
    [deployLibrary]), the recursive [release] closure and the body of
    [module.exports].

    The script is effectful: it mutates the address table, the set of
    released names and the proposal array, and it talks to truffle, web3 and
    the on-chain registry.  The mutable objects are the fields of [State];
    the outside world is the record [Env]; a thrown exception is the outcome
    [Err], which leaves the mutations made so far in place, as in
    JavaScript.  The [await]s of the traversal are sequential, so the
    asynchronous functions are read as sequential code.

    What the model leaves out: the reading of the arguments and of the
    JSON files, which comes before the traversal and whose results are
    fields of [Env]; [console.log]; the [from] override of
    [Contract.defaults]; and the failure of a network call (a registry
    lookup, [.new], [.at], [_transferOwnership] are taken to return).
    [artifacts.require] and [web3.eth.abi.encodeFunctionCall] may throw, as
    the script itself expects of them.

    The file holds a second program after the script, the Solidity contract
    [MetaTransactionWallet]; its transaction functions are embedded in the
    module [Wallet]. *)

From stdpp Require Import base strings list gmap fin_maps.

(** ** Values *)

(** [type Address = string] *)
Abbreviation Address := string (only parsing).

(** A JavaScript value that ends up in [ProposalTx.args]: a string,
    [undefined] where the script reads a property that does not exist, or
    some other object (a function, a [Map]). *)
Inductive Arg :=
  | Str (s : string)
  | Undefined
  | Object.

Global Instance Arg_eq_dec : EqDecision Arg.
Proof. solve_decision. Defined.

(** [interface ProposalTx] *)
Record ProposalTx := {
  contract : string;
  function : string;
  args : list Arg;
  value : string;
  description : option string;
}.

Global Instance ProposalTx_eq_dec : EqDecision ProposalTx.
Proof. solve_decision. Defined.

(** One entry of a contract ABI, as far as the script inspects it:
    [abi.type], [abi.name] and [abi.inputs] (the declared input types). *)
Record AbiEntry := {
  abi_type : string;
  abi_name : string;
  abi_inputs : list string;
}.

(** What [artifacts.require] gives back: a truffle contract abstraction. *)
Record Artifact := {
  abi : list AbiEntry;
}.

(** What [Contract.new] and [Contract.at] give back: an instance, with the
    [abi] of its abstraction and its [address]. *)
Record ContractInstance := {
  instance_abi : list AbiEntry;
  address : Address;
}.

(** One entry of [changes.storage] or [changes.major] of the compatibility
    report; the script reads only its [type]. *)
Record Change := {
  type : string;
}.

(** [report.contracts[name].changes] *)
Record Changes := {
  storage : list Change;
  major : list Change;
}.

(** [ASTDetailedVersionedReport]: two JavaScript objects used as maps from
    names to change records. *)
Record ASTDetailedVersionedReport := {
  contracts : gmap string Changes;
  libraries : gmap string Changes;
}.

(** ** Exceptions *)

Inductive Error :=
  | Thrown (message : string)
      (** [throw new Error(message)] *)
  | InitializeEncodingError (contractName : string)
      (args : option (list string)) (inputs : list string)
      (** the [Error] of [deployCoreContract] whose message embeds
          [JSON.stringify(args)] and [JSON.stringify(initializeAbi.inputs)] *)
  | ArtifactNotFound (name : string)
      (** [artifacts.require(name)] throws *)
  | TypeError (what : string)
      (** reading a property of [undefined] *).

Inductive Outcome (A : Type) :=
  | Ok (a : A)
  | Err (e : Error)
  | OutOfFuel.
Arguments Ok {A} a.
Arguments Err {A} e.
Arguments OutOfFuel {A}.

(** ** The recorded operations

    The operations the script performs on the outside world, and the marking
    of a name as released, in program order.  The trace is write-only: no
    decision of the script reads it. *)
Inductive Event :=
  | EvLink (contractName dependency : string) (address : Address)
      (** [contractArtifact.link(d, addresses.get(d))] *)
  | EvInstance (contractName : string) (address : Address)
      (** [Contract.new(..)] or [Contract.at(celoRegistryAddress)] *)
  | EvProxy (contractName : string) (address : Address)
      (** [Proxy.new()] or [Proxy.at(celoRegistryAddress)] *)
  | EvTransferOwnership (contractName : string) (owner : Address)
      (** [proxy._transferOwnership(..)] *)
  | EvReleased (contractName : string)
      (** [released.add(contractName)] *).

(** ** The mutable state of one run *)

Record State := {
  addresses : gmap string Address;   (** [ContractAddresses.addresses] *)
  released : gset string;            (** [released] *)
  proposal : list ProposalTx;        (** [proposal] *)
  deployed : nat;                    (** contracts created so far by [.new] *)
  trace : list Event;
}.

(** ** The outside world *)

Record Env := {
  (** [readdirSync(join(argv.build_directory, 'contracts'))], base names *)
  env_contracts : list string;
  (** [registry.getAddressForString] *)
  getAddressForString : string → Address;
  (** [readJsonSync(argv.librariesFile ?? 'libraries.json')] *)
  libraryMapping : gmap string Address;
  (** [fullReport.report] *)
  report : ASTDetailedVersionedReport;
  (** [readJsonSync(argv.initialize_data)] *)
  initializationData : gmap string (list string);
  (** [getCeloContractDependencies().get]: the script iterates over its
      result without a check, so it is a list for every name *)
  dependencies_get : string → list string;
  (** [artifacts.require]; [None] when it throws *)
  artifacts_require : string → option Artifact;
  (** [Object.keys(CeloContractName)] *)
  CeloContractName : list string;
  (** [web3.eth.abi.encodeFunctionCall]; [None] when it throws *)
  encodeFunctionCall : AbiEntry → option (list string) → option string;
  (** the address of the n-th contract created by [.new] *)
  newAddress : nat → Address;
  (** [@celo/utils/lib/address] and [@celo/protocol/lib/registry-utils] *)
  eqAddress : Address → Address → bool;
  NULL_ADDRESS : Address;
  celoRegistryAddress : Address;
  (** [argv.dry_run], [argv.from] *)
  dry_run : bool;
  from : string;
}.

(** ** The monad of the script: state, exceptions, and a recursion budget *)

Definition M (A : Type) : Type := State → Outcome A * State.

Definition ret {A} (a : A) : M A := λ s, (Ok a, s).

Definition throw {A} (e : Error) : M A := λ s, (Err e, s).

Definition bind {A B} (m : M A) (k : A → M B) : M B := λ s,
  match m s with
  | (Ok a, s') => k a s'
  | (Err e, s') => (Err e, s')
  | (OutOfFuel, s') => (OutOfFuel, s')
  end.

Notation "x <~ m ;; k" := (bind m (λ x, k))
  (at level 100, m at next level, right associativity).
Notation "m ;;; k" := (bind m (λ _, k))
  (at level 100, right associativity).

(** [for (const x of l) { await f(x) }] *)
Fixpoint forEach {A} (f : A → M unit) (l : list A) : M unit :=
  match l with
  | [] => ret tt
  | x :: l' => f x ;;; forEach f l'
  end.

(** Updates of the single fields of the state. *)
Definition with_addresses (f : gmap string Address → gmap string Address) (s : State) : State :=
  {| addresses := f (addresses s); released := released s; proposal := proposal s;
     deployed := deployed s; trace := trace s |}.

Definition with_released (f : gset string → gset string) (s : State) : State :=
  {| addresses := addresses s; released := f (released s); proposal := proposal s;
     deployed := deployed s; trace := trace s |}.

Definition with_proposal (f : list ProposalTx → list ProposalTx) (s : State) : State :=
  {| addresses := addresses s; released := released s; proposal := f (proposal s);
     deployed := deployed s; trace := trace s |}.

Definition with_deployed (f : nat → nat) (s : State) : State :=
  {| addresses := addresses s; released := released s; proposal := proposal s;
     deployed := f (deployed s); trace := trace s |}.

Definition with_trace (f : list Event → list Event) (s : State) : State :=
  {| addresses := addresses s; released := released s; proposal := proposal s;
     deployed := deployed s; trace := f (trace s) |}.

Definition emit (e : Event) : M unit := λ s, (Ok tt, with_trace (λ t, t ++ [e]) s).

(** [proposal.push(tx)] *)
Definition push (tx : ProposalTx) : M unit := λ s, (Ok tt, with_proposal (λ p, p ++ [tx]) s).

(** [String.prototype.endsWith] *)
Definition endsWith (s suffix : string) : bool :=
  let n := String.length s in
  let m := String.length suffix in
  (m <=? n) && String.eqb (String.substring (n - m) m s) suffix.

(** [abi.find((abi) => abi.type === 'function' && abi.name === name)] *)
Definition findFunction (name : string) (l : list AbiEntry) : option AbiEntry :=
  List.find (λ a, String.eqb (abi_type a) "function" && String.eqb (abi_name a) name) l.

(** ** [class ContractAddresses] *)
Module ContractAddresses.

(** The registry part of [create]: one lookup per name; a name whose
    registered address is [NULL_ADDRESS] is not stored.  The lookups run
    concurrently under [Promise.all]; each stores under its own name, so
    the table does not depend on the order in which they complete (see
    [create_lookup]); the model takes them in list order. *)
Definition fromRegistry (env : Env) (names : list string) : gmap string Address :=
  foldl (λ table name,
           let registeredAddress := getAddressForString env name in
           if eqAddress env registeredAddress (NULL_ADDRESS env) then table
           else <[name := registeredAddress]> table)
        ∅ names.

(** [Object.entries(libraryAddresses).forEach(([library, address]) =>
    addresses.set(library, address))] *)
Definition overlay (libraryAddresses : gmap string Address)
    (table : gmap string Address) : gmap string Address :=
  foldl (λ table entry, <[entry.1 := entry.2]> table) table (map_to_list libraryAddresses).

Definition create (env : Env) (names : list string)
    (libraryAddresses : gmap string Address) : gmap string Address :=
  overlay libraryAddresses (fromRegistry env names).

(** [get]: the stored address, or the exception. *)
Definition get (contract : string) : M Address := λ s,
  match addresses s !! contract with
  | Some a => (Ok a, s)
  | None => (Err (Thrown ("Unable to find address for " +:+ contract)), s)
  end.

Definition set (contract : string) (a : Address) : M unit := λ s,
  (Ok tt, with_addresses (λ table, <[contract := a]> table) s).

End ContractAddresses.

(** ** The script, over a fixed outside world *)
Section Script.

Variable env : Env.

(** [Contract.new(..)] against the network, or, in a dry run, the stand-in
    [Contract.at(celoRegistryAddress)]. *)
Definition instantiate : M Address := λ s,
  if dry_run env then (Ok (celoRegistryAddress env), s)
  else (Ok (newAddress env (deployed s)), with_deployed S s).

(** [artifacts.require(name)] *)
Definition require (name : string) : M Artifact :=
  match artifacts_require env name with
  | Some artifact => ret artifact
  | None => throw (ArtifactNotFound name)
  end.

Definition isProxiedContract (contractName : string) : bool :=
  if endsWith contractName "Proxy" then false
  else match artifacts_require env (contractName +:+ "Proxy") with
       | Some _ => true
       | None => false
       end.

Definition isCoreContract (contractName : string) : bool :=
  bool_decide (contractName ∈ CeloContractName env).

Definition deployImplementation (contractName : string) (Contract : Artifact)
    (requireVersion : bool) : M ContractInstance :=
  a <~ instantiate ;;
  emit (EvInstance contractName a) ;;;
  let contract := {| instance_abi := abi Contract; address := a |} in
  let getVersionNumberAbi := findFunction "getVersionNumber" (instance_abi contract) in
  if requireVersion && negb (bool_decide (is_Some getVersionNumberAbi)) then
    throw (Thrown ("Contract " +:+ contractName +:+
                   " has changes but does not specify a version number"))
  else ret contract.

Definition deployProxy (contractName : string) : M ContractInstance :=
  if bool_decide (contractName = "Governance") then
    throw (Thrown "Storage incompatible changes to Governance are not yet supported")
  else
    Proxy <~ require (contractName +:+ "Proxy") ;;
    a <~ instantiate ;;
    emit (EvProxy contractName a) ;;;
    let proxy := {| instance_abi := abi Proxy; address := a |} in
    (if dry_run env then ret tt
     else governance <~ ContractAddresses.get "Governance" ;;
          emit (EvTransferOwnership contractName governance)) ;;;
    ret proxy.

(** [shouldDeployProxy]; [None] when [report.contracts[contractName]] is
    [undefined] and reading its [changes] throws. *)
Definition shouldDeployProxy (report : ASTDetailedVersionedReport)
    (contractName : string) : option bool :=
  match contracts report !! contractName with
  | None => None
  | Some changes =>
      let hasStorageChanges := 0 <? length (storage changes) in
      let isNewContract := List.find (λ change, String.eqb (type change) "NewContract")
                                     (major changes) in
      Some (hasStorageChanges || bool_decide (is_Some isNewContract))
  end.

(** The entry [setImplementationTx] as [deployCoreContract] first builds
    it, from the address of the new implementation. *)
Definition setImplementationTx (contractName : string) (implementation : Address) : ProposalTx :=
  {| contract := contractName +:+ "Proxy";
     function := "_setImplementation";
     args := [Str implementation];
     value := "0";
     description := None |}.

(** [setImplementationTx.function = '_setAndInitializeImplementation'] and
    [setImplementationTx.args.push(callData)] *)
Definition setAndInitialize (tx : ProposalTx) (callData : string) : ProposalTx :=
  {| contract := contract tx;
     function := "_setAndInitializeImplementation";
     args := args tx ++ [Str callData];
     value := value tx;
     description := description tx |}.

(** The entry that re-points the registry to a new proxy. *)
Definition setAddressForTx (contractName : string) (proxy : Address) : ProposalTx :=
  {| contract := "Registry";
     function := "setAddressFor";
     args := [Str contractName; Str proxy];
     value := "0";
     description := Some ("Registry: " +:+ contractName +:+ " -> " +:+ proxy) |}.

Definition deployCoreContract (contractName : string) (instance : Artifact) : M unit :=
  implementation <~ deployImplementation contractName instance true ;;
  let setImplementationTx := setImplementationTx contractName (address implementation) in
  match shouldDeployProxy (report env) contractName with
  | None => throw (TypeError "changes")
  | Some false => push setImplementationTx
  | Some true =>
      proxy <~ deployProxy contractName ;;
      ContractAddresses.set contractName (address proxy) ;;;
      push (setAddressForTx contractName (address proxy)) ;;;
      tx <~ match findFunction "initialize" (instance_abi implementation) with
            | Some initializeAbi =>
                let initArgs := initializationData env !! contractName in
                match encodeFunctionCall env initializeAbi initArgs with
                | Some callData =>
                    ret (setAndInitialize setImplementationTx callData)
                | None =>
                    throw (InitializeEncodingError contractName initArgs
                             (abi_inputs initializeAbi))
                end
            | None => ret setImplementationTx
            end ;;
      push tx
  end.

Definition deployLibrary (contractName : string) (contractArtifact : Artifact) : M unit :=
  library <~ deployImplementation contractName contractArtifact false ;;
  ContractAddresses.set contractName (address library).

(** [released.add(contractName)] *)
Definition markReleased (contractName : string) : M unit := λ s,
  (Ok tt, with_trace (λ t, t ++ [EvReleased contractName])
            (with_released (λ r, {[contractName]} ∪ r) s)).

(** [contractDependencies.map((d) => contractArtifact.link(d, addresses.get(d)))] *)
Definition link (contractName : string) (contractDependencies : list string) : M unit :=
  forEach (λ d, a <~ ContractAddresses.get d ;; emit (EvLink contractName d a))
          contractDependencies.

(** The closure [release] of [module.exports].  It recurses along the
    dependency lists with no bound of its own; [fuel] bounds the depth of
    the recursion. *)
Fixpoint release (fuel : nat) (contractName : string) : M unit :=
  match fuel with
  | 0 => λ s, (OutOfFuel, s)
  | S fuel' => λ s,
      if bool_decide (contractName ∈ released s) then (Ok tt, s)
      else
        (let contractDependencies := dependencies_get env contractName in
         forEach (release fuel') contractDependencies ;;;
         contractArtifact <~ require contractName ;;
         link contractName contractDependencies ;;;
         let shouldDeployContract := bool_decide (is_Some (contracts (report env) !! contractName)) in
         let shouldDeployLibrary := bool_decide (is_Some (libraries (report env) !! contractName)) in
         (if shouldDeployContract then deployCoreContract contractName contractArtifact
          else if shouldDeployLibrary then deployLibrary contractName contractArtifact
          else ret tt) ;;;
         markReleased contractName) s
  end.

(** The state [module.exports] starts the traversal from. *)
Definition initial : State :=
  {| addresses := ContractAddresses.create env (env_contracts env) (libraryMapping env);
     released := ∅;
     proposal := [];
     deployed := 0;
     trace := [] |}.

(** [addresses[key]]: here [addresses] is the [ContractAddresses] object,
    not its map.  Its own properties are [addresses], [get] and [set], the
    others come from [Object.prototype]; any other key reads as
    [undefined]. *)
Definition property (key : string) : Arg :=
  if bool_decide (key ∈ ["addresses"; "get"; "set"; "constructor"; "__proto__";
                         "hasOwnProperty"; "isPrototypeOf"; "propertyIsEnumerable";
                         "toLocaleString"; "toString"; "valueOf";
                         "__defineGetter__"; "__defineSetter__";
                         "__lookupGetter__"; "__lookupSetter__"])
  then Object else Undefined.

Definition fiat_ticket : string := "GBP".

(** The four entries pushed after the traversal. *)
Definition extras (exchangeAddress stableTokenAddress : Arg) : list ProposalTx :=
  [ {| contract := "SortedOracles"; function := "addOracle";
       args := [stableTokenAddress; Str "TODO"]; value := "0"; description := None |};
    {| contract := "GoldToken"; function := "transfer";
       args := [Str "TODO"]; value := "0"; description := None |};
    {| contract := "Reserve"; function := "addExchangeSpender";
       args := [exchangeAddress]; value := "0"; description := None |};
    {| contract := "Figure out how to get exchange address here"; function := "addOracle";
       args := [Str "0"]; value := "0"; description := None |} ].

(** The body of [module.exports] from the traversal on; the result is the
    array handed to [writeJsonSync]. *)
Definition traverse (fuel : nat) : M unit :=
  forEach (λ contractName,
             if isCoreContract contractName && isProxiedContract contractName
             then release fuel contractName else ret tt)
          (env_contracts env).

Definition module_exports (fuel : nat) : Outcome (list ProposalTx) * State :=
  (traverse fuel ;;;
   let exchangeAddress := property ("Exchange" +:+ fiat_ticket) in
   let stableTokenAddress := property ("Exchange" +:+ fiat_ticket) in
   forEach push (extras exchangeAddress stableTokenAddress) ;;;
   λ s, (Ok (proposal s), s)) initial.

End Script.


(** ** Notions used to state the properties *)

(** The name an operation of the trace works on. *)
Definition unit_of (e : Event) : string :=
  match e with
  | EvLink contractName _ _ => contractName
  | EvInstance contractName _ => contractName
  | EvProxy contractName _ => contractName
  | EvTransferOwnership contractName _ => contractName
  | EvReleased contractName => contractName
  end.

(** Every dependency of [u] has been marked released somewhere in [tr]. *)
Definition ready (env : Env) (tr : list Event) (u : string) : Prop :=
  ∀ d, d ∈ dependencies_get env u → EvReleased d ∈ tr.

(** A trace in which every operation on a name comes after the marking of
    each of its dependencies. *)
Inductive ordered (env : Env) : list Event → Prop :=
  | ordered_nil : ordered env []
  | ordered_snoc tr e :
      ordered env tr → ready env tr (unit_of e) → ordered env (tr ++ [e]).

(** The invariant of the traversal: the trace is ordered, and the released
    names are those it marks. *)
Definition consistent (env : Env) (s : State) : Prop :=
  ordered env (trace s) ∧ ∀ u, u ∈ released s ↔ EvReleased u ∈ trace s.

(** [m] relates every state to the state it leaves, whatever the outcome. *)
Definition preserves {A} (R : State → State → Prop) (m : M A) : Prop :=
  ∀ s, R s (m s).2.

(** The address the next instantiation yields in state [s]. *)
Definition nextAddress (env : Env) (s : State) : Address :=
  if dry_run env then celoRegistryAddress env else newAddress env (deployed s).

(** The message of [deployImplementation]'s exception. *)
Definition noVersionMessage (contractName : string) : string :=
  "Contract " +:+ contractName +:+ " has changes but does not specify a version number".

(** The state an instantiation leaves: outside a dry run one more contract
    has been created. *)
Definition afterInstantiate (env : Env) (s : State) : State :=
  if dry_run env then s else with_deployed S s.

(** The state [deployImplementation] leaves, whether it throws or not. *)
Definition afterImplementation (env : Env) (contractName : string) (s : State) : State :=
  with_trace (λ t, t ++ [EvInstance contractName (nextAddress env s)]) (afterInstantiate env s).

(** The report entry calls for a new proxy: some storage change, or a major
    change of type [NewContract]. *)
Definition flagged (changes : Changes) : Prop :=
  storage changes ≠ [] ∨ ∃ change, change ∈ major changes ∧ type change = "NewContract".

(** The ABI declares a function of the given name. *)
Definition declares (l : list AbiEntry) (name : string) : Prop :=
  ∃ a, a ∈ l ∧ abi_type a = "function" ∧ abi_name a = name.

Definition governanceMessage : string :=
  "Storage incompatible changes to Governance are not yet supported".

(** The state [deployProxy] leaves once the proxy artifact is found: the
    proxy instantiated and, outside a dry run, handed to Governance when the
    table knows it. *)
Definition afterProxy (env : Env) (contractName : string) (s : State) : State :=
  with_trace
    (λ t, t ++ EvProxy contractName (nextAddress env s) ::
            (if dry_run env then []
             else match addresses s !! "Governance" with
                  | Some governance => [EvTransferOwnership contractName governance]
                  | None => []
                  end))
    (afterInstantiate env s).

(** The state [deployCoreContract] reaches after storing the new proxy in
    the table and pushing the registry entry, from the state [s2] that
    [deployProxy] left. *)
Definition afterRegistryEntry (contractName : string) (proxy : Address) (s2 : State) : State :=
  with_proposal (λ p, p ++ [setAddressForTx contractName proxy])
    (with_addresses (λ table, <[contractName := proxy]> table) s2).

(** The state [release] reaches once the dependencies are released. *)
Definition afterDependencies (env : Env) (fuel : nat) (contractName : string) (s : State) : State :=
  (forEach (release env fuel) (dependencies_get env contractName) s).2.

Arguments afterInstantiate : simpl never.
Arguments afterImplementation : simpl never.
Arguments afterProxy : simpl never.

(** Steps 2 to 4 of [release]: link, deploy what the report names, mark. *)
Definition releaseSteps (env : Env) (contractName : string) : M unit :=
  contractArtifact <~ require env contractName ;;
  link contractName (dependencies_get env contractName) ;;;
  (if bool_decide (is_Some (contracts (report env) !! contractName))
   then deployCoreContract env contractName contractArtifact
   else if bool_decide (is_Some (libraries (report env) !! contractName))
        then deployLibrary env contractName contractArtifact
        else ret tt) ;;;
  markReleased contractName.

(** [m] never stops for lack of fuel. *)
Definition total {A} (m : M A) : Prop := ∀ s, (m s).1 ≠ OutOfFuel.

(** [n] is [u] or one of the names [release u] can recurse to. *)
Inductive dependsOn (env : Env) : string → string → Prop :=
  | dependsOn_refl u : dependsOn env u u
  | dependsOn_step u d n :
      d ∈ dependencies_get env u → dependsOn env d n → dependsOn env u n.

(** The released set only grows. *)
Definition grows (s s' : State) : Prop := released s ⊆ released s'.

(** While a name with all its dependencies released is worked on, the
    invariant holds and the name stays ready. *)
Definition working (env : Env) (u : string) (s s' : State) : Prop :=
  consistent env s ∧ ready env (trace s) u → consistent env s' ∧ ready env (trace s') u.

(** The invariant is kept. *)
Definition stays (env : Env) (s s' : State) : Prop := consistent env s → consistent env s'.

(** Nothing is appended to the proposal, and the released set grows. *)
Definition appendsNothing (s s' : State) : Prop :=
  proposal s' = proposal s ∧ released s ⊆ released s'.

(** Linking leaves the proposal and the number of created contracts alone. *)
Definition linksOnly (s s' : State) : Prop :=
  proposal s' = proposal s ∧ deployed s' = deployed s.


(** ** Concrete worlds *)
Module Demo.

Definition fn (name : string) (inputs : list string) : AbiEntry :=
  {| abi_type := "function"; abi_name := name; abi_inputs := inputs |}.

(** A core contract: versioned, with an initializer. *)
Definition coreArtifact : Artifact :=
  {| abi := [ {| abi_type := "event"; abi_name := "initialize"; abi_inputs := [] |};
              fn "getVersionNumber" [];
              fn "initialize" ["address"; "uint256"];
              fn "transfer" ["address"; "uint256"] ] |}.

(** A core contract without initializer. *)
Definition plainArtifact : Artifact :=
  {| abi := [ fn "getVersionNumber" []; fn "transfer" ["address"; "uint256"] ] |}.

(** A proxy, and a library: no version number. *)
Definition proxyArtifact : Artifact :=
  {| abi := [ fn "_setImplementation" ["address"]; fn "_transferOwnership" ["address"] ] |}.

Definition libraryArtifact : Artifact :=
  {| abi := [ fn "add" ["uint256"; "uint256"] ] |}.

Definition artifacts (name : string) : option Artifact :=
  if bool_decide (name ∈ ["Exchange"; "Governance"; "StableTokenGBP"]) then Some coreArtifact
  else if bool_decide (name ∈ ["Reserve"]) then Some plainArtifact
  else if bool_decide (name ∈ ["ExchangeProxy"; "GovernanceProxy"; "StableTokenGBPProxy"; "ReserveProxy"])
       then Some proxyArtifact
  else if bool_decide (name ∈ ["Proposals"; "Signatures"]) then Some libraryArtifact
  else None.

Definition registered (name : string) : Address :=
  if String.eqb name "Exchange" then "0xE0"
  else if String.eqb name "Governance" then "0x60"
  else if String.eqb name "Reserve" then "0x4E"
  else "0x00".

Definition dependenciesOf (name : string) : list string :=
  if String.eqb name "Governance" then ["Proposals"; "Signatures"]
  else if String.eqb name "Exchange" then ["Signatures"]
  else [].

(** The encoder accepts exactly as many arguments as the ABI declares. *)
Definition encode (initializeAbi : AbiEntry) (initArgs : option (list string)) : option string :=
  match initArgs with
  | Some l => if length l =? length (abi_inputs initializeAbi)
              then Some (String.concat "," (abi_name initializeAbi :: l)) else None
  | None => None
  end.

Definition world (r : ASTDetailedVersionedReport) (dry : bool) : Env :=
  {| env_contracts := ["Exchange"; "ExchangeProxy"; "Governance"; "GovernanceProxy";
                       "Proposals"; "Reserve"; "ReserveProxy"; "Signatures";
                       "StableTokenGBP"; "StableTokenGBPProxy"];
     getAddressForString := registered;
     libraryMapping := {[ "Proposals" := "0xA1"; "Signatures" := "0xA2" ]};
     report := r;
     initializationData := {[ "StableTokenGBP" := ["0x60"; "18"]; "Exchange" := ["0x60"] ]};
     dependencies_get := dependenciesOf;
     artifacts_require := artifacts;
     CeloContractName := ["Exchange"; "Governance"; "Reserve"; "StableTokenGBP"];
     encodeFunctionCall := encode;
     newAddress := λ n, "0xN" +:+ String (Ascii.ascii_of_nat (48 + n)) EmptyString;
     eqAddress := String.eqb;
     NULL_ADDRESS := "0x00";
     celoRegistryAddress := "0xce10";
     dry_run := dry;
     from := "" |}.

Definition stored : Change := {| type := "VariableAdded" |}.

(** Implementation-only upgrades of Exchange and Governance; Signatures
    changed as a library. *)
Definition upgradeReport : ASTDetailedVersionedReport :=
  {| contracts := {[ "Exchange" := {| storage := []; major := [] |};
                     "Governance" := {| storage := []; major := [{| type := "MethodRemoved" |}] |} ]};
     libraries := {[ "Signatures" := {| storage := []; major := [] |} ]} |}.

(** Governance with a storage change, and nothing else. *)
Definition governanceReport : ASTDetailedVersionedReport :=
  {| contracts := {[ "Governance" := {| storage := [stored]; major := [] |} ]};
     libraries := ∅ |}.

(** A new stable token, a storage change in Reserve and one in Exchange,
    whose initializer arguments do not fit. *)
Definition stableTokenReport : ASTDetailedVersionedReport :=
  {| contracts := {[ "StableTokenGBP" := {| storage := []; major := [{| type := "NewContract" |}] |};
                     "Reserve" := {| storage := [stored]; major := [] |};
                     "Exchange" := {| storage := [stored]; major := [] |} ]};
     libraries := ∅ |}.

Definition empty : State :=
  {| addresses := ∅; released := ∅; proposal := []; deployed := 0; trace := [] |}.

End Demo.


(** ** Further notions: names in progress *)

(** None of the names of [P] is released. *)
Definition unreleased (P : string → Prop) (s : State) : Prop :=
  ∀ p, P p → p ∉ released s.

(** Every name of [P] waits for a name of [P] or for [name]: the names of
    [P] are calls of [release] in progress, down to the call for [name]. *)
Definition chained (env : Env) (P : string → Prop) (name : string) : Prop :=
  ∀ p, P p → ∃ d, d ∈ dependencies_get env p ∧ (P d ∨ d = name).

(** The steps of [release] for [u] release no other name. *)
Definition marksOnly (u : string) (s s' : State) : Prop :=
  released s' ⊆ {[u]} ∪ released s.


(** ** Further notions: the steps of one release *)

(** Steps 2 and 3 of [release], once the artifact is there: link, deploy. *)
Definition releaseWork (env : Env) (contractName : string) (contractArtifact : Artifact) : M unit :=
  link contractName (dependencies_get env contractName) ;;;
  (if bool_decide (is_Some (contracts (report env) !! contractName))
   then deployCoreContract env contractName contractArtifact
   else if bool_decide (is_Some (libraries (report env) !! contractName))
        then deployLibrary env contractName contractArtifact
        else ret tt).

(** The report lists the name, as a core contract or as a library. *)
Definition reported (env : Env) (u : string) : Prop :=
  is_Some (contracts (report env) !! u) ∨ is_Some (libraries (report env) !! u).

(** A trace in which no operation on a name comes after its marking. *)
Inductive untouched : list Event → Prop :=
  | untouched_nil : untouched []
  | untouched_snoc tr e :
      untouched tr → EvReleased (unit_of e) ∉ tr → untouched (tr ++ [e]).

(** Every link recorded so far was made to a released name, with the address
    the table holds for it now. *)
Definition canonical (s : State) : Prop :=
  ∀ u d a, EvLink u d a ∈ trace s → d ∈ released s ∧ addresses s !! d = Some a.

Definition sound (env : Env) (s : State) : Prop :=
  consistent env s ∧ untouched (trace s) ∧ canonical s.

(** [u] is being released: its dependencies are, and it is not yet. *)
Definition engaged (env : Env) (u : string) (s : State) : Prop :=
  sound env s ∧ ready env (trace s) u ∧ u ∉ released s.

Definition phase (env : Env) (u : string) (s s' : State) : Prop :=
  engaged env u s → engaged env u s'.

Definition keepsSound (env : Env) (s s' : State) : Prop := sound env s → sound env s'.


(** ** Further notions: the registry entries and the table *)

(** Every registry entry of the proposal names the address the table holds. *)
Definition registered (s : State) : Prop :=
  ∀ n p, setAddressForTx n p ∈ proposal s → addresses s !! n = Some p.

(** Moreover, the names of the registry entries are released. *)
Definition settled (s : State) : Prop :=
  ∀ n p, setAddressForTx n p ∈ proposal s → n ∈ released s ∧ addresses s !! n = Some p.

(** Only the trace and the number of created contracts may differ. *)
Definition sameTables (s s' : State) : Prop :=
  addresses s' = addresses s ∧ released s' = released s ∧ proposal s' = proposal s.

(** What a deployment for [u] leaves of the state [s]: the released set, the
    table but for the entry of [u], and the proposal with some entries more,
    where a registry entry is for [u] and names the address now in the
    table. *)
Definition deployedFor (u : string) (s s' : State) : Prop :=
  released s' = released s
  ∧ (addresses s' = addresses s ∨ ∃ a, addresses s' = <[u := a]> (addresses s))
  ∧ ∃ l, proposal s' = proposal s ++ l
         ∧ ∀ n p, setAddressForTx n p ∈ l → n = u ∧ addresses s' !! u = Some p.


(** ** Further notions: dry runs, idle releases, growth *)

(** What a dry run may record: instances and proxies at the stand-in address,
    links and marks, and no transfer of ownership. *)
Definition dryEvent (env : Env) (e : Event) : Prop :=
  match e with
  | EvInstance _ a => a = celoRegistryAddress env
  | EvProxy _ a => a = celoRegistryAddress env
  | EvTransferOwnership _ _ => False
  | EvLink _ _ _ => True
  | EvReleased _ => True
  end.

(** No contract is created, and what is recorded is what a dry run may. *)
Definition dryRun (env : Env) (s s' : State) : Prop :=
  deployed s' = deployed s ∧ ∃ t, trace s' = trace s ++ t ∧ Forall (dryEvent env) t.

(** The table, the proposal and the number of created contracts stay. *)
Definition idle (s s' : State) : Prop :=
  addresses s' = addresses s ∧ proposal s' = proposal s ∧ deployed s' = deployed s.

(** The proposal and the trace are only added to, never fewer contracts are
    counted, and no name leaves the released set. *)
Definition extends (s s' : State) : Prop :=
  (∃ l, proposal s' = proposal s ++ l) ∧ (∃ t, trace s' = trace s ++ t)
  ∧ deployed s ≤ deployed s' ∧ released s ⊆ released s'.



(** ** Further notions: what a run may do *)

(** A name whose table entry a release may rewrite: a core contract whose
    report entry calls for a new proxy, Governance apart, or a library of
    the report that the report does not also list as a core contract. *)
Definition rewritable (env : Env) (u : string) : Prop :=
  (shouldDeployProxy (report env) u = Some true ∧ u ≠ "Governance")
  ∨ (contracts (report env) !! u = None ∧ is_Some (libraries (report env) !! u)).

(** What the report and the dependency lists allow an operation to be. *)
Definition justifiedEvent (env : Env) (e : Event) : Prop :=
  match e with
  | EvLink u d _ => d ∈ dependencies_get env u
  | EvInstance u _ => reported env u
  | EvProxy u _ => shouldDeployProxy (report env) u = Some true ∧ u ≠ "Governance"
  | EvTransferOwnership u _ => shouldDeployProxy (report env) u = Some true ∧ u ≠ "Governance"
  | EvReleased _ => True
  end.

Definition justified (env : Env) (s s' : State) : Prop :=
  ∃ t, trace s' = trace s ++ t ∧ Forall (justifiedEvent env) t.

(** The table entries of the names that are not [rewritable] are kept. *)
Definition tableOutside (env : Env) (s s' : State) : Prop :=
  ∀ n, ¬ rewritable env n → addresses s' !! n = addresses s !! n.

(** The entry of Governance is kept, and every new proxy is handed to it. *)
Definition handsOver (s s' : State) : Prop :=
  addresses s' !! "Governance" = addresses s !! "Governance"
  ∧ ∃ t, trace s' = trace s ++ t
         ∧ ∀ u g, EvTransferOwnership u g ∈ t → addresses s !! "Governance" = Some g.

(** The instantiations of a trace: the name, and whether it is the proxy. *)
Definition creation (e : Event) : option (string * bool) :=
  match e with
  | EvInstance u _ => Some (u, false)
  | EvProxy u _ => Some (u, true)
  | _ => None
  end.

Definition creations (tr : list Event) : list (string * bool) := omap creation tr.

(** Every newly released name satisfies [Q]. *)
Definition marksWithin (Q : string → Prop) (s s' : State) : Prop :=
  ∀ u, u ∈ released s' → u ∈ released s ∨ Q u.

(** The names the traversal loop calls [release] on. *)
Definition root (env : Env) (r : string) : Prop :=
  r ∈ env_contracts env ∧ isCoreContract env r && isProxiedContract env r = true.

(** The names [release] can reach from a root. *)
Definition reachable (env : Env) (u : string) : Prop :=
  ∃ r, root env r ∧ dependsOn env r u.

(** A world in which Exchange and Reserve depend on each other. *)
Module Loop.

Definition dependenciesOf (name : string) : list string :=
  if String.eqb name "Exchange" then ["Reserve"]
  else if String.eqb name "Reserve" then ["Exchange"]
  else [].

Definition world : Env :=
  let w := Demo.world Demo.upgradeReport false in
  {| env_contracts := env_contracts w;
     getAddressForString := getAddressForString w;
     libraryMapping := libraryMapping w;
     report := report w;
     initializationData := initializationData w;
     dependencies_get := dependenciesOf;
     artifacts_require := artifacts_require w;
     CeloContractName := CeloContractName w;
     encodeFunctionCall := encodeFunctionCall w;
     newAddress := newAddress w;
     eqAddress := eqAddress w;
     NULL_ADDRESS := NULL_ADDRESS w;
     celoRegistryAddress := celoRegistryAddress w;
     dry_run := dry_run w;
     from := from w |}.

End Loop.

(** A world in which Governance depends on Exchange, with a storage change
    in Governance and a change of the implementation only in Exchange. *)
Module Upstream.

Definition dependenciesOf (name : string) : list string :=
  if String.eqb name "Governance" then ["Exchange"] else [].

Definition upstreamReport : ASTDetailedVersionedReport :=
  {| contracts := {[ "Governance" := {| storage := [Demo.stored]; major := [] |};
                     "Exchange" := {| storage := []; major := [] |} ]};
     libraries := ∅ |}.

Definition world : Env :=
  let w := Demo.world upstreamReport false in
  {| env_contracts := env_contracts w;
     getAddressForString := getAddressForString w;
     libraryMapping := libraryMapping w;
     report := report w;
     initializationData := initializationData w;
     dependencies_get := dependenciesOf;
     artifacts_require := artifacts_require w;
     CeloContractName := CeloContractName w;
     encodeFunctionCall := encodeFunctionCall w;
     newAddress := newAddress w;
     eqAddress := eqAddress w;
     NULL_ADDRESS := NULL_ADDRESS w;
     celoRegistryAddress := celoRegistryAddress w;
     dry_run := dry_run w;
     from := from w |}.

End Upstream.



(** ** Further notions: instantiations *)

(** Nothing is released, and the new instantiations are the implementation
    of [u], or it and its proxy, or none. *)
Definition creates (u : string) (s s' : State) : Prop :=
  released s' = released s
  ∧ ∃ l, creations (trace s') = creations (trace s) ++ l
         ∧ (l = [] ∨ l = [(u, false)] ∨ l = [(u, false); (u, true)]).

(** No implementation and no proxy is instantiated twice for a name. *)
Definition once (s : State) : Prop := NoDup (creations (trace s)).

(** Moreover, the names with an instantiation are released. *)
Definition tidy (s : State) : Prop :=
  once s ∧ ∀ x b, (x, b) ∈ creations (trace s) → x ∈ released s.

(** * The wallet contract kept in the same file: [MetaTransactionWallet]

    The Solidity contract that follows the script in
    [make-release-stabletoken.ts].  A call of an [external] or [public]
    function either returns, with the storage it leaves, or reverts, which
    undoes every change the call made: [Revert] carries no storage.

    The contract lives among others.  What it calls and does not define is
    a field of [World]: [ExternalCall.execute], whose callee may change the
    rest of the chain and, by calling back, the storage of the wallet;
    [BytesLib.slice]; [keccak256], [abi.encode] and the two functions of
    [Signatures].  [SafeMath] is written out. *)
Module Wallet.

Abbreviation bytes := (list Byte.byte) (only parsing).

(** A call returns, or reverts with the message of the [require] that
    failed, if it has one. *)
Inductive Result (A : Type) : Type :=
  | Return (a : A)
  | Revert (reason : option string).

Arguments Return {A} a.
Arguments Revert {A} reason.

(** [event TransactionExecution] and [event MetaTransactionExecution] *)
Inductive Log :=
  | TransactionExecution (destination value : N) (data returnData : bytes)
  | MetaTransactionExecution (destination value : N) (data : bytes) (_nonce : N)
      (returnData : bytes).

(** [uint256] arithmetic wraps around. *)
Definition uint256 (n : N) : N := (n mod 2 ^ 256)%N.

(** [library SafeMath] *)
Module SafeMath.

Definition add (a b : N) : Result N :=
  let c := uint256 (a + b) in
  if (a <=? c)%N then Return c else Revert (Some "SafeMath: addition overflow").

Definition sub (a b : N) : Result N :=
  if (b <=? a)%N then Return (a - b)%N else Revert (Some "SafeMath: subtraction overflow").

End SafeMath.

Definition EIP712_EXECUTE_META_TRANSACTION_TYPEHASH : N :=
  0x509c6e92324b7214543573524d0bb493d654d3410fa4f4937b3d2f4a903edd33%N.

Section Contract.

(** The state of the other contracts. *)
Context {Chain : Type}.

(** The storage of the wallet — [owner] is the [_owner] of [Ownable] —
    with the events logged so far and the rest of the chain. *)
Record Storage := {
  eip712DomainSeparator : N;
  nonce : N;
  signer : N;
  owner : N;
  logs : list Log;
  chain : Chain;
}.

Record World := {
  execute : N → N → bytes → Storage → Result (bytes * Storage);
  slice : bytes → N → N → option bytes;
  keccak256 : bytes → N;
  abi_encode : list N → bytes;
  toEthSignedTypedDataHash : N → N → N;
  getSignerOfTypedDataHash : N → N → N → N → N → N;
}.

Variable world : World.

(** [emit] *)
Definition emit (l : Log) (st : Storage) : Storage :=
  {| eip712DomainSeparator := eip712DomainSeparator st;
     nonce := nonce st;
     signer := signer st;
     owner := owner st;
     logs := logs st ++ [l];
     chain := chain st |}.

(** [nonce = n] *)
Definition with_nonce (n : N) (st : Storage) : Storage :=
  {| eip712DomainSeparator := eip712DomainSeparator st;
     nonce := n;
     signer := signer st;
     owner := owner st;
     logs := logs st;
     chain := chain st |}.

Definition getMetaTransactionStructHash (destination value : N) (data : bytes) (_nonce : N) : N :=
  keccak256 world
    (abi_encode world
       [EIP712_EXECUTE_META_TRANSACTION_TYPEHASH; destination; value;
        keccak256 world data; _nonce]).

Definition getMetaTransactionDigest (destination value : N) (data : bytes) (_nonce : N)
    (st : Storage) : N :=
  let structHash := getMetaTransactionStructHash destination value data _nonce in
  toEthSignedTypedDataHash world (eip712DomainSeparator st) structHash.

Definition getMetaTransactionSigner (destination value : N) (data : bytes) (_nonce : N)
    (v r s : N) (st : Storage) : N :=
  let structHash := getMetaTransactionStructHash destination value data _nonce in
  getSignerOfTypedDataHash world (eip712DomainSeparator st) structHash v r s.

Definition executeMetaTransaction (destination value : N) (data : bytes) (v r s : N)
    (st : Storage) : Result (bytes * Storage) :=
  let _signer := getMetaTransactionSigner destination value data (nonce st) v r s st in
  if (_signer =? signer st)%N then
    match SafeMath.add (nonce st) 1 with
    | Revert reason => Revert reason
    | Return n =>
        match execute world destination value data (with_nonce n st) with
        | Revert reason => Revert reason
        | Return (returnData, st') =>
            match SafeMath.sub (nonce st') 1 with
            | Revert reason => Revert reason
            | Return logged =>
                Return (returnData,
                        emit (MetaTransactionExecution destination value data logged returnData)
                          st')
            end
        end
    end
  else Revert (Some "Invalid meta-transaction signer").

Definition executeTransaction (sender : N) (destination value : N) (data : bytes)
    (st : Storage) : Result (bytes * Storage) :=
  if (sender =? signer st)%N || (sender =? owner st)%N then
    match execute world destination value data st with
    | Revert reason => Revert reason
    | Return (returnData, st') =>
        Return (returnData, emit (TransactionExecution destination value data returnData) st')
    end
  else Revert (Some "Invalid transaction sender").

(** [sliced] starts as the empty array. *)
Definition sliceData (data : bytes) (start length : N) : Result bytes :=
  if (0 <? length)%N then
    match slice world data start length with
    | Some sliced => Return sliced
    | None => Revert None
    end
  else Return [].

(** The loop of [executeTransactions], with [remaining] iterations to go
    from index [i]; reading an array beyond its end reverts. *)
Fixpoint executeTransactions_from (sender : N) (destinations values : list N) (data : bytes)
    (dataLengths : list N) (remaining i : nat) (dataPosition : N) (st : Storage)
    : Result (unit * Storage) :=
  match remaining with
  | 0 => Return (tt, st)
  | S remaining' =>
      match destinations !! i, values !! i, dataLengths !! i with
      | Some destination, Some value, Some length =>
          match sliceData data dataPosition length with
          | Revert reason => Revert reason
          | Return sliced =>
              match executeTransaction sender destination value sliced st with
              | Revert reason => Revert reason
              | Return (_, st') =>
                  match SafeMath.add dataPosition length with
                  | Revert reason => Revert reason
                  | Return dataPosition' =>
                      executeTransactions_from sender destinations values data dataLengths
                        remaining' (S i) dataPosition' st'
                  end
              end
          end
      | _, _, _ => Revert None
      end
  end.

Definition executeTransactions (sender : N) (destinations values : list N) (data : bytes)
    (dataLengths : list N) (st : Storage) : Result (unit * Storage) :=
  if (length destinations =? length values) && (length values =? length dataLengths) then
    executeTransactions_from sender destinations values data dataLengths
      (length destinations) 0 0%N st
  else Revert (Some "Input arrays must be same length").

End Contract.

Arguments Storage : clear implicits.
Arguments World : clear implicits.

(** [BytesLib.slice] where [_start + _length] does not wrap around: the
    segment when it lies within the array, a revert otherwise.  The library
    checks the bound on the [uint256] sum; where the sum wraps around
    nothing is assumed of it. *)
Definition slices {Chain} (world : World Chain) : Prop :=
  ∀ (data : bytes) (start length : N),
    (start + length < 2 ^ 256)%N →
    slice world data start length
    = if (start + length <=? N.of_nat (List.length data))%N
      then Some (take (N.to_nat length) (drop (N.to_nat start) data))
      else None.

(** The callee of [ExternalCall.execute] logs nothing in the name of the
    wallet: it does not call back into [executeTransaction] or
    [executeMetaTransaction]. *)
Definition detached {Chain} (world : World Chain) : Prop :=
  ∀ destination value data st returnData st',
    execute world destination value data st = Return (returnData, st') →
    logs st' = logs st.

(** The consecutive segments of [data] of the given lengths. *)
Fixpoint segments (data : bytes) (dataLengths : list N) : list bytes :=
  match dataLengths with
  | [] => []
  | length :: dataLengths =>
      take (N.to_nat length) data :: segments (drop (N.to_nat length) data) dataLengths
  end.

(** One [TransactionExecution] for each transaction of a batch, with the
    data it was sent and the data it returned. *)
Fixpoint executions (destinations values : list N) (data returnData : list bytes) : list Log :=
  match destinations, values, data, returnData with
  | destination :: destinations, value :: values, sent :: data, returned :: returnData =>
      TransactionExecution destination value sent returned
      :: executions destinations values data returnData
  | _, _, _, _ => []
  end.

(** The numbers of an array are [uint256] values. *)
Definition inRange (l : list N) : Prop := Forall (λ n, (n < 2 ^ 256)%N) l.

(** The sum of the data lengths. *)
Definition total_length (dataLengths : list N) : N := foldr N.add 0%N dataLengths.

(** A chain of one counter, whose every call adds the value sent, returns
    the data it got and leaves the wallet alone; its [slice] checks the
    bound on the wrapped sum. *)
Definition counting : World N :=
  {| execute := λ destination value data st,
       Return (data, {| eip712DomainSeparator := eip712DomainSeparator st;
                        nonce := nonce st;
                        signer := signer st;
                        owner := owner st;
                        logs := logs st;
                        chain := (chain st + value)%N |});
     slice := λ data start length,
       if (uint256 (start + length) <=? N.of_nat (List.length data))%N
       then Some (take (N.to_nat length) (drop (N.to_nat start) data))
       else None;
     keccak256 := λ data, N.of_nat (List.length data);
     abi_encode := λ l, [];
     toEthSignedTypedDataHash := λ domain structHash, structHash;
     getSignerOfTypedDataHash := λ domain structHash v r s, r |}.

Definition fresh : Storage N :=
  {| eip712DomainSeparator := 0%N; nonce := 0%N; signer := 7%N; owner := 9%N;
     logs := []; chain := 0%N |}.

End Wallet.


(** * Properties *)

(** ** Running a computation *)

Lemma bind_run {A B} (m : M A) (k : A → M B) s :
  bind m k s =
  match m s with
  | (Ok a, s') => k a s'
  | (Err e, s') => (Err e, s')
  | (OutOfFuel, s') => (OutOfFuel, s')
  end.
Proof. reflexivity. Qed.

Lemma bind_Ok {A B} (m : M A) (k : A → M B) s b s' :
  bind m k s = (Ok b, s') → ∃ a s1, m s = (Ok a, s1) ∧ k a s1 = (Ok b, s').
Proof.
  rewrite bind_run. destruct (m s) as [[a|e|] s1]; [eauto | discriminate..].
Qed.

Lemma bind_of_Ok {A B} (m : M A) (k : A → M B) s a s1 :
  m s = (Ok a, s1) → bind m k s = k a s1.
Proof. intros H. by rewrite bind_run, H. Qed.

Lemma bind_of_Err {A B} (m : M A) (k : A → M B) s e s1 :
  m s = (Err e, s1) → bind m k s = (Err e, s1).
Proof. intros H. by rewrite bind_run, H. Qed.

(** ** The address table *)

Section AddressTable.

Variable env : Env.

Lemma foldl_registry_lookup (names : list string) (table : gmap string Address) (n : string) :
  foldl (λ table name,
           let registeredAddress := getAddressForString env name in
           if eqAddress env registeredAddress (NULL_ADDRESS env) then table
           else <[name := registeredAddress]> table) table names !! n
  = if bool_decide (n ∈ names) && negb (eqAddress env (getAddressForString env n) (NULL_ADDRESS env))
    then Some (getAddressForString env n) else table !! n.
Proof.
  revert table. induction names as [|x names IH]; intros table; simpl.
  - done.
  - rewrite IH. destruct (decide (n = x)) as [->|Hne].
    + rewrite (bool_decide_eq_true_2 (x ∈ x :: names)) by left.
      destruct (eqAddress env (getAddressForString env x) (NULL_ADDRESS env)) eqn:E; simpl.
      * by rewrite andb_false_r.
      * rewrite lookup_insert_eq. by destruct (bool_decide (x ∈ names)).
    + assert (bool_decide (n ∈ x :: names) = bool_decide (n ∈ names)) as ->.
      { apply bool_decide_ext. rewrite elem_of_cons. split; [by intros [?|?] | by right]. }
      destruct (_ && _); [done|].
      destruct (eqAddress env (getAddressForString env x) (NULL_ADDRESS env)); [done|].
      by rewrite lookup_insert_ne.
Qed.

Lemma fromRegistry_lookup (names : list string) (n : string) :
  ContractAddresses.fromRegistry env names !! n
  = if bool_decide (n ∈ names) && negb (eqAddress env (getAddressForString env n) (NULL_ADDRESS env))
    then Some (getAddressForString env n) else None.
Proof. unfold ContractAddresses.fromRegistry. by rewrite foldl_registry_lookup, lookup_empty. Qed.

Lemma foldl_insert_absent (l : list (string * Address)) (table : gmap string Address) (n : string) :
  n ∉ l.*1 → foldl (λ table entry, <[entry.1 := entry.2]> table) table l !! n = table !! n.
Proof.
  revert table. induction l as [|[k v] l IH]; intros table Hn; simpl; [done|].
  rewrite fmap_cons, not_elem_of_cons in Hn. destruct Hn as [Hne Hn]. simpl in Hne.
  rewrite IH by done. by rewrite lookup_insert_ne.
Qed.

Lemma foldl_insert_present (l : list (string * Address)) (table : gmap string Address) (n : string) (a : Address) :
  NoDup l.*1 → (n, a) ∈ l →
  foldl (λ table entry, <[entry.1 := entry.2]> table) table l !! n = Some a.
Proof.
  revert table. induction l as [|[k v] l IH]; intros table Hnd Hin; simpl.
  - by apply not_elem_of_nil in Hin.
  - rewrite fmap_cons in Hnd. apply NoDup_cons in Hnd as [Hk Hnd]. simpl in Hk.
    apply elem_of_cons in Hin as [Heq|Hin].
    + injection Heq as -> ->. rewrite foldl_insert_absent by done. apply lookup_insert_eq.
    + by apply IH.
Qed.

Lemma overlay_lookup (libraryAddresses table : gmap string Address) (n : string) :
  ContractAddresses.overlay libraryAddresses table !! n
  = match libraryAddresses !! n with
    | Some a => Some a
    | None => table !! n
    end.
Proof.
  unfold ContractAddresses.overlay. destruct (libraryAddresses !! n) as [a|] eqn:E.
  - apply foldl_insert_present; [apply NoDup_fst_map_to_list|]. by apply elem_of_map_to_list.
  - apply foldl_insert_absent. intros Hin. apply list_elem_of_fmap in Hin as [[k v] [-> Hin]].
    apply elem_of_map_to_list in Hin. simpl in E. congruence.
Qed.

(** The table [create] builds, name by name. *)
Lemma create_lookup (names : list string) (libraryAddresses : gmap string Address) (n : string) :
  ContractAddresses.create env names libraryAddresses !! n
  = match libraryAddresses !! n with
    | Some a => Some a
    | None =>
        if bool_decide (n ∈ names) && negb (eqAddress env (getAddressForString env n) (NULL_ADDRESS env))
        then Some (getAddressForString env n) else None
    end.
Proof. unfold ContractAddresses.create. by rewrite overlay_lookup, fromRegistry_lookup. Qed.

(** The lookups of [create] run concurrently; the table they build does not
    depend on the order in which they are taken. *)
Lemma create_Permutation (names names' : list string) (libraryAddresses : gmap string Address) :
  names ≡ₚ names' →
  ContractAddresses.create env names libraryAddresses
  = ContractAddresses.create env names' libraryAddresses.
Proof.
  intros Hp. apply map_eq. intros n. rewrite !create_lookup.
  assert (bool_decide (n ∈ names) = bool_decide (n ∈ names')) as ->; [|done].
  apply bool_decide_ext. by rewrite Hp.
Qed.

End AddressTable.


(** ** The deployment helpers *)

Section Deployment.

Variable env : Env.

Lemma find_is_Some {A} (f : A → bool) (l : list A) :
  is_Some (List.find f l) ↔ ∃ x, x ∈ l ∧ f x = true.
Proof.
  induction l as [|y l IH]; simpl.
  - split; [by intros [? ?] | intros (x & Hx & _); by apply not_elem_of_nil in Hx].
  - destruct (f y) eqn:E.
    + split; [intros _; exists y; split; [left|done] | eauto].
    + rewrite IH. split; intros (x & Hx & Hfx).
      * exists x. split; [by right|done].
      * apply elem_of_cons in Hx as [->|Hx]; [congruence|eauto].
Qed.

Lemma findFunction_is_Some (l : list AbiEntry) (name : string) :
  is_Some (findFunction name l) ↔ declares l name.
Proof.
  unfold findFunction, declares. rewrite find_is_Some.
  split; intros (a & Ha & H); exists a; split; try done.
  - apply andb_true_iff in H as [H1 H2].
    by apply String.eqb_eq in H1, H2.
  - destruct H as [-> ->]. by rewrite !String.eqb_refl.
Qed.

Lemma findFunction_None (l : list AbiEntry) (name : string) :
  findFunction name l = None ↔ ¬ declares l name.
Proof. rewrite <- findFunction_is_Some, eq_None_not_Some. done. Qed.

Lemma findFunction_Some (l : list AbiEntry) (name : string) (a : AbiEntry) :
  findFunction name l = Some a → a ∈ l ∧ abi_type a = "function" ∧ abi_name a = name.
Proof.
  unfold findFunction. intros H. apply find_some in H as [Hin H].
  apply andb_true_iff in H as [H1 H2]. apply String.eqb_eq in H1, H2.
  split; [by apply list_elem_of_In|done].
Qed.

Lemma shouldDeployProxy_flagged (contractName : string) (changes : Changes) :
  contracts (report env) !! contractName = Some changes →
  flagged changes →
  shouldDeployProxy (report env) contractName = Some true.
Proof.
  intros Hl Hf. unfold shouldDeployProxy. rewrite Hl. f_equal.
  destruct Hf as [Hs | (c & Hc & Ht)].
  - destruct (storage changes); [done|reflexivity].
  - apply orb_true_iff. right. apply bool_decide_eq_true_2, find_is_Some.
    exists c. split; [done|]. rewrite Ht. apply String.eqb_refl.
Qed.

Lemma shouldDeployProxy_not_flagged (contractName : string) (changes : Changes) :
  contracts (report env) !! contractName = Some changes →
  ¬ flagged changes →
  shouldDeployProxy (report env) contractName = Some false.
Proof.
  intros Hl Hf. unfold shouldDeployProxy. rewrite Hl. f_equal.
  apply orb_false_iff. split.
  - destruct (storage changes) eqn:E; [done|]. exfalso. apply Hf. left. by rewrite E.
  - apply bool_decide_eq_false_2. rewrite find_is_Some. intros (c & Hc & Ht).
    apply Hf. right. exists c. split; [done|]. by apply String.eqb_eq.
Qed.

Lemma shouldDeployProxy_Some (contractName : string) (b : bool) :
  shouldDeployProxy (report env) contractName = Some b →
  ∃ changes, contracts (report env) !! contractName = Some changes
             ∧ (if b then flagged changes else ¬ flagged changes).
Proof.
  unfold shouldDeployProxy. destruct (contracts (report env) !! contractName) as [ch|] eqn:E; [|done].
  intros [= <-]. exists ch. split; [done|].
  destruct (0 <? length (storage ch)) eqn:Es; simpl.
  - left. intros Hnil. by rewrite Hnil in Es.
  - destruct (bool_decide _) eqn:Ef.
    + apply bool_decide_eq_true_1, find_is_Some in Ef as (c & Hc & Ht).
      right. exists c. split; [done|]. by apply String.eqb_eq.
    + apply bool_decide_eq_false_1 in Ef. rewrite find_is_Some in Ef.
      intros [Hs | (c & Hc & Ht)].
      * destruct (storage ch); [done|discriminate].
      * apply Ef. exists c. split; [done|]. rewrite Ht. apply String.eqb_refl.
Qed.

Lemma instantiate_run (s : State) :
  instantiate env s = (Ok (nextAddress env s), afterInstantiate env s).
Proof. unfold instantiate, nextAddress, afterInstantiate. by destruct (dry_run env). Qed.

Lemma afterImplementation_proposal (contractName : string) (s : State) :
  proposal (afterImplementation env contractName s) = proposal s.
Proof. unfold afterImplementation, afterInstantiate. by destruct (dry_run env). Qed.

Lemma afterImplementation_addresses (contractName : string) (s : State) :
  addresses (afterImplementation env contractName s) = addresses s.
Proof. unfold afterImplementation, afterInstantiate. by destruct (dry_run env). Qed.

Lemma afterImplementation_released (contractName : string) (s : State) :
  released (afterImplementation env contractName s) = released s.
Proof. unfold afterImplementation, afterInstantiate. by destruct (dry_run env). Qed.

Lemma afterImplementation_trace (contractName : string) (s : State) :
  trace (afterImplementation env contractName s)
  = trace s ++ [EvInstance contractName (nextAddress env s)].
Proof. unfold afterImplementation, afterInstantiate. by destruct (dry_run env). Qed.

Lemma afterProxy_proposal (contractName : string) (s : State) :
  proposal (afterProxy env contractName s) = proposal s.
Proof. unfold afterProxy, afterInstantiate. by destruct (dry_run env). Qed.

Lemma proposal_with_proposal (f : list ProposalTx → list ProposalTx) (s : State) :
  proposal (with_proposal f s) = f (proposal s).
Proof. reflexivity. Qed.

Lemma proposal_afterRegistryEntry (contractName : string) (proxy : Address) (s2 : State) :
  proposal (afterRegistryEntry contractName proxy s2)
  = proposal s2 ++ [setAddressForTx contractName proxy].
Proof. reflexivity. Qed.

Lemma deployImplementation_run (contractName : string) (Contract : Artifact)
    (requireVersion : bool) (s : State) :
  deployImplementation env contractName Contract requireVersion s =
  if requireVersion && negb (bool_decide (is_Some (findFunction "getVersionNumber" (abi Contract))))
  then (Err (Thrown (noVersionMessage contractName)), afterImplementation env contractName s)
  else (Ok {| instance_abi := abi Contract; address := nextAddress env s |},
        afterImplementation env contractName s).
Proof.
  unfold deployImplementation. rewrite bind_run, instantiate_run. simpl.
  by destruct (_ && _).
Qed.

Lemma deployImplementation_versioned (contractName : string) (Contract : Artifact)
    (requireVersion : bool) (s : State) :
  declares (abi Contract) "getVersionNumber" →
  deployImplementation env contractName Contract requireVersion s =
  (Ok {| instance_abi := abi Contract; address := nextAddress env s |},
   afterImplementation env contractName s).
Proof.
  intros Hv. rewrite deployImplementation_run.
  rewrite (bool_decide_eq_true_2 _ (proj2 (findFunction_is_Some _ _) Hv)).
  by rewrite andb_false_r.
Qed.

Lemma deployImplementation_unversioned (contractName : string) (Contract : Artifact) (s : State) :
  ¬ declares (abi Contract) "getVersionNumber" →
  deployImplementation env contractName Contract true s =
  (Err (Thrown (noVersionMessage contractName)), afterImplementation env contractName s).
Proof.
  intros Hv. rewrite deployImplementation_run.
  rewrite bool_decide_eq_false_2; [done|]. by rewrite findFunction_is_Some.
Qed.

(** What [deployCoreContract] does once the implementation is there. *)
Lemma deployCoreContract_unversioned (contractName : string) (instance : Artifact) (s : State) :
  ¬ declares (abi instance) "getVersionNumber" →
  deployCoreContract env contractName instance s =
  (Err (Thrown (noVersionMessage contractName)), afterImplementation env contractName s).
Proof.
  intros Hv. unfold deployCoreContract.
  by rewrite (bind_of_Err _ _ _ _ _ (deployImplementation_unversioned _ _ _ Hv)).
Qed.

Lemma deployCoreContract_implementation_only (contractName : string) (instance : Artifact) (s : State) :
  declares (abi instance) "getVersionNumber" →
  shouldDeployProxy (report env) contractName = Some false →
  deployCoreContract env contractName instance s =
  (Ok tt, with_proposal (λ p, p ++ [setImplementationTx contractName (nextAddress env s)])
            (afterImplementation env contractName s)).
Proof.
  intros Hv Hf. unfold deployCoreContract.
  rewrite (bind_of_Ok _ _ _ _ _ (deployImplementation_versioned _ _ true _ Hv)).
  by rewrite Hf.
Qed.

Lemma deployCoreContract_governance (instance : Artifact) (s : State) :
  declares (abi instance) "getVersionNumber" →
  shouldDeployProxy (report env) "Governance" = Some true →
  deployCoreContract env "Governance" instance s =
  (Err (Thrown governanceMessage), afterImplementation env "Governance" s).
Proof.
  intros Hv Hf. unfold deployCoreContract.
  rewrite (bind_of_Ok _ _ _ _ _ (deployImplementation_versioned _ _ true _ Hv)).
  by rewrite Hf.
Qed.

Lemma deployProxy_governance (s : State) :
  deployProxy env "Governance" s = (Err (Thrown governanceMessage), s).
Proof. reflexivity. Qed.

Lemma deployProxy_run (contractName : string) (s : State) :
  contractName ≠ "Governance" →
  deployProxy env contractName s =
  match artifacts_require env (contractName +:+ "Proxy") with
  | None => (Err (ArtifactNotFound (contractName +:+ "Proxy")), s)
  | Some Proxy =>
      if dry_run env || bool_decide (is_Some (addresses s !! "Governance"))
      then (Ok {| instance_abi := abi Proxy; address := nextAddress env s |},
            afterProxy env contractName s)
      else (Err (Thrown "Unable to find address for Governance"), afterProxy env contractName s)
  end.
Proof.
  intros Hne. unfold deployProxy. rewrite bool_decide_eq_false_2 by done.
  unfold require. destruct (artifacts_require env (contractName +:+ "Proxy")) as [P|]; [|done].
  rewrite bind_run. unfold ret at 1. rewrite bind_run, instantiate_run.
  unfold afterProxy, nextAddress, afterInstantiate, emit, ContractAddresses.get, bind, ret.
  destruct (dry_run env); simpl; [done|].
  destruct (addresses s !! "Governance"); simpl; [|done].
  unfold with_trace; simpl. by rewrite <- app_assoc.
Qed.

Lemma deployProxy_Ok (contractName : string) (s s2 : State) (proxy : ContractInstance) :
  deployProxy env contractName s = (Ok proxy, s2) →
  contractName ≠ "Governance" ∧ address proxy = nextAddress env s ∧ s2 = afterProxy env contractName s.
Proof.
  destruct (decide (contractName = "Governance")) as [->|Hne].
  - by rewrite deployProxy_governance.
  - rewrite deployProxy_run by done.
    destruct (artifacts_require env _); [|done]. destruct (_ || _); [|done].
    by intros [= <- <-].
Qed.

Lemma deployCoreContract_new_proxy (contractName : string) (instance : Artifact)
    (s s2 : State) (proxy : ContractInstance) :
  declares (abi instance) "getVersionNumber" →
  shouldDeployProxy (report env) contractName = Some true →
  deployProxy env contractName (afterImplementation env contractName s) = (Ok proxy, s2) →
  deployCoreContract env contractName instance s =
  match findFunction "initialize" (abi instance) with
  | Some initializeAbi =>
      match encodeFunctionCall env initializeAbi (initializationData env !! contractName) with
      | Some callData =>
          (Ok tt, with_proposal
                    (λ p, p ++ [setAndInitialize
                                  (setImplementationTx contractName (nextAddress env s)) callData])
                    (afterRegistryEntry contractName (address proxy) s2))
      | None =>
          (Err (InitializeEncodingError contractName (initializationData env !! contractName)
                  (abi_inputs initializeAbi)),
           afterRegistryEntry contractName (address proxy) s2)
      end
  | None =>
      (Ok tt, with_proposal (λ p, p ++ [setImplementationTx contractName (nextAddress env s)])
                (afterRegistryEntry contractName (address proxy) s2))
  end.
Proof.
  intros Hv Hf Hp. unfold deployCoreContract.
  rewrite (bind_of_Ok _ _ _ _ _ (deployImplementation_versioned _ _ true _ Hv)).
  rewrite Hf. rewrite (bind_of_Ok _ _ _ _ _ Hp). simpl instance_abi.
  unfold ContractAddresses.set, push, bind, ret, throw, afterRegistryEntry.
  destruct (findFunction "initialize" (abi instance)) as [ini|]; [|done].
  by destruct (encodeFunctionCall env ini _).
Qed.

Lemma deployCoreContract_proxy_fails (contractName : string) (instance : Artifact)
    (s s2 : State) (e : Error) :
  declares (abi instance) "getVersionNumber" →
  shouldDeployProxy (report env) contractName = Some true →
  deployProxy env contractName (afterImplementation env contractName s) = (Err e, s2) →
  deployCoreContract env contractName instance s = (Err e, s2).
Proof.
  intros Hv Hf Hp. unfold deployCoreContract.
  rewrite (bind_of_Ok _ _ _ _ _ (deployImplementation_versioned _ _ true _ Hv)).
  rewrite Hf. by rewrite (bind_of_Err _ _ _ _ _ Hp).
Qed.

Lemma deployCoreContract_no_entry (contractName : string) (instance : Artifact) (s : State) :
  declares (abi instance) "getVersionNumber" →
  shouldDeployProxy (report env) contractName = None →
  deployCoreContract env contractName instance s =
  (Err (TypeError "changes"), afterImplementation env contractName s).
Proof.
  intros Hv Hf. unfold deployCoreContract.
  rewrite (bind_of_Ok _ _ _ _ _ (deployImplementation_versioned _ _ true _ Hv)).
  by rewrite Hf.
Qed.

(** A successful [deployCoreContract], read backwards. *)
Lemma deployCoreContract_Ok (contractName : string) (instance : Artifact) (s s' : State) :
  deployCoreContract env contractName instance s = (Ok tt, s') →
  declares (abi instance) "getVersionNumber" ∧
  ((shouldDeployProxy (report env) contractName = Some false
    ∧ s' = with_proposal (λ p, p ++ [setImplementationTx contractName (nextAddress env s)])
             (afterImplementation env contractName s))
   ∨ (shouldDeployProxy (report env) contractName = Some true
      ∧ contractName ≠ "Governance"
      ∧ ∃ tx, s' = with_proposal (λ p, p ++ [tx])
                     (afterRegistryEntry contractName
                        (nextAddress env (afterImplementation env contractName s))
                        (afterProxy env contractName (afterImplementation env contractName s)))
              ∧ match findFunction "initialize" (abi instance) with
                | Some initializeAbi =>
                    ∃ callData,
                      encodeFunctionCall env initializeAbi (initializationData env !! contractName)
                      = Some callData
                      ∧ tx = setAndInitialize
                               (setImplementationTx contractName (nextAddress env s)) callData
                | None => tx = setImplementationTx contractName (nextAddress env s)
                end)).
Proof.
  intros Hrun.
  destruct (findFunction "getVersionNumber" (abi instance)) as [v|] eqn:Hv; cycle 1.
  { apply findFunction_None in Hv. by rewrite deployCoreContract_unversioned in Hrun. }
  apply mk_is_Some, findFunction_is_Some in Hv.
  split; [done|].
  destruct (shouldDeployProxy (report env) contractName) as [[|]|] eqn:Hf.
  - right. split; [done|].
    destruct (deployProxy env contractName (afterImplementation env contractName s))
      as [[proxy|e|] s2] eqn:Hp.
    + rewrite (deployCoreContract_new_proxy _ _ _ _ _ Hv Hf Hp) in Hrun.
      apply deployProxy_Ok in Hp as (Hne & Ha & ->). rewrite Ha in Hrun. split; [done|].
      destruct (findFunction "initialize" (abi instance)) as [ini|].
      * destruct (encodeFunctionCall env ini _) as [cd|] eqn:Hcd; [|done].
        injection Hrun as <-. eauto.
      * injection Hrun as <-. eauto.
    + by rewrite (deployCoreContract_proxy_fails _ _ _ _ _ Hv Hf Hp) in Hrun.
    + exfalso. destruct (decide (contractName = "Governance")) as [->|Hne].
      * by rewrite deployProxy_governance in Hp.
      * rewrite deployProxy_run in Hp by done.
        destruct (artifacts_require env _); [|done]. by destruct (_ || _).
  - left. rewrite deployCoreContract_implementation_only in Hrun by done.
    by injection Hrun as <-.
  - by rewrite deployCoreContract_no_entry in Hrun.
Qed.

End Deployment.

(** ** Claims about the address table and the deployment helpers *)

(** C8.  [get] returns the stored address when the table has an entry for
    the name and throws otherwise: an absent name never yields an address,
    be it a default or the zero address. The table is left as it was. *)
Theorem C8_get_stored_or_throws (contract : string) (s : State) :
  (ContractAddresses.get contract s).2 = s ∧
  match addresses s !! contract with
  | Some a => (ContractAddresses.get contract s).1 = Ok a
  | None => (ContractAddresses.get contract s).1
            = Err (Thrown ("Unable to find address for " +:+ contract))
  end.
Proof.
  unfold ContractAddresses.get. by destruct (addresses s !! contract).
Qed.

Lemma C8_get_witness :
  (ContractAddresses.get "Exchange" (initial (Demo.world Demo.upgradeReport false))).1 = Ok "0xE0"
  ∧ (ContractAddresses.get "StableTokenGBP" (initial (Demo.world Demo.upgradeReport false))).1
    = Err (Thrown "Unable to find address for StableTokenGBP").
Proof.
  split.
  - exact (proj2 (C8_get_stored_or_throws "Exchange" (initial (Demo.world Demo.upgradeReport false)))).
  - exact (proj2 (C8_get_stored_or_throws "StableTokenGBP" (initial (Demo.world Demo.upgradeReport false)))).
Defined.

(** C9.  When the ABI of the deployed contract declares no function
    [getVersionNumber], deploying it as a core contract throws an error whose
    message names the contract; deploying it as a library succeeds all the
    same and stores the new address. *)
Theorem C9_version_number_required (env : Env) (contractName : string)
    (artifact : Artifact) (s : State) :
  ¬ declares (abi artifact) "getVersionNumber" →
  (deployImplementation env contractName artifact true s).1
  = Err (Thrown ("Contract " +:+ contractName
                 +:+ " has changes but does not specify a version number"))
  ∧ (deployCoreContract env contractName artifact s).1
    = Err (Thrown ("Contract " +:+ contractName
                   +:+ " has changes but does not specify a version number"))
  ∧ deployLibrary env contractName artifact s
    = (Ok tt, with_addresses (λ table, <[contractName := nextAddress env s]> table)
                (afterImplementation env contractName s)).
Proof.
  intros Hv. split; [|split].
  - by rewrite deployImplementation_unversioned.
  - by rewrite deployCoreContract_unversioned.
  - unfold deployLibrary. rewrite bind_run, deployImplementation_run. done.
Qed.

Lemma C9_version_number_witness :
  (deployCoreContract (Demo.world Demo.upgradeReport false) "Signatures"
     Demo.libraryArtifact Demo.empty).1
  = Err (Thrown "Contract Signatures has changes but does not specify a version number")
  ∧ (deployLibrary (Demo.world Demo.upgradeReport false) "Signatures"
       Demo.libraryArtifact Demo.empty).1 = Ok tt.
Proof.
  assert (¬ declares (abi Demo.libraryArtifact) "getVersionNumber") as Hv.
  { apply findFunction_None. reflexivity. }
  destruct (C9_version_number_required (Demo.world Demo.upgradeReport false) "Signatures"
              Demo.libraryArtifact Demo.empty Hv) as (_ & Hcore & Hlib).
  split; [exact Hcore | by rewrite Hlib].
Defined.

(** C7 (as amended).  Seeding.  A listed name whose registered address is
    not the null address has an entry, and it holds that address unless the
    library mapping names it; a name whose registered address is the null
    address has no entry unless the library mapping names it; a name of the
    library mapping holds the mapping's address, whatever the registry
    said. *)
Theorem C7_seeding (env : Env) (names : list string)
    (libraryAddresses : gmap string Address) (n : string) :
  (n ∈ names →
   eqAddress env (getAddressForString env n) (NULL_ADDRESS env) = false →
   is_Some (ContractAddresses.create env names libraryAddresses !! n)
   ∧ (libraryAddresses !! n = None →
      ContractAddresses.create env names libraryAddresses !! n
      = Some (getAddressForString env n)))
  ∧ (eqAddress env (getAddressForString env n) (NULL_ADDRESS env) = true →
     libraryAddresses !! n = None →
     ContractAddresses.create env names libraryAddresses !! n = None)
  ∧ (∀ a, libraryAddresses !! n = Some a →
          ContractAddresses.create env names libraryAddresses !! n = Some a).
Proof.
  rewrite create_lookup. split; [|split].
  - intros Hin Hnz. rewrite bool_decide_eq_true_2 by done. rewrite Hnz. simpl.
    split; [by destruct (libraryAddresses !! n) | by intros ->].
  - intros -> ->. by rewrite andb_false_r.
  - by intros a ->.
Qed.

Lemma C7_seeding_witness :
  addresses (initial (Demo.world Demo.upgradeReport false)) !! "Exchange" = Some "0xE0"
  ∧ addresses (initial (Demo.world Demo.upgradeReport false)) !! "StableTokenGBP" = None
  ∧ addresses (initial (Demo.world Demo.upgradeReport false)) !! "Signatures" = Some "0xA2".
Proof.
  set (w := Demo.world Demo.upgradeReport false).
  change (addresses (initial w))
    with (ContractAddresses.create w (env_contracts w) (libraryMapping w)).
  split; [|split].
  - destruct (C7_seeding w (env_contracts w) (libraryMapping w) "Exchange") as (Hreg & _ & _).
    destruct Hreg as [_ Hreg]; [by left | reflexivity |]. apply Hreg. reflexivity.
  - destruct (C7_seeding w (env_contracts w) (libraryMapping w) "StableTokenGBP")
      as (_ & Hnull & _).
    apply Hnull; reflexivity.
  - destruct (C7_seeding w (env_contracts w) (libraryMapping w) "Signatures") as (_ & _ & Hlib).
    apply Hlib. reflexivity.
Defined.

(** C7 as stated fails: the registry reports the null address for the listed
    name Signatures, and yet the table has an entry for it, the one of the
    library mapping. *)
Lemma C7_counterexample_null_address_present :
  "Signatures" ∈ env_contracts (Demo.world Demo.upgradeReport false)
  ∧ getAddressForString (Demo.world Demo.upgradeReport false) "Signatures"
    = NULL_ADDRESS (Demo.world Demo.upgradeReport false)
  ∧ eqAddress (Demo.world Demo.upgradeReport false)
      (getAddressForString (Demo.world Demo.upgradeReport false) "Signatures")
      (NULL_ADDRESS (Demo.world Demo.upgradeReport false)) = true
  ∧ addresses (initial (Demo.world Demo.upgradeReport false)) !! "Signatures" = Some "0xA2".
Proof.
  split; [|split; [|split]]; try reflexivity.
  apply list_elem_of_In. simpl. tauto.
Qed.

(** ** Relations every step of the script respects *)

Section Frame.

Variable env : Env.
Variable R : State → State → Prop.
Variable u : string.

Hypothesis R_refl : ∀ s, R s s.
Hypothesis R_trans : ∀ s1 s2 s3, R s1 s2 → R s2 s3 → R s1 s3.
Hypothesis R_addresses : ∀ s f, R s (with_addresses f s).
Hypothesis R_proposal : ∀ s f, R s (with_proposal f s).
Hypothesis R_deployed : ∀ s f, R s (with_deployed f s).
Hypothesis R_event :
  ∀ s e, unit_of e = u → (∀ n, e ≠ EvReleased n) → R s (with_trace (λ t, t ++ [e]) s).
Hypothesis R_mark : ∀ s, R s (markReleased u s).2.

Lemma preserves_ret {A} (a : A) : preserves R (ret a).
Proof. intros s. apply R_refl. Qed.

Lemma preserves_throw {A} (e : Error) : preserves R (throw (A := A) e).
Proof. intros s. apply R_refl. Qed.

Lemma preserves_bind {A B} (m : M A) (k : A → M B) :
  preserves R m → (∀ a, preserves R (k a)) → preserves R (bind m k).
Proof.
  intros Hm Hk s. rewrite bind_run. specialize (Hm s).
  destruct (m s) as [[a|e|] s1]; simpl in *; [|done..].
  eapply R_trans; [exact Hm | apply Hk].
Qed.

Lemma preserves_forEach {A} (f : A → M unit) (l : list A) :
  (∀ x, x ∈ l → preserves R (f x)) → preserves R (forEach f l).
Proof.
  induction l as [|x l IH]; intros Hf; simpl.
  - apply preserves_ret.
  - apply preserves_bind; [apply Hf; left | intros _; apply IH].
    intros y Hy. apply Hf. by right.
Qed.

Lemma preserves_get (c : string) : preserves R (ContractAddresses.get c).
Proof. intros s. unfold ContractAddresses.get. destruct (addresses s !! c); apply R_refl. Qed.

Lemma preserves_set (c : string) (a : Address) : preserves R (ContractAddresses.set c a).
Proof. intros s. apply R_addresses. Qed.

Lemma preserves_push (tx : ProposalTx) : preserves R (push tx).
Proof. intros s. apply R_proposal. Qed.

Lemma preserves_emit (e : Event) :
  unit_of e = u → (∀ n, e ≠ EvReleased n) → preserves R (emit e).
Proof. intros He Hn s. by apply R_event. Qed.

Lemma preserves_instantiate : preserves R (instantiate env).
Proof.
  intros s. unfold instantiate. destruct (dry_run env); [apply R_refl | apply R_deployed].
Qed.

Lemma preserves_require (name : string) : preserves R (require env name).
Proof.
  unfold require. destruct (artifacts_require env name); [apply preserves_ret | apply preserves_throw].
Qed.

Lemma preserves_deployImplementation (Contract : Artifact) (requireVersion : bool) :
  preserves R (deployImplementation env u Contract requireVersion).
Proof.
  unfold deployImplementation.
  apply preserves_bind; [apply preserves_instantiate | intros a].
  apply preserves_bind; [by apply preserves_emit | intros _].
  destruct (_ && _); [apply preserves_throw | apply preserves_ret].
Qed.

Lemma preserves_deployProxy : preserves R (deployProxy env u).
Proof.
  unfold deployProxy. destruct (bool_decide _); [apply preserves_throw|].
  apply preserves_bind; [apply preserves_require | intros P].
  apply preserves_bind; [apply preserves_instantiate | intros a].
  apply preserves_bind; [by apply preserves_emit | intros _].
  apply preserves_bind; [|intros _; apply preserves_ret].
  destruct (dry_run env); [apply preserves_ret|].
  apply preserves_bind; [apply preserves_get | intros g]. by apply preserves_emit.
Qed.

Lemma preserves_deployCoreContract (instance : Artifact) :
  preserves R (deployCoreContract env u instance).
Proof.
  unfold deployCoreContract.
  apply preserves_bind; [apply preserves_deployImplementation | intros c].
  destruct (shouldDeployProxy _ _) as [[|]|]; [|apply preserves_push|apply preserves_throw].
  apply preserves_bind; [apply preserves_deployProxy | intros proxy].
  apply preserves_bind; [apply preserves_set | intros _].
  apply preserves_bind; [apply preserves_push | intros _].
  apply preserves_bind; [|intros tx; apply preserves_push].
  destruct (findFunction _ _) as [ini|]; [|apply preserves_ret].
  destruct (encodeFunctionCall _ _ _); [apply preserves_ret | apply preserves_throw].
Qed.

Lemma preserves_deployLibrary (contractArtifact : Artifact) :
  preserves R (deployLibrary env u contractArtifact).
Proof.
  unfold deployLibrary.
  apply preserves_bind; [apply preserves_deployImplementation | intros c].
  apply preserves_set.
Qed.

Lemma preserves_link (contractDependencies : list string) :
  preserves R (link u contractDependencies).
Proof.
  unfold link. apply preserves_forEach. intros d _.
  apply preserves_bind; [apply preserves_get | intros a]. by apply preserves_emit.
Qed.

Lemma preserves_markReleased : preserves R (markReleased u).
Proof. intros s. apply R_mark. Qed.

(** The steps of [release] for a name the report lists as no core contract. *)
Lemma preserves_releaseSteps_other :
  contracts (report env) !! u = None → preserves R (releaseSteps env u).
Proof.
  intros Hc. unfold releaseSteps.
  apply preserves_bind; [apply preserves_require | intros art].
  apply preserves_bind; [apply preserves_link | intros _].
  apply preserves_bind; [|intros _; apply preserves_markReleased].
  rewrite Hc. rewrite bool_decide_eq_false_2 by (by intros [? ?]).
  destruct (bool_decide _); [apply preserves_deployLibrary | apply preserves_ret].
Qed.

Lemma preserves_releaseSteps : preserves R (releaseSteps env u).
Proof.
  unfold releaseSteps.
  apply preserves_bind; [apply preserves_require | intros art].
  apply preserves_bind; [apply preserves_link | intros _].
  apply preserves_bind; [|intros _; apply preserves_markReleased].
  destruct (bool_decide _); [apply preserves_deployCoreContract|].
  destruct (bool_decide _); [apply preserves_deployLibrary | apply preserves_ret].
Qed.

End Frame.

(** ** The traversal *)

Section Traversal.

Variable env : Env.

Lemma release_unfold (fuel : nat) (contractName : string) (s : State) :
  release env (S fuel) contractName s =
  if bool_decide (contractName ∈ released s) then (Ok tt, s)
  else bind (forEach (release env fuel) (dependencies_get env contractName))
            (λ _, releaseSteps env contractName) s.
Proof. reflexivity. Qed.

Lemma require_run (name : string) (s : State) :
  require env name s =
  match artifacts_require env name with
  | Some artifact => (Ok artifact, s)
  | None => (Err (ArtifactNotFound name), s)
  end.
Proof. unfold require. by destruct (artifacts_require env name). Qed.

(** *** The released set only grows *)

Lemma grows_refl (s : State) : grows s s.
Proof. by unfold grows. Qed.

Lemma grows_trans (s1 s2 s3 : State) : grows s1 s2 → grows s2 s3 → grows s1 s3.
Proof. unfold grows. intros ? ?. by etrans. Qed.

Lemma releaseSteps_grows (contractName : string) :
  preserves grows (releaseSteps env contractName).
Proof.
  apply preserves_releaseSteps;
    [apply grows_refl | apply grows_trans | by unfold grows.. | ].
  intros s. unfold grows. simpl. set_solver.
Qed.

Lemma release_grows (fuel : nat) (contractName : string) :
  preserves grows (release env fuel contractName).
Proof.
  revert contractName. induction fuel as [|fuel IH]; intros contractName s.
  - apply grows_refl.
  - rewrite release_unfold. case_bool_decide; [apply grows_refl|].
    apply (preserves_bind grows grows_trans).
    + apply (preserves_forEach grows grows_refl grows_trans). intros d _. apply IH.
    + intros _. apply releaseSteps_grows.
Qed.

Lemma forEach_release_grows (fuel : nat) (l : list string) :
  preserves grows (forEach (release env fuel) l).
Proof.
  apply (preserves_forEach grows grows_refl grows_trans).
  intros d _. apply release_grows.
Qed.

(** *** A release that returns has marked the name *)

Lemma releaseSteps_Ok_released (contractName : string) (s s' : State) :
  releaseSteps env contractName s = (Ok tt, s') → contractName ∈ released s'.
Proof.
  unfold releaseSteps. intros H.
  apply bind_Ok in H as (art & s1 & _ & H).
  apply bind_Ok in H as (? & s2 & _ & H).
  apply bind_Ok in H as (? & s3 & _ & H).
  unfold markReleased in H. injection H as <-. simpl. set_solver.
Qed.

Lemma release_Ok_released (fuel : nat) (contractName : string) (s s' : State) :
  release env fuel contractName s = (Ok tt, s') → contractName ∈ released s'.
Proof.
  destruct fuel as [|fuel]; [done|]. rewrite release_unfold.
  case_bool_decide as Hin.
  - by intros [= <-].
  - intros H. apply bind_Ok in H as (? & s1 & _ & H). by eapply releaseSteps_Ok_released.
Qed.

Lemma forEach_release_Ok (fuel : nat) (l : list string) (s s' : State) :
  forEach (release env fuel) l s = (Ok tt, s') → ∀ d, d ∈ l → d ∈ released s'.
Proof.
  revert s. induction l as [|x l IH]; intros s H d Hd.
  - by apply not_elem_of_nil in Hd.
  - simpl in H. apply bind_Ok in H as ([] & s1 & Hx & Hl).
    apply elem_of_cons in Hd as [->|Hd]; [|by eapply IH].
    apply release_Ok_released in Hx.
    pose proof (forEach_release_grows fuel l s1) as Hg. rewrite Hl in Hg.
    by apply Hg.
Qed.

(** *** The trace stays ordered *)

Lemma ordered_split (tr : list Event) :
  ordered env tr →
  ∀ before e after, tr = before ++ e :: after → ready env before (unit_of e).
Proof.
  induction 1 as [|tr e0 Hord IH Hready]; intros before e after Heq.
  - by destruct before.
  - destruct after as [|x after _] using rev_ind.
    + apply app_inj_tail in Heq as [-> ->]. done.
    + rewrite app_comm_cons, app_assoc in Heq. apply app_inj_tail in Heq as [Heq _].
      by eapply IH.
Qed.

Lemma ready_app (tr tr' : list Event) (u : string) :
  ready env tr u → ready env (tr ++ tr') u.
Proof. intros H d Hd. apply elem_of_app. left. by apply H. Qed.

Lemma working_event (u : string) (s : State) (e : Event) :
  unit_of e = u → (∀ n, e ≠ EvReleased n) →
  working env u s (with_trace (λ t, t ++ [e]) s).
Proof.
  intros He Hn [[Hord Hacc] Hready]. simpl. split; [split|].
  - apply ordered_snoc; [done|]. by rewrite He.
  - intros v. simpl. rewrite Hacc, elem_of_app, list_elem_of_singleton. split; [by left|].
    intros [Hv|Hv]; [done|]. by destruct (Hn v).
  - by apply ready_app.
Qed.

Lemma working_mark (u : string) (s : State) : working env u s (markReleased u s).2.
Proof.
  intros [[Hord Hacc] Hready]. simpl. split; [split|].
  - by apply ordered_snoc.
  - intros v. simpl. rewrite elem_of_union, elem_of_singleton, Hacc, elem_of_app,
      list_elem_of_singleton.
    split; intros [Hv|Hv]; auto; [right; by rewrite Hv | left; by injection Hv].
  - by apply ready_app.
Qed.

Lemma working_trans (u : string) (s1 s2 s3 : State) :
  working env u s1 s2 → working env u s2 s3 → working env u s1 s3.
Proof. intros H12 H23 H. by apply H23, H12. Qed.

Lemma releaseSteps_working (u : string) : preserves (working env u) (releaseSteps env u).
Proof.
  apply preserves_releaseSteps;
    [by intros ? ? | apply working_trans | by intros ? ? ? | by intros ? ? ? | by intros ? ? ?
    | | apply working_mark].
  intros s e He Hn. by apply working_event.
Qed.

Lemma stays_refl (s : State) : stays env s s.
Proof. by intros ?. Qed.

Lemma stays_trans (s1 s2 s3 : State) : stays env s1 s2 → stays env s2 s3 → stays env s1 s3.
Proof. intros H12 H23 H. by apply H23, H12. Qed.

Lemma release_consistent (fuel : nat) (contractName : string) :
  preserves (stays env) (release env fuel contractName).
Proof.
  revert contractName. induction fuel as [|fuel IH]; intros contractName s.
  - apply stays_refl.
  - rewrite release_unfold. case_bool_decide as Hin; [apply stays_refl|].
    intros Hs. rewrite bind_run.
    pose proof (preserves_forEach (stays env) stays_refl stays_trans (release env fuel)
                  (dependencies_get env contractName) (λ d _, IH d) s Hs) as Hs1.
    destruct (forEach (release env fuel) (dependencies_get env contractName) s)
      as [[[]|e|] s1] eqn:Hdeps; simpl in Hs1; [|done..].
    apply (releaseSteps_working contractName s1). split; [done|].
    intros d Hd. apply Hs1. by eapply forEach_release_Ok.
Qed.

End Traversal.


(** ** Termination *)

Section Totality.

Variable env : Env.

Lemma total_ret {A} (a : A) : total (ret a).
Proof. by intros s. Qed.

Lemma total_throw {A} (e : Error) : total (throw (A := A) e).
Proof. by intros s. Qed.

Lemma total_bind {A B} (m : M A) (k : A → M B) :
  total m → (∀ a, total (k a)) → total (bind m k).
Proof.
  intros Hm Hk s. rewrite bind_run. specialize (Hm s).
  destruct (m s) as [[a|e|] s1]; simpl in *; [apply Hk | done..].
Qed.

Lemma total_forEach {A} (f : A → M unit) (l : list A) :
  (∀ x, x ∈ l → total (f x)) → total (forEach f l).
Proof.
  induction l as [|x l IH]; intros Hf; simpl.
  - apply total_ret.
  - apply total_bind; [apply Hf; left | intros _; apply IH].
    intros y Hy. apply Hf. by right.
Qed.

Lemma total_get (c : string) : total (ContractAddresses.get c).
Proof. intros s. unfold ContractAddresses.get. by destruct (addresses s !! c). Qed.

Lemma total_instantiate : total (instantiate env).
Proof. intros s. by rewrite instantiate_run. Qed.

Lemma total_require (name : string) : total (require env name).
Proof. intros s. rewrite require_run. by destruct (artifacts_require env name). Qed.

Lemma total_deployImplementation (name : string) (Contract : Artifact) (requireVersion : bool) :
  total (deployImplementation env name Contract requireVersion).
Proof. intros s. rewrite deployImplementation_run. by destruct (_ && _). Qed.

Lemma total_deployProxy (name : string) : total (deployProxy env name).
Proof.
  intros s. destruct (decide (name = "Governance")) as [->|Hne]; [done|].
  rewrite deployProxy_run by done.
  destruct (artifacts_require env _); [|done]. by destruct (_ || _).
Qed.

Lemma total_deployCoreContract (name : string) (instance : Artifact) :
  total (deployCoreContract env name instance).
Proof.
  unfold deployCoreContract.
  apply total_bind; [apply total_deployImplementation | intros c].
  destruct (shouldDeployProxy _ _) as [[|]|]; [|done..].
  apply total_bind; [apply total_deployProxy | intros proxy].
  apply total_bind; [done | intros _]. apply total_bind; [done | intros _].
  apply total_bind; [|done].
  destruct (findFunction _ _) as [ini|]; [|done]. by destruct (encodeFunctionCall _ _ _).
Qed.

Lemma total_deployLibrary (name : string) (contractArtifact : Artifact) :
  total (deployLibrary env name contractArtifact).
Proof.
  unfold deployLibrary. apply total_bind; [apply total_deployImplementation | done].
Qed.

Lemma total_link (name : string) (contractDependencies : list string) :
  total (link name contractDependencies).
Proof.
  unfold link. apply total_forEach. intros d _.
  apply total_bind; [apply total_get | done].
Qed.

Lemma total_releaseSteps (name : string) : total (releaseSteps env name).
Proof.
  unfold releaseSteps.
  apply total_bind; [apply total_require | intros art].
  apply total_bind; [apply total_link | intros _].
  apply total_bind; [|done].
  destruct (bool_decide _); [apply total_deployCoreContract|].
  destruct (bool_decide _); [apply total_deployLibrary | apply total_ret].
Qed.

(** With a dependency graph along which some rank decreases, a budget
    above the rank of the name is enough. *)
Lemma release_total (rank : string → nat) :
  (∀ u d, d ∈ dependencies_get env u → rank d < rank u) →
  ∀ fuel contractName, rank contractName < fuel → total (release env fuel contractName).
Proof.
  intros Hrank fuel. induction fuel as [|fuel IH]; intros contractName Hlt s; [lia|].
  rewrite release_unfold. case_bool_decide; [done|].
  apply total_bind; [|intros _; apply total_releaseSteps].
  apply total_forEach. intros d Hd. apply IH. specialize (Hrank _ _ Hd). lia.
Qed.

End Totality.

(** ** Releases that append nothing *)

Section Appends.

Variable env : Env.

Lemma appendsNothing_refl (s : State) : appendsNothing s s.
Proof. by split. Qed.

Lemma appendsNothing_trans (s1 s2 s3 : State) :
  appendsNothing s1 s2 → appendsNothing s2 s3 → appendsNothing s1 s3.
Proof. intros [Hp1 Hr1] [Hp2 Hr2]. split; [congruence | by etrans]. Qed.

Lemma releaseSteps_other_appendsNothing (contractName : string) :
  contracts (report env) !! contractName = None →
  preserves appendsNothing (releaseSteps env contractName).
Proof.
  intros Hc. apply preserves_releaseSteps_other;
    [apply appendsNothing_refl | apply appendsNothing_trans | (by intros; split).. | | done].
  intros s. split; simpl; [done | set_solver].
Qed.

(** A release that can only reach names whose own steps append nothing
    appends nothing. *)
Lemma release_appendsNothing (harmless : string → Prop) :
  (∀ n, harmless n → preserves appendsNothing (releaseSteps env n)) →
  ∀ fuel contractName,
    (∀ n, dependsOn env contractName n → harmless n) →
    preserves appendsNothing (release env fuel contractName).
Proof.
  intros Hsteps fuel. induction fuel as [|fuel IH]; intros contractName Hreach s.
  - apply appendsNothing_refl.
  - rewrite release_unfold. case_bool_decide; [apply appendsNothing_refl|].
    apply (preserves_bind appendsNothing appendsNothing_trans).
    + apply (preserves_forEach appendsNothing appendsNothing_refl appendsNothing_trans).
      intros d Hd. apply IH. intros n Hn. apply Hreach. by eapply dependsOn_step.
    + intros _. apply Hsteps, Hreach, dependsOn_refl.
Qed.

(** Releasing names none of which is a core contract of the report appends
    nothing. *)
Lemma forEach_release_appendsNothing (fuel : nat) (l : list string) :
  (∀ d n, d ∈ l → dependsOn env d n → contracts (report env) !! n = None) →
  preserves appendsNothing (forEach (release env fuel) l).
Proof.
  intros Hreach.
  apply (preserves_forEach appendsNothing appendsNothing_refl appendsNothing_trans).
  intros d Hd.
  apply (release_appendsNothing (λ n, contracts (report env) !! n = None)).
  - intros n Hn. by apply releaseSteps_other_appendsNothing.
  - intros n Hn. by eapply Hreach.
Qed.

End Appends.

(** ** Governance with a flagged report entry *)

Section Governance.

Variable env : Env.

Hypothesis governance_flagged : shouldDeployProxy (report env) "Governance" = Some true.

Lemma deployCoreContract_governance_flagged (instance : Artifact) (s : State) :
  ∃ e, deployCoreContract env "Governance" instance s
       = (Err e, afterImplementation env "Governance" s)
       ∧ (declares (abi instance) "getVersionNumber" → e = Thrown governanceMessage).
Proof.
  destruct (findFunction "getVersionNumber" (abi instance)) as [v|] eqn:Hv.
  - apply mk_is_Some, findFunction_is_Some in Hv.
    exists (Thrown governanceMessage). split; [|done].
    by apply deployCoreContract_governance.
  - apply findFunction_None in Hv. exists (Thrown (noVersionMessage "Governance")).
    split; [by apply deployCoreContract_unversioned | done].
Qed.

(** The steps of [release] for Governance: an error, nothing appended. *)
Lemma releaseSteps_governance (s : State) :
  (∃ e, (releaseSteps env "Governance" s).1 = Err e)
  ∧ appendsNothing s (releaseSteps env "Governance" s).2.
Proof.
  unfold releaseSteps. rewrite bind_run, require_run.
  destruct (artifacts_require env "Governance") as [art|]; [|split; [eauto | apply appendsNothing_refl]].
  rewrite bind_run.
  pose proof (preserves_link appendsNothing "Governance" appendsNothing_refl
                appendsNothing_trans (λ s e _ _, conj eq_refl (reflexivity _))
                (dependencies_get env "Governance") s) as Hlink.
  pose proof (total_link "Governance" (dependencies_get env "Governance") s) as Htot.
  destruct (link "Governance" (dependencies_get env "Governance") s) as [[[]|e|] s1];
    simpl in *; [|split; [eauto|done] | done].
  rewrite bool_decide_eq_true_2; cycle 1.
  { apply shouldDeployProxy_Some in governance_flagged as (ch & Hch & _). by rewrite Hch. }
  rewrite bind_run.
  destruct (deployCoreContract_governance_flagged art s1) as (e & -> & _).
  split; [eauto|]. eapply appendsNothing_trans; [exact Hlink|].
  split; [exact (afterImplementation_proposal _ _ _)|].
  change (released s1 ⊆ released (afterImplementation env "Governance" s1)).
  by rewrite afterImplementation_released.
Qed.

Lemma release_governance_not_Ok (fuel : nat) (s : State) :
  "Governance" ∉ released s → (release env fuel "Governance" s).1 ≠ Ok tt.
Proof.
  intros Hnot. destruct fuel as [|fuel]; [done|].
  rewrite release_unfold, bool_decide_eq_false_2 by done. rewrite bind_run.
  destruct (forEach _ _ s) as [[[]|e|] s1]; [|done..].
  destruct (releaseSteps_governance s1) as [[e He] _]. by rewrite He.
Qed.

Lemma release_governance_appendsNothing (fuel : nat) :
  (∀ n, dependsOn env "Governance" n → n ≠ "Governance" →
        contracts (report env) !! n = None) →
  preserves appendsNothing (release env fuel "Governance").
Proof.
  intros Hreach.
  apply (release_appendsNothing env (λ n, n = "Governance" ∨ contracts (report env) !! n = None)).
  - intros n [->|Hn] s; [apply releaseSteps_governance|].
    by apply releaseSteps_other_appendsNothing.
  - intros n Hn. destruct (decide (n = "Governance")); [by left | right; by apply Hreach].
Qed.

End Governance.

(** ** Claims about the deployment decision *)

Section Decision.

Variable env : Env.

(** The entries a successful [deployCoreContract] appends, by the shape of
    the report entry. *)
Lemma deployCoreContract_entries (contractName : string) (instance : Artifact)
    (changes : Changes) (s s' : State) :
  contracts (report env) !! contractName = Some changes →
  deployCoreContract env contractName instance s = (Ok tt, s') →
  (¬ flagged changes →
   proposal s' = proposal s ++ [setImplementationTx contractName (nextAddress env s)])
  ∧ (flagged changes →
     ∃ proxy tx,
       proposal s' = proposal s ++ [setAddressForTx contractName proxy; tx]
       ∧ (tx = setImplementationTx contractName (nextAddress env s)
          ∨ ∃ callData, tx = setAndInitialize
                               (setImplementationTx contractName (nextAddress env s)) callData)).
Proof.
  intros Hc Hrun. apply deployCoreContract_Ok in Hrun as [_ [[Hf ->] | (Hf & _ & tx & -> & Htx)]];
    apply shouldDeployProxy_Some in Hf as (ch & Hch & Hfl);
    rewrite Hc in Hch; injection Hch as <-.
  - split; [intros _ | done].
    by rewrite proposal_with_proposal, afterImplementation_proposal.
  - split; [done | intros _].
    exists (nextAddress env (afterImplementation env contractName s)), tx. split.
    + rewrite proposal_with_proposal, proposal_afterRegistryEntry.
      rewrite afterProxy_proposal, afterImplementation_proposal.
      by rewrite <- app_assoc.
    + destruct (findFunction "initialize" (abi instance)); [|by left].
      destruct Htx as (cd & _ & ->). right. by exists cd.
Qed.

Lemma linksOnly_refl (s : State) : linksOnly s s.
Proof. by split. Qed.

Lemma linksOnly_trans (s1 s2 s3 : State) : linksOnly s1 s2 → linksOnly s2 s3 → linksOnly s1 s3.
Proof. intros [? ?] [? ?]. split; congruence. Qed.

Lemma link_linksOnly (contractName : string) (contractDependencies : list string) :
  preserves linksOnly (link contractName contractDependencies).
Proof.
  apply (preserves_link linksOnly contractName linksOnly_refl linksOnly_trans).
  by intros s e _ _.
Qed.

(** A successful [release] of a name not yet released, step by step. *)
Lemma release_Ok_steps (fuel : nat) (contractName : string) (s s' : State) :
  contractName ∉ released s →
  release env (S fuel) contractName s = (Ok tt, s') →
  ∃ contractArtifact s2 s3,
    artifacts_require env contractName = Some contractArtifact
    ∧ forEach (release env fuel) (dependencies_get env contractName) s
      = (Ok tt, afterDependencies env fuel contractName s)
    ∧ link contractName (dependencies_get env contractName)
        (afterDependencies env fuel contractName s) = (Ok tt, s2)
    ∧ (if bool_decide (is_Some (contracts (report env) !! contractName))
       then deployCoreContract env contractName contractArtifact
       else if bool_decide (is_Some (libraries (report env) !! contractName))
            then deployLibrary env contractName contractArtifact
            else ret tt) s2 = (Ok tt, s3)
    ∧ s' = (markReleased contractName s3).2.
Proof.
  intros Hnot. rewrite release_unfold, bool_decide_eq_false_2 by done.
  intros H. apply bind_Ok in H as ([] & s1 & Hdeps & H).
  unfold afterDependencies. rewrite Hdeps. simpl.
  unfold releaseSteps in H. apply bind_Ok in H as (art & s1' & Hreq & H).
  rewrite require_run in Hreq. destruct (artifacts_require env contractName) as [art'|]; [|done].
  injection Hreq as -> ->.
  apply bind_Ok in H as ([] & s2 & Hlink & H).
  apply bind_Ok in H as ([] & s3 & Hdeploy & H).
  exists art, s2, s3. repeat split; try done. by injection H as <-.
Qed.

End Decision.

(** C1 (as amended).  The guard on Governance is reached for a flagged
    report entry, and only for one.
    - When the report entry of Governance is flagged (a storage change, or a
      major change of type [NewContract]), [deployCoreContract] for
      Governance throws, whatever else the entry holds: the state it leaves
      is the one the implementation step left, so no proxy was created, and
      neither the table nor the proposal changed.  With a versioned
      implementation the error is the one of the Governance guard of
      [deployProxy].
    - When the entry is not flagged, the guard is not reached: the call
      never fails with the error of the guard and instantiates nothing but
      the implementation, and with a versioned implementation it returns
      normally, having appended the [_setImplementation] entry for the proxy
      of Governance. *)
Theorem C1_governance_guard_on_flagged_entry (env : Env) (changes : Changes)
    (instance : Artifact) (s : State) :
  contracts (report env) !! "Governance" = Some changes →
  (flagged changes →
   ∃ e, deployCoreContract env "Governance" instance s
        = (Err e, afterImplementation env "Governance" s)
        ∧ proposal (afterImplementation env "Governance" s) = proposal s
        ∧ addresses (afterImplementation env "Governance" s) = addresses s
        ∧ trace (afterImplementation env "Governance" s)
          = trace s ++ [EvInstance "Governance" (nextAddress env s)]
        ∧ (declares (abi instance) "getVersionNumber" →
           e = Thrown "Storage incompatible changes to Governance are not yet supported"))
  ∧ (¬ flagged changes →
     (deployCoreContract env "Governance" instance s).1
     ≠ Err (Thrown "Storage incompatible changes to Governance are not yet supported")
     ∧ trace (deployCoreContract env "Governance" instance s).2
       = trace s ++ [EvInstance "Governance" (nextAddress env s)]
     ∧ (declares (abi instance) "getVersionNumber" →
        deployCoreContract env "Governance" instance s
        = (Ok tt,
           with_proposal
             (λ p, p ++ [setImplementationTx "Governance" (nextAddress env s)])
             (afterImplementation env "Governance" s)))).
Proof.
  intros Hc. split; intros Hf.
  - destruct (deployCoreContract_governance_flagged env
                (shouldDeployProxy_flagged env _ _ Hc Hf) instance s) as (e & Hrun & He).
    exists e. split; [done|].
    split; [apply afterImplementation_proposal|].
    split; [apply afterImplementation_addresses|].
    split; [apply afterImplementation_trace | done].
  - pose proof (shouldDeployProxy_not_flagged env _ _ Hc Hf) as Hplain.
    destruct (findFunction "getVersionNumber" (abi instance)) as [v|] eqn:Hv.
    + apply mk_is_Some, findFunction_is_Some in Hv.
      rewrite deployCoreContract_implementation_only by done. cbn [fst snd].
      split; [done|]. split; [|done].
      change (trace (afterImplementation env "Governance" s)
              = trace s ++ [EvInstance "Governance" (nextAddress env s)]).
      apply afterImplementation_trace.
    + apply findFunction_None in Hv.
      rewrite deployCoreContract_unversioned by done. cbn [fst snd].
      split; [discriminate|]. split; [apply afterImplementation_trace | done].
Qed.

Lemma C1_governance_guard_witness :
  (deployCoreContract (Demo.world Demo.governanceReport false) "Governance"
     Demo.coreArtifact Demo.empty).1
  = Err (Thrown "Storage incompatible changes to Governance are not yet supported").
Proof.
  destruct (proj1 (C1_governance_guard_on_flagged_entry
                     (Demo.world Demo.governanceReport false)
                     {| storage := [Demo.stored]; major := [] |} Demo.coreArtifact Demo.empty
                     eq_refl))
    as (e & -> & _ & _ & _ & He).
  - left. discriminate.
  - simpl. f_equal. apply He. apply findFunction_is_Some. by eexists.
Defined.

(** C1 as stated fails: with a report entry for Governance that shows no
    storage change and no [NewContract], [deployCoreContract] for Governance
    returns normally and appends the implementation entry. *)
Lemma C1_counterexample_unflagged_governance :
  contracts (report (Demo.world Demo.upgradeReport false)) !! "Governance"
  = Some {| storage := []; major := [{| type := "MethodRemoved" |}] |}
  ∧ (deployCoreContract (Demo.world Demo.upgradeReport false) "Governance"
       Demo.coreArtifact Demo.empty).1 = Ok tt
  ∧ proposal (deployCoreContract (Demo.world Demo.upgradeReport false) "Governance"
                Demo.coreArtifact Demo.empty).2
    = [ {| contract := "GovernanceProxy"; function := "_setImplementation";
           args := [Str "0xN0"]; value := "0"; description := None |} ].
Proof. split; [|split]; reflexivity. Qed.

(** C6 (as amended).  For a versioned implementation whose ABI has a
    function [initialize]:
    - when the report entry is not flagged, no initializer call is proposed:
      the deployment appends the plain [_setImplementation] entry only;
    - when the entry is flagged and the new proxy is deployed, then, if the
      initializer call encodes, the deployment succeeds and appends, after
      the registry entry, one single entry for the implementation, whose
      function is [_setAndInitializeImplementation] and whose arguments are
      the address of the implementation and the encoded call; if it does not
      encode, the deployment throws the error that reports the name, the
      arguments and the declared inputs, and no implementation entry is
      appended. *)
Theorem C6_initializer_folded (env : Env) (contractName : string) (instance : Artifact)
    (changes : Changes) (initializeAbi : AbiEntry) (s : State) :
  contracts (report env) !! contractName = Some changes →
  declares (abi instance) "getVersionNumber" →
  findFunction "initialize" (abi instance) = Some initializeAbi →
  (¬ flagged changes →
   (deployCoreContract env contractName instance s).1 = Ok tt
   ∧ proposal (deployCoreContract env contractName instance s).2
     = proposal s ++
       [ {| contract := contractName +:+ "Proxy"; function := "_setImplementation";
            args := [Str (nextAddress env s)]; value := "0"; description := None |} ])
  ∧ (flagged changes →
     ∀ proxy s2,
       deployProxy env contractName (afterImplementation env contractName s) = (Ok proxy, s2) →
       match encodeFunctionCall env initializeAbi (initializationData env !! contractName) with
       | Some callData =>
           (deployCoreContract env contractName instance s).1 = Ok tt
           ∧ proposal (deployCoreContract env contractName instance s).2
             = proposal s ++
               [ {| contract := "Registry"; function := "setAddressFor";
                    args := [Str contractName; Str (address proxy)]; value := "0";
                    description :=
                      Some ("Registry: " +:+ contractName +:+ " -> " +:+ address proxy) |};
                 {| contract := contractName +:+ "Proxy";
                    function := "_setAndInitializeImplementation";
                    args := [Str (nextAddress env s); Str callData]; value := "0";
                    description := None |} ]
       | None =>
           (deployCoreContract env contractName instance s).1
           = Err (InitializeEncodingError contractName (initializationData env !! contractName)
                    (abi_inputs initializeAbi))
           ∧ proposal (deployCoreContract env contractName instance s).2
             = proposal s ++
               [ {| contract := "Registry"; function := "setAddressFor";
                    args := [Str contractName; Str (address proxy)]; value := "0";
                    description :=
                      Some ("Registry: " +:+ contractName +:+ " -> " +:+ address proxy) |} ]
       end).
Proof.
  intros Hc Hv Hini. split.
  - intros Hf.
    rewrite (deployCoreContract_implementation_only env _ _ _ Hv
               (shouldDeployProxy_not_flagged env _ _ Hc Hf)).
    split; [done|]. cbn [snd]. by rewrite proposal_with_proposal, afterImplementation_proposal.
  - intros Hf proxy s2 Hp.
    rewrite (deployCoreContract_new_proxy env _ _ _ _ _ Hv
               (shouldDeployProxy_flagged env _ _ Hc Hf) Hp).
    rewrite Hini. apply deployProxy_Ok in Hp as (_ & _ & ->).
    destruct (encodeFunctionCall env initializeAbi _) as [callData|]; cbn [fst snd];
      rewrite ?proposal_with_proposal, proposal_afterRegistryEntry;
      rewrite afterProxy_proposal, afterImplementation_proposal.
    + split; [done|]. by rewrite <- app_assoc.
    + done.
Qed.

Lemma C6_initializer_folded_witness :
  ((deployCoreContract (Demo.world Demo.stableTokenReport false) "StableTokenGBP"
      Demo.coreArtifact (initial (Demo.world Demo.stableTokenReport false))).1 = Ok tt
   ∧ proposal (deployCoreContract (Demo.world Demo.stableTokenReport false) "StableTokenGBP"
                 Demo.coreArtifact (initial (Demo.world Demo.stableTokenReport false))).2
     = [ {| contract := "Registry"; function := "setAddressFor";
            args := [Str "StableTokenGBP"; Str "0xN1"]; value := "0";
            description := Some "Registry: StableTokenGBP -> 0xN1" |};
         {| contract := "StableTokenGBPProxy";
            function := "_setAndInitializeImplementation";
            args := [Str "0xN0"; Str "initialize,0x60,18"]; value := "0";
            description := None |} ])
  ∧ (deployCoreContract (Demo.world Demo.stableTokenReport false) "Exchange"
       Demo.coreArtifact (initial (Demo.world Demo.stableTokenReport false))).1
    = Err (InitializeEncodingError "Exchange" (Some ["0x60"]) ["address"; "uint256"]).
Proof.
  assert (declares (abi Demo.coreArtifact) "getVersionNumber") as Hv.
  { apply findFunction_is_Some. by eexists. }
  split.
  - exact (proj2 (C6_initializer_folded (Demo.world Demo.stableTokenReport false)
                    "StableTokenGBP" Demo.coreArtifact
                    {| storage := []; major := [{| type := "NewContract" |}] |}
                    (Demo.fn "initialize" ["address"; "uint256"])
                    (initial (Demo.world Demo.stableTokenReport false)) eq_refl Hv eq_refl)
             (or_intror (ex_intro _ {| type := "NewContract" |}
                           (conj (list_elem_of_here _ _) eq_refl)))
             _ _ eq_refl).
  - exact (proj1 (proj2 (C6_initializer_folded (Demo.world Demo.stableTokenReport false)
                           "Exchange" Demo.coreArtifact
                           {| storage := [Demo.stored]; major := [] |}
                           (Demo.fn "initialize" ["address"; "uint256"])
                           (initial (Demo.world Demo.stableTokenReport false)) eq_refl Hv eq_refl)
                    (or_introl (λ H, eq_ind [Demo.stored]
                                       (λ l, match l with [] => False | _ => True end) I [] H))
                    _ _ eq_refl)).
Defined.

(** C6 as stated fails: the implementation of Exchange has an initializer,
    its report entry is not flagged, and the deployment appends the plain
    [_setImplementation] entry, with the address alone: no initializer call
    is folded in. *)
Lemma C6_counterexample_initializer_not_called :
  findFunction "initialize" (abi Demo.coreArtifact)
  = Some (Demo.fn "initialize" ["address"; "uint256"])
  ∧ contracts (report (Demo.world Demo.upgradeReport false)) !! "Exchange"
    = Some {| storage := []; major := [] |}
  ∧ (deployCoreContract (Demo.world Demo.upgradeReport false) "Exchange"
       Demo.coreArtifact (initial (Demo.world Demo.upgradeReport false))).1 = Ok tt
  ∧ proposal (deployCoreContract (Demo.world Demo.upgradeReport false) "Exchange"
                Demo.coreArtifact (initial (Demo.world Demo.upgradeReport false))).2
    = [ {| contract := "ExchangeProxy"; function := "_setImplementation";
           args := [Str "0xN0"]; value := "0"; description := None |} ].
Proof. split; [|split; [|split]]; reflexivity. Qed.

(** ** Claims about the traversal *)

Section Orchestrator.

Variable env : Env.

Lemma traverse_consistent (fuel : nat) : preserves (stays env) (traverse env fuel).
Proof.
  unfold traverse. apply (preserves_forEach (stays env) (stays_refl env) (stays_trans env)).
  intros contractName _. destruct (_ && _); [apply release_consistent|].
  apply preserves_ret, stays_refl.
Qed.

Lemma initial_consistent : consistent env (initial env).
Proof.
  split; [apply ordered_nil | intros u]. simpl.
  split; intros Hu; [by apply not_elem_of_empty in Hu | by apply not_elem_of_nil in Hu].
Qed.

Lemma module_exports_consistent (fuel : nat) : consistent env (module_exports env fuel).2.
Proof.
  unfold module_exports.
  assert (preserves (stays env)
            (traverse env fuel ;;;
             forEach push (extras (property ("Exchange" +:+ fiat_ticket))
                                  (property ("Exchange" +:+ fiat_ticket))) ;;;
             λ s, (Ok (proposal s), s))) as H.
  { apply (preserves_bind _ (stays_trans env)); [apply traverse_consistent | intros _].
    apply (preserves_bind _ (stays_trans env)); [|intros _ s; apply stays_refl].
    apply (preserves_forEach _ (stays_refl env) (stays_trans env)).
    intros tx _ s. by intros ?. }
  apply H, initial_consistent.
Qed.

End Orchestrator.

(** C3.  In the trace of any run of the orchestrator, whatever its outcome,
    every operation on a unit [u] — a link of its artifact, the creation of
    its implementation or proxy, and its marking as released — comes
    strictly after the marking as released of each dependency [d] of [u]; so
    when the run ends with [u] in the released set, [d] is in it too. *)
Theorem C3_dependencies_released_first (env : Env) (fuel : nat) (u d : string) :
  d ∈ dependencies_get env u →
  (∀ before e after,
     trace (module_exports env fuel).2 = before ++ e :: after →
     unit_of e = u →
     EvReleased d ∈ before)
  ∧ (u ∈ released (module_exports env fuel).2 → d ∈ released (module_exports env fuel).2).
Proof.
  intros Hd. destruct (module_exports_consistent env fuel) as [Hord Hacc].
  assert (∀ before e after,
            trace (module_exports env fuel).2 = before ++ e :: after →
            unit_of e = u → EvReleased d ∈ before) as Hfirst.
  { intros before e after Htrace He.
    pose proof (ordered_split env _ Hord _ _ _ Htrace) as Hready.
    rewrite He in Hready. by apply Hready. }
  split; [exact Hfirst|].
  intros Hu. apply Hacc in Hu. apply list_elem_of_split in Hu as (before & after & Htrace).
  apply Hacc. rewrite Htrace. apply elem_of_app. left. by eapply Hfirst.
Qed.

Lemma C3_dependencies_released_first_witness :
  trace (module_exports (Demo.world Demo.upgradeReport false) 3).2
  = [EvInstance "Signatures" "0xN0"; EvReleased "Signatures";
     EvLink "Exchange" "Signatures" "0xN0"; EvInstance "Exchange" "0xN1";
     EvReleased "Exchange"; EvReleased "Proposals"]
    ++ EvLink "Governance" "Proposals" "0xA1"
    :: [EvLink "Governance" "Signatures" "0xN0"; EvInstance "Governance" "0xN2";
        EvReleased "Governance"; EvReleased "Reserve"; EvReleased "StableTokenGBP"]
  ∧ EvReleased "Proposals"
    ∈ [EvInstance "Signatures" "0xN0"; EvReleased "Signatures";
       EvLink "Exchange" "Signatures" "0xN0"; EvInstance "Exchange" "0xN1";
       EvReleased "Exchange"; EvReleased "Proposals"].
Proof.
  assert (trace (module_exports (Demo.world Demo.upgradeReport false) 3).2
          = [EvInstance "Signatures" "0xN0"; EvReleased "Signatures";
             EvLink "Exchange" "Signatures" "0xN0"; EvInstance "Exchange" "0xN1";
             EvReleased "Exchange"; EvReleased "Proposals"]
            ++ EvLink "Governance" "Proposals" "0xA1"
            :: [EvLink "Governance" "Signatures" "0xN0"; EvInstance "Governance" "0xN2";
                EvReleased "Governance"; EvReleased "Reserve"; EvReleased "StableTokenGBP"])
    as Htrace by (vm_compute; reflexivity).
  split; [exact Htrace|].
  exact (proj1 (C3_dependencies_released_first (Demo.world Demo.upgradeReport false) 3
                  "Governance" "Proposals" (list_elem_of_here _ _)) _ _ _ Htrace eq_refl).
Defined.

(** C4.  Once [release x] has returned, a second [release x] returns at once
    and leaves the whole state (table, released set, proposal, trace) as the
    first call left it. *)
Theorem C4_release_idempotent (env : Env) (fuel fuel' : nat) (x : string) (s s' : State) :
  release env fuel x s = (Ok tt, s') →
  release env (S fuel') x s' = (Ok tt, s').
Proof.
  intros H. apply release_Ok_released in H.
  rewrite release_unfold. by rewrite bool_decide_eq_true_2.
Qed.

Lemma C4_release_idempotent_witness :
  release (Demo.world Demo.upgradeReport false) 2 "Exchange"
    (release (Demo.world Demo.upgradeReport false) 2 "Exchange"
       (initial (Demo.world Demo.upgradeReport false))).2
  = (Ok tt, (release (Demo.world Demo.upgradeReport false) 2 "Exchange"
               (initial (Demo.world Demo.upgradeReport false))).2).
Proof.
  apply (C4_release_idempotent (Demo.world Demo.upgradeReport false) 2 1 "Exchange"
           (initial (Demo.world Demo.upgradeReport false))).
  vm_compute. reflexivity.
Defined.

(** C10.  When the traversal completes without error, the run succeeds and
    the proposal it hands to the writer is the proposal of the traversal
    followed by four fixed entries: [SortedOracles.addOracle],
    [GoldToken.transfer], [Reserve.addExchangeSpender] and one more
    [addOracle], with [TODO] placeholders and, where the script reads a
    property that does not exist, [undefined]. *)
Theorem C10_fixed_suffix (env : Env) (fuel : nat) (s1 : State) :
  traverse env fuel (initial env) = (Ok tt, s1) →
  (module_exports env fuel).1
  = Ok (proposal s1 ++
        [ {| contract := "SortedOracles"; function := "addOracle";
             args := [Undefined; Str "TODO"]; value := "0"; description := None |};
          {| contract := "GoldToken"; function := "transfer";
             args := [Str "TODO"]; value := "0"; description := None |};
          {| contract := "Reserve"; function := "addExchangeSpender";
             args := [Undefined]; value := "0"; description := None |};
          {| contract := "Figure out how to get exchange address here";
             function := "addOracle";
             args := [Str "0"]; value := "0"; description := None |} ]).
Proof.
  intros H. unfold module_exports. rewrite bind_run, H.
  change (property ("Exchange" +:+ fiat_ticket)) with Undefined.
  unfold extras, forEach, push, bind, ret. simpl.
  by rewrite <- !app_assoc.
Qed.

Lemma C10_fixed_suffix_witness :
  (module_exports (Demo.world Demo.upgradeReport false) 3).1
  = Ok [ {| contract := "ExchangeProxy"; function := "_setImplementation";
            args := [Str "0xN1"]; value := "0"; description := None |};
         {| contract := "GovernanceProxy"; function := "_setImplementation";
            args := [Str "0xN2"]; value := "0"; description := None |};
         {| contract := "SortedOracles"; function := "addOracle";
            args := [Undefined; Str "TODO"]; value := "0"; description := None |};
         {| contract := "GoldToken"; function := "transfer";
            args := [Str "TODO"]; value := "0"; description := None |};
         {| contract := "Reserve"; function := "addExchangeSpender";
            args := [Undefined]; value := "0"; description := None |};
         {| contract := "Figure out how to get exchange address here";
            function := "addOracle";
            args := [Str "0"]; value := "0"; description := None |} ].
Proof.
  rewrite (C10_fixed_suffix (Demo.world Demo.upgradeReport false) 3
             (traverse (Demo.world Demo.upgradeReport false) 3
                (initial (Demo.world Demo.upgradeReport false))).2).
  - vm_compute. reflexivity.
  - vm_compute. reflexivity.
Defined.

(** C5 (as amended).  When the release of a core contract of the report
    returns, the proposal is the one its dependencies left, followed, for an
    entry that is not flagged, by exactly one entry, for the contract's proxy,
    with function [_setImplementation] and the address of the new
    implementation as its only argument; and, for a flagged entry, by exactly
    the entry [Registry.setAddressFor] and then one entry for the proxy that
    is either [_setImplementation] or [_setAndInitializeImplementation].  The
    dependencies leave the proposal as it was when none of the names they
    recurse to is a core contract of the report. *)
Theorem C5_entries_per_release (env : Env) (fuel : nat) (contractName : string)
    (changes : Changes) (s s' : State) :
  contracts (report env) !! contractName = Some changes →
  contractName ∉ released s →
  release env (S fuel) contractName s = (Ok tt, s') →
  (¬ flagged changes →
   proposal s'
   = proposal (afterDependencies env fuel contractName s) ++
     [ {| contract := contractName +:+ "Proxy"; function := "_setImplementation";
          args := [Str (nextAddress env (afterDependencies env fuel contractName s))];
          value := "0"; description := None |} ])
  ∧ (flagged changes →
     ∃ proxy tx,
       proposal s'
       = proposal (afterDependencies env fuel contractName s) ++
         [ {| contract := "Registry"; function := "setAddressFor";
              args := [Str contractName; Str proxy]; value := "0";
              description := Some ("Registry: " +:+ contractName +:+ " -> " +:+ proxy) |};
           tx ]
       ∧ (tx = {| contract := contractName +:+ "Proxy"; function := "_setImplementation";
                  args := [Str (nextAddress env (afterDependencies env fuel contractName s))];
                  value := "0"; description := None |}
          ∨ ∃ callData,
              tx = {| contract := contractName +:+ "Proxy";
                      function := "_setAndInitializeImplementation";
                      args := [Str (nextAddress env (afterDependencies env fuel contractName s));
                               Str callData];
                      value := "0"; description := None |}))
  ∧ ((∀ d n, d ∈ dependencies_get env contractName → dependsOn env d n →
             contracts (report env) !! n = None) →
     proposal (afterDependencies env fuel contractName s) = proposal s).
Proof.
  intros Hc Hnot Hrun.
  assert ((∀ d n, d ∈ dependencies_get env contractName → dependsOn env d n →
                  contracts (report env) !! n = None) →
          proposal (afterDependencies env fuel contractName s) = proposal s) as Hdeps.
  { intros Hreach. by apply (forEach_release_appendsNothing env fuel _ Hreach s). }
  apply and_assoc. split; [|exact Hdeps]. clear Hdeps.
  apply release_Ok_steps in Hrun as (art & s2 & s3 & _ & _ & Hlink & Hdeploy & ->); [|done].
  rewrite Hc, bool_decide_eq_true_2 in Hdeploy by done.
  pose proof (link_linksOnly contractName (dependencies_get env contractName)
                (afterDependencies env fuel contractName s)) as Hl.
  rewrite Hlink in Hl. destruct Hl as [Hp Hd]. simpl in Hp, Hd.
  assert (nextAddress env s2 = nextAddress env (afterDependencies env fuel contractName s)) as Ha.
  { unfold nextAddress. by rewrite Hd. }
  destruct (deployCoreContract_entries env _ _ _ _ _ Hc Hdeploy) as [Hplain Hproxy].
  rewrite Ha, Hp in Hplain, Hproxy. split.
  - intros Hf. exact (Hplain Hf).
  - intros Hf. destruct (Hproxy Hf) as (proxy & tx & Heq & Htx).
    exists proxy, tx. split; [exact Heq|].
    destruct Htx as [->|[cd ->]]; [by left | right; by exists cd].
Qed.

Lemma C5_entries_per_release_witness :
  proposal (release (Demo.world Demo.upgradeReport false) 2 "Exchange"
              (initial (Demo.world Demo.upgradeReport false))).2
  = proposal (afterDependencies (Demo.world Demo.upgradeReport false) 1 "Exchange"
                (initial (Demo.world Demo.upgradeReport false))) ++
    [ {| contract := "ExchangeProxy"; function := "_setImplementation";
         args := [Str "0xN1"]; value := "0"; description := None |} ]
  ∧ ∃ proxy tx,
      proposal (release (Demo.world Demo.stableTokenReport false) 1 "Reserve"
                  (initial (Demo.world Demo.stableTokenReport false))).2
      = proposal (initial (Demo.world Demo.stableTokenReport false)) ++
        [ {| contract := "Registry"; function := "setAddressFor";
             args := [Str "Reserve"; Str proxy]; value := "0";
             description := Some ("Registry: " +:+ "Reserve" +:+ " -> " +:+ proxy) |};
          tx ]
      ∧ (tx = {| contract := "ReserveProxy"; function := "_setImplementation";
                 args := [Str "0xN0"]; value := "0"; description := None |}
         ∨ ∃ callData,
             tx = {| contract := "ReserveProxy";
                     function := "_setAndInitializeImplementation";
                     args := [Str "0xN0"; Str callData];
                     value := "0"; description := None |}).
Proof.
  split.
  - refine (proj1 (C5_entries_per_release (Demo.world Demo.upgradeReport false) 1 "Exchange"
                     {| storage := []; major := [] |}
                     (initial (Demo.world Demo.upgradeReport false)) _ eq_refl _ _) _).
    + apply not_elem_of_empty.
    + vm_compute. reflexivity.
    + intros [Hs | (c & Hc & _)]; [done | by apply not_elem_of_nil in Hc].
  - refine (proj1 (proj2 (C5_entries_per_release (Demo.world Demo.stableTokenReport false) 0
                            "Reserve" {| storage := [Demo.stored]; major := [] |}
                            (initial (Demo.world Demo.stableTokenReport false)) _
                            eq_refl _ _)) _).
    + apply not_elem_of_empty.
    + vm_compute. reflexivity.
    + by left.
Defined.

(** C5 as stated fails on the name of the function: for the unflagged entry
    of Exchange the release appends one entry whose function is
    [_setImplementation]; no entry with function [setImplementation] is
    appended. *)
Lemma C5_counterexample_function_name :
  contracts (report (Demo.world Demo.upgradeReport false)) !! "Exchange"
  = Some {| storage := []; major := [] |}
  ∧ (release (Demo.world Demo.upgradeReport false) 2 "Exchange"
       (initial (Demo.world Demo.upgradeReport false))).1 = Ok tt
  ∧ proposal (release (Demo.world Demo.upgradeReport false) 2 "Exchange"
                (initial (Demo.world Demo.upgradeReport false))).2
    = [ {| contract := "ExchangeProxy"; function := "_setImplementation";
           args := [Str "0xN1"]; value := "0"; description := None |} ]
  ∧ ¬ ∃ a, proposal (release (Demo.world Demo.upgradeReport false) 2 "Exchange"
                       (initial (Demo.world Demo.upgradeReport false))).2
           = [ {| contract := "ExchangeProxy"; function := "setImplementation";
                  args := [Str a]; value := "0"; description := None |} ].
Proof.
  assert (proposal (release (Demo.world Demo.upgradeReport false) 2 "Exchange"
                      (initial (Demo.world Demo.upgradeReport false))).2
          = [ {| contract := "ExchangeProxy"; function := "_setImplementation";
                 args := [Str "0xN1"]; value := "0"; description := None |} ]) as Hp
    by (vm_compute; reflexivity).
  split; [reflexivity|]. split; [vm_compute; reflexivity|]. split; [exact Hp|].
  rewrite Hp. intros [a Ha]. discriminate Ha.
Qed.

(** C2 (as amended).  With a flagged report entry for Governance:
    - [deployCoreContract] for Governance throws and leaves the proposal as
      it was;
    - a release of Governance, not yet released, never returns normally, and
      when none of the names it recurses to is itself a core contract of the
      report it leaves the proposal as it was;
    - when some rank decreases along the dependency lists, a budget above
      the rank of Governance suffices for that release to throw;
    - in every case the steps of Governance itself append nothing: the
      proposal the release leaves is the one the releases of its
      dependencies left. *)
Theorem C2_governance_release_fails (env : Env) (changes : Changes) :
  contracts (report env) !! "Governance" = Some changes →
  flagged changes →
  (∀ instance s,
     (∃ e, (deployCoreContract env "Governance" instance s).1 = Err e)
     ∧ proposal (deployCoreContract env "Governance" instance s).2 = proposal s)
  ∧ (∀ fuel s,
       "Governance" ∉ released s →
       (release env fuel "Governance" s).1 ≠ Ok tt
       ∧ ((∀ n, dependsOn env "Governance" n → n ≠ "Governance" →
                contracts (report env) !! n = None) →
          proposal (release env fuel "Governance" s).2 = proposal s))
  ∧ (∀ (rank : string → nat) fuel s,
       (∀ u d, d ∈ dependencies_get env u → rank d < rank u) →
       rank "Governance" < fuel →
       "Governance" ∉ released s →
       ∃ e, (release env fuel "Governance" s).1 = Err e)
  ∧ (∀ fuel s,
       "Governance" ∉ released s →
       proposal (release env (S fuel) "Governance" s).2
       = proposal (afterDependencies env fuel "Governance" s)).
Proof.
  intros Hc Hf. pose proof (shouldDeployProxy_flagged env _ _ Hc Hf) as Hflag.
  split; [|split; [|split]].
  - intros instance s.
    destruct (deployCoreContract_governance_flagged env Hflag instance s) as (e & -> & _).
    split; [by exists e | apply afterImplementation_proposal].
  - intros fuel s Hnot. split; [by apply release_governance_not_Ok|].
    intros Hreach. by apply (release_governance_appendsNothing env Hflag fuel Hreach s).
  - intros rank fuel s Hrank Hlt Hnot.
    pose proof (release_governance_not_Ok env Hflag fuel s Hnot) as HnotOk.
    pose proof (release_total env rank Hrank fuel "Governance" Hlt s) as Htot.
    destruct (release env fuel "Governance" s) as [[[]|e|] s']; simpl in *; [done | eauto | done].
  - intros fuel s Hnot. rewrite release_unfold, bool_decide_eq_false_2 by done.
    rewrite bind_run. unfold afterDependencies.
    destruct (forEach (release env fuel) (dependencies_get env "Governance") s)
      as [[[]|e|] s1]; [|done..].
    by destruct (releaseSteps_governance env Hflag s1) as [_ [Hp _]].
Qed.

Lemma C2_governance_release_fails_witness :
  (∃ e, (release (Demo.world Demo.governanceReport false) 2 "Governance"
           (initial (Demo.world Demo.governanceReport false))).1 = Err e)
  ∧ proposal (release (Demo.world Demo.governanceReport false) 2 "Governance"
                (initial (Demo.world Demo.governanceReport false))).2 = [].
Proof.
  destruct (C2_governance_release_fails (Demo.world Demo.governanceReport false)
              {| storage := [Demo.stored]; major := [] |} eq_refl
              (or_introl (λ H, eq_ind [Demo.stored]
                                 (λ l, match l with [] => False | _ => True end) I [] H)))
    as (_ & Hrelease & Hthrows & _).
  split.
  - apply (Hthrows (λ n, if bool_decide (n ∈ ["Governance"; "Exchange"]) then 1 else 0)).
    + intros u d. simpl. unfold Demo.dependenciesOf.
      destruct (String.eqb_spec u "Governance") as [->|_].
      { intros Hd. apply list_elem_of_In in Hd. simpl in Hd.
        destruct Hd as [<-|[<-|[]]]; vm_compute; lia. }
      destruct (String.eqb_spec u "Exchange") as [->|_].
      { intros Hd. apply list_elem_of_In in Hd. simpl in Hd.
        destruct Hd as [<-|[]]; vm_compute; lia. }
      intros Hd. by apply not_elem_of_nil in Hd.
    + vm_compute. lia.
    + apply not_elem_of_empty.
  - destruct (Hrelease 2 (initial (Demo.world Demo.governanceReport false))) as [_ Hp].
    + apply not_elem_of_empty.
    + apply Hp. intros n _ Hne. simpl. by rewrite lookup_singleton_ne.
Defined.

(** C2 as stated fails: here Governance is the only flagged unit and depends
    on Exchange, whose implementation alone changed.  The release of
    Governance fails on the guard, after the release of Exchange has
    appended its entry to the proposal, which was empty. *)
Lemma C2_counterexample_dependency_entry :
  contracts (report Upstream.world) !! "Governance"
  = Some {| storage := [Demo.stored]; major := [] |}
  ∧ contracts (report Upstream.world) !! "Exchange" = Some {| storage := []; major := [] |}
  ∧ dependencies_get Upstream.world "Governance" = ["Exchange"]
  ∧ proposal (initial Upstream.world) = []
  ∧ (release Upstream.world 3 "Governance" (initial Upstream.world)).1
    = Err (Thrown "Storage incompatible changes to Governance are not yet supported")
  ∧ proposal (release Upstream.world 3 "Governance" (initial Upstream.world)).2
    = [ {| contract := "ExchangeProxy"; function := "_setImplementation";
           args := [Str "0xN0"]; value := "0"; description := None |} ].
Proof. repeat split; vm_compute; reflexivity. Qed.

(** ** Names in progress stay unreleased *)

Section Pending.

Variable env : Env.

Lemma releaseSteps_marksOnly (u : string) : preserves (marksOnly u) (releaseSteps env u).
Proof.
  apply preserves_releaseSteps; unfold marksOnly.
  - intros s. apply union_subseteq_r.
  - intros s1 s2 s3 H12 H23 x Hx. apply H23 in Hx.
    apply elem_of_union in Hx as [Hx|Hx]; [by apply elem_of_union_l | by apply H12].
  - intros s f. apply union_subseteq_r.
  - intros s f. apply union_subseteq_r.
  - intros s f. apply union_subseteq_r.
  - intros s e _ _. apply union_subseteq_r.
  - intros s. done.
Qed.

(** While the calls for the names of [P] are in progress, a release returns
    with all of them still unreleased, and it does not return normally for a
    name of [P]. *)
Lemma release_keeps_pending (fuel : nat) :
  ∀ name s (P : string → Prop),
    unreleased P s → chained env P name →
    unreleased P (release env fuel name s).2
    ∧ (P name → (release env fuel name s).1 ≠ Ok tt).
Proof.
  induction fuel as [|fuel IH]; intros name s P Hun Hch; [by split|].
  rewrite release_unfold. case_bool_decide as Hin.
  { split; [done|]. intros HP. by destruct (Hun _ HP). }
  set (P' := λ p, P p ∨ p = name).
  assert (∀ l s0, (∀ d, d ∈ l → d ∈ dependencies_get env name) → unreleased P' s0 →
            unreleased P' (forEach (release env fuel) l s0).2
            ∧ ((∃ d, d ∈ l ∧ P' d) → (forEach (release env fuel) l s0).1 ≠ Ok tt)) as Hlist.
  { induction l as [|d l IHl]; intros s0 Hl Hun0.
    - split; [done|]. intros (d & Hd & _). by apply not_elem_of_nil in Hd.
    - simpl. rewrite bind_run.
      destruct (IH d s0 P' Hun0) as [Hun1 Hd].
      { intros p [Hp| ->].
        - destruct (Hch p Hp) as (d' & Hd' & Hd''). exists d'. split; [done|].
          left. destruct Hd'' as [?|?]; [by left | by right].
        - exists d. split; [apply Hl; left | by right]. }
      destruct (release env fuel d s0) as [[[]|e|] s1]; simpl in Hun1, Hd; [|by split..].
      destruct (IHl s1) as [Hun2 Hrest]; [intros d' Hd'; apply Hl; by right | done |].
      split; [done|]. intros (d' & Hd' & HP'). apply elem_of_cons in Hd' as [->|Hd'].
      + by destruct (Hd HP').
      + apply Hrest. by exists d'. }
  destruct (Hlist (dependencies_get env name) s) as [Hun1 Hdeps];
    [done | by intros p [Hp| ->]; [apply Hun|] |].
  rewrite bind_run.
  destruct (forEach (release env fuel) (dependencies_get env name) s) as [[[]|e|] s1];
    simpl in Hun1, Hdeps; [|split; [intros p Hp; apply Hun1; by left | done]..].
  assert (¬ P name) as HnP.
  { intros HP. destruct (Hch _ HP) as (d & Hd & Hd'). apply Hdeps; [|done].
    exists d. split; [done|]. destruct Hd' as [?| ->]; [by left | by right]. }
  split; [|done]. intros p Hp Hrel.
  apply (releaseSteps_marksOnly name s1) in Hrel.
  apply elem_of_union in Hrel as [Hrel|Hrel].
  - apply elem_of_singleton in Hrel as ->. done.
  - apply (Hun1 p); [by left | done].
Qed.

(** The dependencies of an unreleased name leave it unreleased. *)
Lemma dependencies_keep_pending (fuel : nat) (name : string) (s : State) :
  name ∉ released s → name ∉ released (afterDependencies env fuel name s).
Proof.
  intros Hnot. unfold afterDependencies.
  assert (∀ l s0, (∀ d, d ∈ l → d ∈ dependencies_get env name) → name ∉ released s0 →
            name ∉ released (forEach (release env fuel) l s0).2) as Hlist.
  { induction l as [|d l IHl]; intros s0 Hl Hun0; [done|].
    simpl. rewrite bind_run.
    destruct (release_keeps_pending fuel d s0 (λ p, p = name)) as [Hun1 _].
    - by intros p ->.
    - intros p ->. exists d. split; [apply Hl; left | by right].
    - destruct (release env fuel d s0) as [[[]|e|] s1]; simpl in Hun1;
        [|by apply Hun1..].
      apply IHl; [intros d' Hd'; apply Hl; by right | by apply Hun1]. }
  by apply Hlist.
Qed.

End Pending.

(** ** The steps of one release, one by one *)

Section Steps.

Variable env : Env.
Variable R : State → State → Prop.
Variable u : string.

Hypothesis P_refl : ∀ s, R s s.
Hypothesis P_trans : ∀ s1 s2 s3, R s1 s2 → R s2 s3 → R s1 s3.
Hypothesis P_implementation : reported env u → ∀ s, R s (afterImplementation env u s).
Hypothesis P_proxy :
  shouldDeployProxy (report env) u = Some true → u ≠ "Governance" →
  ∀ s, R s (afterProxy env u s).
Hypothesis P_set_proxy :
  shouldDeployProxy (report env) u = Some true → u ≠ "Governance" →
  ∀ s a, R s (with_addresses (λ table, <[u := a]> table) s).
Hypothesis P_set_library :
  contracts (report env) !! u = None → is_Some (libraries (report env) !! u) →
  ∀ s a, R s (with_addresses (λ table, <[u := a]> table) s).
Hypothesis P_push :
  is_Some (contracts (report env) !! u) → ∀ s tx, R s (with_proposal (λ p, p ++ [tx]) s).
Hypothesis P_link :
  ∀ s d a, d ∈ dependencies_get env u → addresses s !! d = Some a →
           R s (with_trace (λ t, t ++ [EvLink u d a]) s).

Lemma steps_deployImplementation (Contract : Artifact) (requireVersion : bool) :
  reported env u → preserves R (deployImplementation env u Contract requireVersion).
Proof.
  intros Hrep s. rewrite deployImplementation_run. destruct (_ && _); by apply P_implementation.
Qed.

Lemma steps_deployProxy :
  shouldDeployProxy (report env) u = Some true → u ≠ "Governance" →
  preserves R (deployProxy env u).
Proof.
  intros Hf Hne s. rewrite deployProxy_run by done.
  destruct (artifacts_require env _); [|apply P_refl]. destruct (_ || _); by apply P_proxy.
Qed.

Lemma steps_deployCoreContract (instance : Artifact) :
  is_Some (contracts (report env) !! u) → preserves R (deployCoreContract env u instance).
Proof.
  intros Hc. unfold deployCoreContract.
  apply (preserves_bind R P_trans);
    [apply steps_deployImplementation; by left | intros c].
  case_eq (shouldDeployProxy (report env) u); [intros [|] Hf | intros Hf];
    [|intros s; by apply P_push | apply (preserves_throw R P_refl)].
  destruct (decide (u = "Governance")) as [Hgov|Hne].
  { intros s. rewrite bind_run. rewrite Hgov at 1. rewrite deployProxy_governance. apply P_refl. }
  apply (preserves_bind R P_trans); [by apply steps_deployProxy | intros proxy].
  apply (preserves_bind R P_trans); [intros s; by apply P_set_proxy | intros _].
  apply (preserves_bind R P_trans); [intros s; by apply P_push | intros _].
  apply (preserves_bind R P_trans); [|intros tx s; by apply P_push].
  destruct (findFunction _ _) as [ini|]; [|apply (preserves_ret R P_refl)].
  destruct (encodeFunctionCall _ _ _);
    [apply (preserves_ret R P_refl) | apply (preserves_throw R P_refl)].
Qed.

Lemma steps_deployLibrary (contractArtifact : Artifact) :
  contracts (report env) !! u = None → is_Some (libraries (report env) !! u) →
  preserves R (deployLibrary env u contractArtifact).
Proof.
  intros Hc Hl. unfold deployLibrary.
  apply (preserves_bind R P_trans);
    [apply steps_deployImplementation; by right | intros c].
  intros s. by apply P_set_library.
Qed.

Lemma steps_link : preserves R (link u (dependencies_get env u)).
Proof.
  unfold link. apply (preserves_forEach R P_refl P_trans). intros d Hd s.
  rewrite bind_run. unfold ContractAddresses.get.
  destruct (addresses s !! d) as [a|] eqn:Ha; [by apply P_link | apply P_refl].
Qed.

Lemma steps_releaseWork (contractArtifact : Artifact) :
  preserves R (releaseWork env u contractArtifact).
Proof.
  unfold releaseWork. apply (preserves_bind R P_trans); [apply steps_link | intros _].
  case_bool_decide as Hc; [by apply steps_deployCoreContract|].
  case_bool_decide as Hl; [|apply (preserves_ret R P_refl)].
  apply steps_deployLibrary; [|done]. by apply eq_None_not_Some.
Qed.

End Steps.

Section ReleaseSteps.

Variable env : Env.

(** [releaseSteps]: the artifact, the work, the mark. *)
Lemma releaseSteps_run (u : string) (s : State) :
  releaseSteps env u s =
  match artifacts_require env u with
  | None => (Err (ArtifactNotFound u), s)
  | Some contractArtifact =>
      match releaseWork env u contractArtifact s with
      | (Ok _, s') => markReleased u s'
      | (Err e, s') => (Err e, s')
      | (OutOfFuel, s') => (OutOfFuel, s')
      end
  end.
Proof.
  unfold releaseSteps, releaseWork. rewrite bind_run, require_run.
  destruct (artifacts_require env u) as [art|]; [|done].
  rewrite !bind_run.
  destruct (link u (dependencies_get env u) s) as [[[]|e|] s1]; [|done..].
  rewrite bind_run. by destruct (_ s1) as [[[]|e|] s2].
Qed.

(** A relation all steps of every name respect is respected by [release]. *)
Lemma release_preserves (R : State → State → Prop) :
  (∀ s, R s s) → (∀ s1 s2 s3, R s1 s2 → R s2 s3 → R s1 s3) →
  (∀ u, preserves R (releaseSteps env u)) →
  ∀ fuel name, preserves R (release env fuel name).
Proof.
  intros Hrefl Htrans Hsteps fuel.
  induction fuel as [|fuel IH]; intros name s; [apply Hrefl|].
  rewrite release_unfold. case_bool_decide; [apply Hrefl|].
  apply (preserves_bind R Htrans); [|intros _; apply Hsteps].
  apply (preserves_forEach R Hrefl Htrans). intros d _. apply IH.
Qed.

Lemma steps_releaseSteps (R : State → State → Prop) (u : string) :
  (∀ s, R s s) → (∀ s1 s2 s3, R s1 s2 → R s2 s3 → R s1 s3) →
  (∀ contractArtifact, preserves R (releaseWork env u contractArtifact)) →
  (∀ s, R s (markReleased u s).2) →
  preserves R (releaseSteps env u).
Proof.
  intros Hrefl Htrans Hwork Hmark s. rewrite releaseSteps_run.
  destruct (artifacts_require env u) as [art|]; [|apply Hrefl].
  specialize (Hwork art s).
  destruct (releaseWork env u art s) as [[[]|e|] s1]; simpl in *; [|done..].
  eapply Htrans; [exact Hwork | apply Hmark].
Qed.

End ReleaseSteps.

(** ** A released name is left alone, and links are canonical *)

Section Sound.

Variable env : Env.

Lemma engaged_ext (u : string) (s s' : State) :
  trace s' = trace s → released s' = released s → addresses s' = addresses s →
  engaged env u s → engaged env u s'.
Proof.
  intros Ht Hr Ha. unfold engaged, sound, consistent, canonical.
  by rewrite Ht, Hr, Ha.
Qed.

Lemma engaged_afterInstantiate (u : string) (s : State) :
  engaged env u s → engaged env u (afterInstantiate env s).
Proof.
  apply engaged_ext; unfold afterInstantiate; by destruct (dry_run env).
Qed.

Lemma engaged_event (u : string) (s : State) (e : Event) :
  unit_of e = u → (∀ n, e ≠ EvReleased n) →
  (∀ x d a, e = EvLink x d a → d ∈ released s ∧ addresses s !! d = Some a) →
  engaged env u s → engaged env u (with_trace (λ t, t ++ [e]) s).
Proof.
  intros He Hn Hlink ((Hcons & Hunt & Hcan) & Hready & Hnot).
  destruct (working_event env u s e He Hn (conj Hcons Hready)) as [Hcons' Hready'].
  split; [split; [done | split] | by split].
  - simpl. apply untouched_snoc; [done|]. rewrite He. by rewrite <- (proj2 Hcons u).
  - intros x d a Hin. simpl in *. apply elem_of_app in Hin as [Hin|Hin]; [by apply (Hcan x)|].
    apply list_elem_of_singleton in Hin. symmetry in Hin. by apply (Hlink x).
Qed.

Lemma engaged_set (u : string) (s : State) (a : Address) :
  engaged env u s → engaged env u (with_addresses (λ table, <[u := a]> table) s).
Proof.
  intros ((Hcons & Hunt & Hcan) & Hready & Hnot).
  split; [split; [done | split; [done|]] | by split].
  intros x d a' Hin. destruct (Hcan x d a' Hin) as [Hd Ha]. split; [done|]. simpl.
  rewrite lookup_insert_ne; [done|]. by intros ->.
Qed.

Lemma engaged_mark (u : string) (s : State) :
  engaged env u s → sound env (markReleased u s).2.
Proof.
  intros ((Hcons & Hunt & Hcan) & Hready & Hnot).
  destruct (working_mark env u s (conj Hcons Hready)) as [Hcons' _].
  split; [done | split].
  - simpl. apply untouched_snoc; [done|]. simpl. by rewrite <- (proj2 Hcons u).
  - intros x d a Hin. simpl in *. apply elem_of_app in Hin as [Hin|Hin].
    + destruct (Hcan x d a Hin) as [Hd Ha]. split; [by apply elem_of_union_r | done].
    + by apply list_elem_of_singleton in Hin.
Qed.

Lemma phase_trans (u : string) (s1 s2 s3 : State) :
  phase env u s1 s2 → phase env u s2 s3 → phase env u s1 s3.
Proof. intros H12 H23 H. by apply H23, H12. Qed.

Lemma phase_implementation (u : string) (s : State) :
  phase env u s (afterImplementation env u s).
Proof.
  intros H. unfold afterImplementation.
  apply engaged_event; [done | done | done | by apply engaged_afterInstantiate].
Qed.

Lemma phase_proxy (u : string) (s : State) : phase env u s (afterProxy env u s).
Proof.
  intros H. apply engaged_afterInstantiate in H.
  pose proof (engaged_event u _ (EvProxy u (nextAddress env s)) eq_refl
                (λ n, ltac:(discriminate)) (λ x d a, ltac:(discriminate)) H) as H1.
  unfold afterProxy. destruct (dry_run env); [exact H1|].
  destruct (addresses s !! "Governance") as [g|]; [|exact H1].
  pose proof (engaged_event u _ (EvTransferOwnership u g) eq_refl
                (λ n, ltac:(discriminate)) (λ x d a, ltac:(discriminate)) H1) as H2.
  revert H2. apply engaged_ext; simpl; [|done..]. by rewrite <- app_assoc.
Qed.

Lemma phase_link (u : string) (s : State) (d : string) (a : Address) :
  d ∈ dependencies_get env u → addresses s !! d = Some a →
  phase env u s (with_trace (λ t, t ++ [EvLink u d a]) s).
Proof.
  intros Hd Ha H. apply engaged_event; [done | done | | done].
  intros x d' a' [= <- <- <-]. split; [|done].
  destruct H as ((Hcons & _) & Hready & _). apply Hcons. by apply Hready.
Qed.

Lemma releaseWork_phase (u : string) (contractArtifact : Artifact) :
  preserves (phase env u) (releaseWork env u contractArtifact).
Proof.
  apply steps_releaseWork.
  - by intros s H.
  - apply phase_trans.
  - intros _. apply phase_implementation.
  - intros _ _. apply phase_proxy.
  - intros _ _ s a H. by apply engaged_set.
  - intros _ _ s a H. by apply engaged_set.
  - intros _ s tx. unfold phase. by apply engaged_ext.
  - apply phase_link.
Qed.

Lemma releaseSteps_engaged (u : string) (s : State) :
  engaged env u s → sound env (releaseSteps env u s).2.
Proof.
  intros H. rewrite releaseSteps_run.
  destruct (artifacts_require env u) as [art|]; [|by destruct H].
  pose proof (releaseWork_phase u art s H) as Hwork.
  destruct (releaseWork env u art s) as [[[]|e|] s1]; simpl in *;
    [by apply engaged_mark | by destruct Hwork..].
Qed.

Lemma keepsSound_refl (s : State) : keepsSound env s s.
Proof. by intros ?. Qed.

Lemma keepsSound_trans (s1 s2 s3 : State) :
  keepsSound env s1 s2 → keepsSound env s2 s3 → keepsSound env s1 s3.
Proof. intros H12 H23 H. by apply H23, H12. Qed.

Lemma release_sound (fuel : nat) (contractName : string) :
  preserves (keepsSound env) (release env fuel contractName).
Proof.
  revert contractName. induction fuel as [|fuel IH]; intros contractName s.
  - apply keepsSound_refl.
  - rewrite release_unfold. case_bool_decide as Hin; [apply keepsSound_refl|].
    intros Hs. rewrite bind_run.
    pose proof (preserves_forEach (keepsSound env) keepsSound_refl keepsSound_trans
                  (release env fuel) (dependencies_get env contractName) (λ d _, IH d) s Hs)
      as Hs1.
    pose proof (dependencies_keep_pending env fuel contractName s Hin) as Hpending.
    unfold afterDependencies in Hpending.
    destruct (forEach (release env fuel) (dependencies_get env contractName) s)
      as [[[]|e|] s1] eqn:Hdeps; simpl in Hs1, Hpending; [|done..].
    apply releaseSteps_engaged. split; [done | split; [|done]].
    intros d Hd. apply Hs1. by eapply forEach_release_Ok.
Qed.

Lemma initial_sound : sound env (initial env).
Proof.
  split; [apply initial_consistent | split; [apply untouched_nil|]].
  intros u d a Hin. by apply not_elem_of_nil in Hin.
Qed.

Lemma module_exports_sound (fuel : nat) : sound env (module_exports env fuel).2.
Proof.
  unfold module_exports.
  assert (preserves (keepsSound env)
            (traverse env fuel ;;;
             forEach push (extras (property ("Exchange" +:+ fiat_ticket))
                                  (property ("Exchange" +:+ fiat_ticket))) ;;;
             λ s, (Ok (proposal s), s))) as H.
  { apply (preserves_bind _ keepsSound_trans).
    - unfold traverse. apply (preserves_forEach _ keepsSound_refl keepsSound_trans).
      intros name _. destruct (_ && _); [apply release_sound|].
      apply preserves_ret, keepsSound_refl.
    - intros _. apply (preserves_bind _ keepsSound_trans); [|intros _ s; apply keepsSound_refl].
      apply (preserves_forEach _ keepsSound_refl keepsSound_trans).
      intros tx _ s. by intros ?. }
  apply H, initial_sound.
Qed.

Lemma untouched_split (tr : list Event) :
  untouched tr →
  ∀ before e after, tr = before ++ e :: after → EvReleased (unit_of e) ∉ before.
Proof.
  induction 1 as [|tr e0 Hunt IH Hfresh]; intros before e after Heq.
  - by destruct before.
  - destruct after as [|x after _] using rev_ind.
    + apply app_inj_tail in Heq as [-> ->]. done.
    + rewrite app_comm_cons, app_assoc in Heq. apply app_inj_tail in Heq as [Heq _].
      by eapply IH.
Qed.

End Sound.

(** ** The registry entries agree with the table *)

Section Registered.

Variable env : Env.

Lemma afterProxy_addresses (contractName : string) (s : State) :
  addresses (afterProxy env contractName s) = addresses s.
Proof. unfold afterProxy, afterInstantiate. by destruct (dry_run env). Qed.

Lemma afterProxy_released (contractName : string) (s : State) :
  released (afterProxy env contractName s) = released s.
Proof. unfold afterProxy, afterInstantiate. by destruct (dry_run env). Qed.

Lemma sameTables_refl (s : State) : sameTables s s.
Proof. done. Qed.

Lemma sameTables_trans (s1 s2 s3 : State) :
  sameTables s1 s2 → sameTables s2 s3 → sameTables s1 s3.
Proof. intros (? & ? & ?) (? & ? & ?). repeat split; congruence. Qed.

Lemma sameTables_afterImplementation (u : string) (s : State) :
  sameTables s (afterImplementation env u s).
Proof.
  split; [apply afterImplementation_addresses | split];
    [apply afterImplementation_released | apply afterImplementation_proposal].
Qed.

Lemma sameTables_afterProxy (u : string) (s : State) : sameTables s (afterProxy env u s).
Proof.
  split; [apply afterProxy_addresses | split];
    [apply afterProxy_released | apply afterProxy_proposal].
Qed.

Lemma link_sameTables (u : string) (l : list string) : preserves sameTables (link u l).
Proof.
  apply (preserves_link sameTables u sameTables_refl sameTables_trans). by intros s e _ _.
Qed.

Lemma deployProxy_sameTables (u : string) : preserves sameTables (deployProxy env u).
Proof.
  intros s. destruct (decide (u = "Governance")) as [->|Hne]; [done|].
  rewrite deployProxy_run by done.
  destruct (artifacts_require env _); [|done]. destruct (_ || _); apply sameTables_afterProxy.
Qed.

Lemma deployLibrary_run (u : string) (contractArtifact : Artifact) (s : State) :
  deployLibrary env u contractArtifact s
  = (Ok tt, with_addresses (λ table, <[u := nextAddress env s]> table)
              (afterImplementation env u s)).
Proof. unfold deployLibrary. by rewrite bind_run, deployImplementation_run. Qed.

Lemma setImplementationTx_not_registry (u : string) (a : Address) (n p : string) :
  setAddressForTx n p ≠ setImplementationTx u a.
Proof. discriminate. Qed.

Lemma setAndInitialize_not_registry (tx : ProposalTx) (callData : string) (n p : string) :
  setAddressForTx n p ≠ setAndInitialize tx callData.
Proof. discriminate. Qed.

Lemma deployedFor_sameTables (u : string) (s s' : State) :
  sameTables s s' → deployedFor u s s'.
Proof.
  intros (Ha & Hr & Hp). split; [done | split; [by left|]]. exists [].
  split; [by rewrite app_nil_r | intros n p Hin; by apply not_elem_of_nil in Hin].
Qed.

Lemma deployCoreContract_deployedFor (u : string) (instance : Artifact) (s : State) :
  deployedFor u s (deployCoreContract env u instance s).2.
Proof.
  destruct (findFunction "getVersionNumber" (abi instance)) as [v|] eqn:Hv; cycle 1.
  { apply findFunction_None in Hv. rewrite deployCoreContract_unversioned by done.
    apply deployedFor_sameTables, sameTables_afterImplementation. }
  apply mk_is_Some, findFunction_is_Some in Hv.
  destruct (shouldDeployProxy (report env) u) as [[|]|] eqn:Hf.
  - pose proof (deployProxy_sameTables u (afterImplementation env u s)) as Hproxy.
    pose proof (total_deployProxy env u (afterImplementation env u s)) as Htot.
    destruct (deployProxy env u (afterImplementation env u s)) as [[proxy|e|] s2] eqn:Hp;
      simpl in Hproxy, Htot; [| |done].
    + rewrite (deployCoreContract_new_proxy env _ _ _ _ _ Hv Hf Hp).
      pose proof (sameTables_trans _ _ _ (sameTables_afterImplementation u s) Hproxy)
        as (Ha & Hr & Hpr).
      assert (∀ l s', (∀ n p, setAddressForTx n p ∉ l) →
                released s' = released s2 →
                addresses s' = <[u := address proxy]> (addresses s2) →
                proposal s' = (proposal s2 ++ [setAddressForTx u (address proxy)]) ++ l →
                deployedFor u s s') as Hentry.
      { intros l s' Hl Hr' Ha' Hp'.
        split; [congruence | split; [right; exists (address proxy); congruence|]].
        exists (setAddressForTx u (address proxy) :: l).
        split; [rewrite Hp', Hpr; by rewrite <- app_assoc|].
        intros n p Hin. apply elem_of_cons in Hin as [Hin|Hin]; [|by destruct (Hl n p)].
        injection Hin as -> ->. split; [done|]. rewrite Ha'. apply lookup_insert_eq. }
      destruct (findFunction "initialize" (abi instance)) as [ini|];
        [destruct (encodeFunctionCall env ini _) as [cd|]|]; cbn [snd].
      * apply (Hentry [setAndInitialize (setImplementationTx u (nextAddress env s)) cd]);
          [|done..].
        intros n p Hin. apply list_elem_of_singleton in Hin. discriminate.
      * apply (Hentry []); [intros n p; apply not_elem_of_nil | done | done|].
        by rewrite app_nil_r.
      * apply (Hentry [setImplementationTx u (nextAddress env s)]); [|done..].
        intros n p Hin. apply list_elem_of_singleton in Hin. discriminate.
    + rewrite (deployCoreContract_proxy_fails env _ _ _ _ _ Hv Hf Hp).
      apply deployedFor_sameTables.
      eapply sameTables_trans; [apply sameTables_afterImplementation | done].
  - rewrite deployCoreContract_implementation_only by done. cbn [snd].
    destruct (sameTables_afterImplementation u s) as (Ha & Hr & Hpr).
    split; [done | split; [by left|]].
    exists [setImplementationTx u (nextAddress env s)].
    rewrite proposal_with_proposal, Hpr. split; [done|].
    intros n p Hin. apply list_elem_of_singleton in Hin. discriminate.
  - rewrite deployCoreContract_no_entry by done.
    apply deployedFor_sameTables, sameTables_afterImplementation.
Qed.

Lemma deployLibrary_deployedFor (u : string) (contractArtifact : Artifact) (s : State) :
  deployedFor u s (deployLibrary env u contractArtifact s).2.
Proof.
  rewrite deployLibrary_run. cbn [snd].
  split; [apply afterImplementation_released | split].
  - right. exists (nextAddress env s).
    change (<[u := nextAddress env s]> (addresses (afterImplementation env u s))
            = <[u := nextAddress env s]> (addresses s)).
    by rewrite afterImplementation_addresses.
  - exists []. split; [|intros n p Hin; by apply not_elem_of_nil in Hin].
    rewrite app_nil_r. apply afterImplementation_proposal.
Qed.

Lemma settled_registered (s : State) : settled s → registered s.
Proof. intros H n p Hin. by apply H. Qed.

(** After a deployment for an unreleased [u], from a settled state: the
    registry entries agree with the table, and once [u] is marked the state
    is settled again. *)
Lemma deployedFor_settled (u : string) (s s' : State) :
  settled s → u ∉ released s → deployedFor u s s' →
  registered s' ∧ settled (markReleased u s').2.
Proof.
  intros Hs Hnot (Hr & Ha & l & Hp & Hl).
  assert (∀ n p, setAddressForTx n p ∈ proposal s' →
                 (n ∈ released s' ∨ n = u) ∧ addresses s' !! n = Some p) as Hmid.
  { intros n p Hin. rewrite Hp in Hin. apply elem_of_app in Hin as [Hin|Hin].
    - destruct (Hs n p Hin) as [Hn Hnp]. rewrite Hr. split; [by left|].
      destruct Ha as [-> | [a ->]]; [done|].
      rewrite lookup_insert_ne; [done|]. by intros ->.
    - destruct (Hl n p Hin) as [-> Hu]. by split; [right|]. }
  split.
  - intros n p Hin. by apply Hmid.
  - intros n p Hin. destruct (Hmid n p Hin) as [[Hn| ->] Hnp]; split; try done; simpl.
    + by apply elem_of_union_r.
    + apply elem_of_union_l. by apply elem_of_singleton.
Qed.

Lemma releaseWork_deployedFor (u : string) (contractArtifact : Artifact) (s : State) :
  deployedFor u s (releaseWork env u contractArtifact s).2.
Proof.
  unfold releaseWork. rewrite bind_run.
  pose proof (link_sameTables u (dependencies_get env u) s) as Hlink.
  destruct (link u (dependencies_get env u) s) as [[[]|e|] s1]; simpl in Hlink;
    [|by apply deployedFor_sameTables..].
  destruct Hlink as (Ha1 & Hr1 & Hp1).
  assert (∀ s2, deployedFor u s1 s2 → deployedFor u s s2) as Hfrom.
  { unfold deployedFor. by rewrite Ha1, Hr1, Hp1. }
  apply Hfrom.
  destruct (bool_decide _); [apply deployCoreContract_deployedFor|].
  destruct (bool_decide _); [apply deployLibrary_deployedFor|].
  by apply deployedFor_sameTables.
Qed.

(** The steps of [release] for a name not yet released. *)
Lemma releaseSteps_settled (u : string) (s : State) :
  settled s → u ∉ released s →
  registered (releaseSteps env u s).2
  ∧ ((releaseSteps env u s).1 = Ok tt → settled (releaseSteps env u s).2).
Proof.
  intros Hs Hnot. rewrite releaseSteps_run.
  destruct (artifacts_require env u) as [art|]; [|split; [by apply settled_registered | done]].
  destruct (deployedFor_settled u s _ Hs Hnot (releaseWork_deployedFor u art s)) as [Hreg Hset].
  destruct (releaseWork env u art s) as [[[]|e|] s1]; simpl in *; [|by split..].
  split; [by apply settled_registered | done].
Qed.

Lemma release_settled (fuel : nat) :
  ∀ name s, settled s →
    registered (release env fuel name s).2
    ∧ ((release env fuel name s).1 = Ok tt → settled (release env fuel name s).2).
Proof.
  induction fuel as [|fuel IH]; intros name s Hs; [split; [by apply settled_registered | done]|].
  rewrite release_unfold. case_bool_decide as Hin; [split; [by apply settled_registered | done]|].
  assert (∀ l s0, settled s0 →
            registered (forEach (release env fuel) l s0).2
            ∧ ((forEach (release env fuel) l s0).1 = Ok tt →
               settled (forEach (release env fuel) l s0).2)) as Hlist.
  { induction l as [|d l IHl]; intros s0 Hs0; [split; [by apply settled_registered | done]|].
    simpl. rewrite bind_run. destruct (IH d s0 Hs0) as [Hreg Hset].
    destruct (release env fuel d s0) as [[[]|e|] s1]; simpl in *; [|by split..].
    by apply IHl, Hset. }
  rewrite bind_run.
  destruct (Hlist (dependencies_get env name) s Hs) as [Hreg Hset].
  pose proof (dependencies_keep_pending env fuel name s Hin) as Hpending.
  unfold afterDependencies in Hpending.
  destruct (forEach (release env fuel) (dependencies_get env name) s) as [[[]|e|] s1];
    simpl in *; [|by split..].
  by apply releaseSteps_settled; [apply Hset|].
Qed.

Lemma module_exports_registered (fuel : nat) : registered (module_exports env fuel).2.
Proof.
  unfold module_exports. rewrite bind_run.
  assert (∀ l s0, settled s0 →
            registered (forEach (λ contractName,
                          if isCoreContract env contractName && isProxiedContract env contractName
                          then release env fuel contractName else ret tt) l s0).2
            ∧ ((forEach (λ contractName,
                  if isCoreContract env contractName && isProxiedContract env contractName
                  then release env fuel contractName else ret tt) l s0).1 = Ok tt →
               settled (forEach (λ contractName,
                          if isCoreContract env contractName && isProxiedContract env contractName
                          then release env fuel contractName else ret tt) l s0).2)) as Hlist.
  { induction l as [|d l IHl]; intros s0 Hs0; [split; [by apply settled_registered | done]|].
    simpl. rewrite bind_run.
    destruct (isCoreContract env d && isProxiedContract env d).
    - destruct (release_settled fuel d s0 Hs0) as [Hreg Hset].
      destruct (release env fuel d s0) as [[[]|e|] s1]; simpl in *; [|by split..].
      by apply IHl, Hset.
    - by apply IHl. }
  destruct (Hlist (env_contracts env) (initial env)) as [Hreg Hset].
  { intros n p Hin. by apply not_elem_of_nil in Hin. }
  fold (traverse env fuel) in Hreg, Hset.
  destruct (traverse env fuel (initial env)) as [[[]|e|] s1]; simpl in *; [|done..].
  intros n p Hin. apply (settled_registered s1); [by apply Hset|].
  repeat (apply elem_of_app in Hin as [Hin|Hin];
          [|apply list_elem_of_singleton in Hin; discriminate Hin]).
  exact Hin.
Qed.

End Registered.

(** ** Dry runs *)

Section Dry.

Variable env : Env.

Hypothesis dry : dry_run env = true.

Lemma dryRun_refl (s : State) : dryRun env s s.
Proof. split; [done|]. exists []. by rewrite app_nil_r. Qed.

Lemma dryRun_same (s s' : State) :
  deployed s' = deployed s → trace s' = trace s → dryRun env s s'.
Proof. intros Hd Ht. split; [done|]. exists []. by rewrite app_nil_r. Qed.

Lemma dryRun_trans (s1 s2 s3 : State) :
  dryRun env s1 s2 → dryRun env s2 s3 → dryRun env s1 s3.
Proof.
  intros [Hd1 (t1 & Ht1 & Hf1)] [Hd2 (t2 & Ht2 & Hf2)]. split; [congruence|].
  exists (t1 ++ t2). split; [by rewrite Ht2, Ht1, app_assoc | by apply Forall_app].
Qed.

Lemma dryRun_event (s : State) (e : Event) :
  dryEvent env e → dryRun env s (with_trace (λ t, t ++ [e]) s).
Proof. intros He. split; [done|]. exists [e]. split; [done | by apply Forall_singleton]. Qed.

Lemma dryRun_implementation (u : string) (s : State) :
  dryRun env s (afterImplementation env u s).
Proof.
  unfold afterImplementation, afterInstantiate, nextAddress. rewrite dry.
  by apply dryRun_event.
Qed.

Lemma dryRun_proxy (u : string) (s : State) : dryRun env s (afterProxy env u s).
Proof.
  unfold afterProxy, afterInstantiate, nextAddress. rewrite dry. by apply dryRun_event.
Qed.

Lemma releaseSteps_dryRun (u : string) : preserves (dryRun env) (releaseSteps env u).
Proof.
  apply steps_releaseSteps; [apply dryRun_refl | apply dryRun_trans | |].
  - intros art. apply steps_releaseWork;
      [apply dryRun_refl | apply dryRun_trans | intros _; apply dryRun_implementation
      | intros _ _; apply dryRun_proxy | intros _ _ s a; by apply dryRun_same
      | intros _ _ s a; by apply dryRun_same | intros _ s tx; by apply dryRun_same |].
    intros s d a _ _. by apply dryRun_event.
  - intros s. split; [done|]. exists [EvReleased u]. split; [done|].
    by apply Forall_singleton.
Qed.

Lemma module_exports_dryRun (fuel : nat) :
  dryRun env (initial env) (module_exports env fuel).2.
Proof.
  unfold module_exports.
  assert (preserves (dryRun env)
            (traverse env fuel ;;;
             forEach push (extras (property ("Exchange" +:+ fiat_ticket))
                                  (property ("Exchange" +:+ fiat_ticket))) ;;;
             λ s, (Ok (proposal s), s))) as H; [|apply H].
  apply (preserves_bind _ dryRun_trans).
  - unfold traverse. apply (preserves_forEach _ dryRun_refl dryRun_trans).
    intros name _. destruct (_ && _); [|apply preserves_ret, dryRun_refl].
    apply (release_preserves env _ dryRun_refl dryRun_trans releaseSteps_dryRun).
  - intros _. apply (preserves_bind _ dryRun_trans); [|intros _ s; apply dryRun_refl].
    apply (preserves_forEach _ dryRun_refl dryRun_trans). intros tx _ s. by apply dryRun_same.
Qed.

End Dry.

(** ** Releases that deploy nothing, and growth *)

Section Idle.

Variable env : Env.

Lemma idle_refl (s : State) : idle s s.
Proof. done. Qed.

Lemma idle_trans (s1 s2 s3 : State) : idle s1 s2 → idle s2 s3 → idle s1 s3.
Proof. intros (? & ? & ?) (? & ? & ?). repeat split; congruence. Qed.

Lemma releaseSteps_idle (u : string) :
  contracts (report env) !! u = None → libraries (report env) !! u = None →
  preserves idle (releaseSteps env u).
Proof.
  intros Hc Hl. apply steps_releaseSteps; [apply idle_refl | apply idle_trans | | done].
  intros art. unfold releaseWork. rewrite Hc, Hl.
  rewrite !bool_decide_eq_false_2 by (by intros [? ?]).
  apply (preserves_bind _ idle_trans); [|intros _; apply preserves_ret, idle_refl].
  apply (preserves_link idle u idle_refl idle_trans). by intros s e _ _.
Qed.

(** A relation the steps of every name within reach respect is respected by
    the release. *)
Lemma release_preserves_within (R : State → State → Prop) (harmless : string → Prop) :
  (∀ s, R s s) → (∀ s1 s2 s3, R s1 s2 → R s2 s3 → R s1 s3) →
  (∀ n, harmless n → preserves R (releaseSteps env n)) →
  ∀ fuel name,
    (∀ n, dependsOn env name n → harmless n) →
    preserves R (release env fuel name).
Proof.
  intros Hrefl Htrans Hsteps fuel.
  induction fuel as [|fuel IH]; intros name Hreach s; [apply Hrefl|].
  rewrite release_unfold. case_bool_decide; [apply Hrefl|].
  apply (preserves_bind R Htrans).
  - apply (preserves_forEach R Hrefl Htrans). intros d Hd. apply IH.
    intros n Hn. apply Hreach. by eapply dependsOn_step.
  - intros _. apply Hsteps, Hreach, dependsOn_refl.
Qed.

Lemma extends_refl (s : State) : extends s s.
Proof.
  split; [exists []; by rewrite app_nil_r | split; [exists []; by rewrite app_nil_r|done]].
Qed.

Lemma extends_trans (s1 s2 s3 : State) : extends s1 s2 → extends s2 s3 → extends s1 s3.
Proof.
  intros ((l1 & Hl1) & (t1 & Ht1) & Hd1 & Hr1) ((l2 & Hl2) & (t2 & Ht2) & Hd2 & Hr2).
  split; [exists (l1 ++ l2); by rewrite Hl2, Hl1, app_assoc|].
  split; [exists (t1 ++ t2); by rewrite Ht2, Ht1, app_assoc|].
  split; [lia | by etrans].
Qed.

Lemma extends_event (s : State) (e : Event) : extends s (with_trace (λ t, t ++ [e]) s).
Proof.
  split; [exists []; by rewrite app_nil_r | split; [by exists [e] | done]].
Qed.

Lemma extends_afterInstantiate (s : State) : extends s (afterInstantiate env s).
Proof.
  unfold afterInstantiate. destruct (dry_run env); [apply extends_refl|].
  split; [exists []; by rewrite app_nil_r | split; [exists []; by rewrite app_nil_r|]].
  split; [simpl; lia | done].
Qed.

Lemma releaseSteps_extends (u : string) : preserves extends (releaseSteps env u).
Proof.
  apply steps_releaseSteps; [apply extends_refl | apply extends_trans | |].
  - intros art. apply steps_releaseWork; [apply extends_refl | apply extends_trans | ..].
    + intros _ s. eapply extends_trans; [apply extends_afterInstantiate | apply extends_event].
    + intros _ _ s. eapply extends_trans; [apply extends_afterInstantiate|].
      unfold afterProxy.
      split; [exists []; by rewrite app_nil_r | split; [by eexists | done]].
    + intros _ _ s a. split; [exists []; by rewrite app_nil_r|].
      split; [exists []; by rewrite app_nil_r | done].
    + intros _ _ s a. split; [exists []; by rewrite app_nil_r|].
      split; [exists []; by rewrite app_nil_r | done].
    + intros _ s tx. split; [by exists [tx] | split; [exists []; by rewrite app_nil_r | done]].
    + intros s d a _ _. apply extends_event.
  - intros s. split; [exists []; by rewrite app_nil_r | split; [by exists [EvReleased u]|]].
    split; [done | simpl; apply union_subseteq_r].
Qed.

End Idle.

(** ** The budget *)

Section Budget.

Variable env : Env.

Lemma forEach_stable {A} (g g' : A → M unit) (l : list A) :
  (∀ x s, (g x s).1 ≠ OutOfFuel → g' x s = g x s) →
  ∀ s, (forEach g l s).1 ≠ OutOfFuel → forEach g' l s = forEach g l s.
Proof.
  intros Hg. induction l as [|x l IH]; intros s Hs; [done|].
  simpl in *. rewrite !bind_run in *.
  destruct (g x s) as [r s1] eqn:Hx.
  assert (g' x s = (r, s1)) as ->.
  { rewrite Hg; [done|]. rewrite Hx. simpl. by destruct r. }
  destruct r as [[]|e|]; [by apply IH | done..].
Qed.

(** One more unit of budget does not change a result. *)
Lemma release_stable (fuel : nat) :
  ∀ name s, (release env fuel name s).1 ≠ OutOfFuel →
            release env (S fuel) name s = release env fuel name s.
Proof.
  induction fuel as [|fuel IH]; intros name s Hs; [done|].
  rewrite (release_unfold env (S fuel)), (release_unfold env fuel).
  rewrite (release_unfold env fuel) in Hs.
  case_bool_decide; [done|]. rewrite !bind_run in *.
  destruct (forEach (release env fuel) (dependencies_get env name) s) as [r s1] eqn:Hdeps.
  rewrite (forEach_stable (release env fuel) (release env (S fuel))); [by rewrite Hdeps | | ].
  - intros x s0 Hx. by apply IH.
  - rewrite Hdeps. simpl. by destruct r.
Qed.

Lemma release_stable_le (fuel fuel' : nat) (name : string) (s : State) :
  fuel ≤ fuel' → (release env fuel name s).1 ≠ OutOfFuel →
  release env fuel' name s = release env fuel name s.
Proof.
  intros Hle Hs. induction Hle as [|fuel' Hle IH]; [done|].
  rewrite release_stable; [done|]. by rewrite IH.
Qed.

Lemma module_exports_stable_le (fuel fuel' : nat) :
  fuel ≤ fuel' → (module_exports env fuel).1 ≠ OutOfFuel →
  module_exports env fuel' = module_exports env fuel.
Proof.
  intros Hle. unfold module_exports. rewrite !bind_run. intros Hs.
  assert (traverse env fuel' (initial env) = traverse env fuel (initial env)) as ->; [|done].
  unfold traverse. apply forEach_stable.
  - intros name s Hn. destruct (_ && _); [|done]. by apply release_stable_le.
  - fold (traverse env fuel).
    destruct (traverse env fuel (initial env)) as [[[]|e|] s1]; done.
Qed.

(** With a rank that decreases along the dependency lists, a budget above
    the ranks of the listed names is enough for the run. *)
Lemma module_exports_total (rank : string → nat) (fuel : nat) :
  (∀ u d, d ∈ dependencies_get env u → rank d < rank u) →
  (∀ n, n ∈ env_contracts env → rank n < fuel) →
  (module_exports env fuel).1 ≠ OutOfFuel.
Proof.
  intros Hrank Hfuel. unfold module_exports.
  apply total_bind; [|intros _; apply total_bind; [|done]].
  - unfold traverse. apply total_forEach. intros name Hname.
    destruct (_ && _); [|apply total_ret]. apply (release_total env rank Hrank). by apply Hfuel.
  - apply total_forEach. by intros tx _ s.
Qed.

(** A name on a cycle of unreleased names is never released. *)
Lemma traverse_cycle (P : string → Prop) (fuel : nat) (l : list string) (s : State) :
  (∀ p, P p → ∃ d, d ∈ dependencies_get env p ∧ P d) →
  unreleased P s →
  (∃ r, r ∈ l ∧ P r ∧ isCoreContract env r && isProxiedContract env r = true) →
  (forEach (λ contractName,
      if isCoreContract env contractName && isProxiedContract env contractName
      then release env fuel contractName else ret tt) l s).1 ≠ Ok tt.
Proof.
  intros Hcycle. revert s. induction l as [|x l IH]; intros s Hun (r & Hr & HP & Hroot).
  - by apply not_elem_of_nil in Hr.
  - simpl. rewrite bind_run.
    destruct (isCoreContract env x && isProxiedContract env x) eqn:Hx.
    + destruct (release_keeps_pending env fuel x s P Hun) as [Hun1 Hnot].
      { intros p Hp. destruct (Hcycle p Hp) as (d & Hd & HPd). exists d. by split; [|left]. }
      destruct (release env fuel x s) as [[[]|e|] s1]; simpl in *; [|done..].
      apply IH; [done|]. apply elem_of_cons in Hr as [->|Hr]; [by destruct Hnot|].
      by exists r.
    + apply IH; [done|]. apply elem_of_cons in Hr as [->|Hr]; [congruence|]. by exists r.
Qed.

End Budget.



(** ** From the steps of one release to the whole run *)

Section Lift.

Variable env : Env.
Variable R : State → State → Prop.

Hypothesis R_refl : ∀ s, R s s.
Hypothesis R_trans : ∀ s1 s2 s3, R s1 s2 → R s2 s3 → R s1 s3.
Hypothesis R_steps : ∀ u, preserves R (releaseSteps env u).
Hypothesis R_push : ∀ s tx, R s (with_proposal (λ p, p ++ [tx]) s).

Lemma module_exports_preserves (fuel : nat) : R (initial env) (module_exports env fuel).2.
Proof.
  unfold module_exports.
  assert (preserves R
            (traverse env fuel ;;;
             forEach push (extras (property ("Exchange" +:+ fiat_ticket))
                                  (property ("Exchange" +:+ fiat_ticket))) ;;;
             λ s, (Ok (proposal s), s))) as H; [|apply H].
  apply (preserves_bind _ R_trans).
  - unfold traverse. apply (preserves_forEach _ R_refl R_trans).
    intros name _. destruct (_ && _); [|apply preserves_ret, R_refl].
    apply (release_preserves env _ R_refl R_trans R_steps).
  - intros _. apply (preserves_bind _ R_trans); [|intros _ s; apply R_refl].
    apply (preserves_forEach _ R_refl R_trans). intros tx _ s. apply R_push.
Qed.

End Lift.

(** ** Only what the report names is deployed *)

Section Justified.

Variable env : Env.

Lemma justified_refl (s : State) : justified env s s.
Proof. exists []. by rewrite app_nil_r. Qed.

Lemma justified_same (s s' : State) : trace s' = trace s → justified env s s'.
Proof. intros Ht. exists []. by rewrite app_nil_r. Qed.

Lemma justified_trans (s1 s2 s3 : State) :
  justified env s1 s2 → justified env s2 s3 → justified env s1 s3.
Proof.
  intros (t1 & Ht1 & Hf1) (t2 & Ht2 & Hf2).
  exists (t1 ++ t2). split; [by rewrite Ht2, Ht1, app_assoc | by apply Forall_app].
Qed.

Lemma justified_afterImplementation (u : string) (s : State) :
  reported env u → justified env s (afterImplementation env u s).
Proof.
  intros Hu. exists [EvInstance u (nextAddress env s)]. split; [|by apply Forall_singleton].
  unfold afterImplementation, afterInstantiate. by destruct (dry_run env).
Qed.

Lemma justified_afterProxy (u : string) (s : State) :
  shouldDeployProxy (report env) u = Some true → u ≠ "Governance" →
  justified env s (afterProxy env u s).
Proof.
  intros Hf Hne.
  exists (EvProxy u (nextAddress env s) ::
            (if dry_run env then []
             else match addresses s !! "Governance" with
                  | Some governance => [EvTransferOwnership u governance]
                  | None => []
                  end)).
  split.
  - unfold afterProxy, afterInstantiate. by destruct (dry_run env).
  - apply Forall_cons. split; [done|].
    destruct (dry_run env); [done|]. destruct (addresses _ !! _); [|done].
    by apply Forall_singleton.
Qed.

Lemma releaseSteps_justified (u : string) : preserves (justified env) (releaseSteps env u).
Proof.
  apply steps_releaseSteps; [apply justified_refl | apply justified_trans | |].
  - intros art. apply steps_releaseWork;
      [apply justified_refl | apply justified_trans
      | intros Hu s; by apply justified_afterImplementation
      | intros Hf Hne s; by apply justified_afterProxy
      | intros _ _ s a; by apply justified_same
      | intros _ _ s a; by apply justified_same
      | intros _ s tx; by apply justified_same |].
    intros s d a Hd _. exists [EvLink u d a]. split; [done | by apply Forall_singleton].
  - intros s. exists [EvReleased u]. split; [done | by apply Forall_singleton].
Qed.

Lemma module_exports_justified (fuel : nat) :
  justified env (initial env) (module_exports env fuel).2.
Proof.
  apply module_exports_preserves;
    [apply justified_refl | apply justified_trans | apply releaseSteps_justified|].
  intros s tx. by apply justified_same.
Qed.

Lemma tableOutside_refl (s : State) : tableOutside env s s.
Proof. by intros n _. Qed.

Lemma tableOutside_trans (s1 s2 s3 : State) :
  tableOutside env s1 s2 → tableOutside env s2 s3 → tableOutside env s1 s3.
Proof. intros H1 H2 n Hn. by rewrite H2, H1. Qed.

Lemma tableOutside_same (s s' : State) :
  addresses s' = addresses s → tableOutside env s s'.
Proof. intros Ha n _. by rewrite Ha. Qed.

Lemma tableOutside_set (u : string) (a : Address) (s : State) :
  rewritable env u → tableOutside env s (with_addresses (λ table, <[u := a]> table) s).
Proof.
  intros Hu n Hn. simpl. apply lookup_insert_ne. by intros ->.
Qed.

Lemma releaseSteps_tableOutside (u : string) :
  preserves (tableOutside env) (releaseSteps env u).
Proof.
  apply steps_releaseSteps; [apply tableOutside_refl | apply tableOutside_trans | |].
  - intros art. apply steps_releaseWork;
      [apply tableOutside_refl | apply tableOutside_trans
      | intros _ s; apply tableOutside_same, afterImplementation_addresses
      | intros _ _ s; apply tableOutside_same, afterProxy_addresses
      | intros Hf Hne s a; apply tableOutside_set; by left
      | intros Hc Hl s a; apply tableOutside_set; by right
      | intros _ s tx; by apply tableOutside_same |].
    intros s d a _ _. by apply tableOutside_same.
  - intros s. by apply tableOutside_same.
Qed.

Lemma module_exports_tableOutside (fuel : nat) :
  tableOutside env (initial env) (module_exports env fuel).2.
Proof.
  apply module_exports_preserves;
    [apply tableOutside_refl | apply tableOutside_trans | apply releaseSteps_tableOutside|].
  intros s tx. by apply tableOutside_same.
Qed.

End Justified.



(** ** Invariants that hold between the releases of a run *)

Section Guarded.

Variable env : Env.
Variables Strong Weak : State → Prop.

Hypothesis weaken : ∀ s, Strong s → Weak s.
Hypothesis steps :
  ∀ u s, Strong s → u ∉ released s →
         Weak (releaseSteps env u s).2
         ∧ ((releaseSteps env u s).1 = Ok tt → Strong (releaseSteps env u s).2).

Lemma forEach_guarded {A} (f : A → M unit) (l : list A) :
  (∀ x s, Strong s → Weak (f x s).2 ∧ ((f x s).1 = Ok tt → Strong (f x s).2)) →
  ∀ s, Strong s →
       Weak (forEach f l s).2 ∧ ((forEach f l s).1 = Ok tt → Strong (forEach f l s).2).
Proof.
  intros Hf. induction l as [|x l IH]; intros s Hs; [split; [by apply weaken | done]|].
  simpl. rewrite bind_run. destruct (Hf x s Hs) as [Hweak Hstrong].
  destruct (f x s) as [[[]|e|] s1]; simpl in *; [|by split..].
  by apply IH, Hstrong.
Qed.

Lemma release_guarded (fuel : nat) :
  ∀ name s, Strong s →
    Weak (release env fuel name s).2
    ∧ ((release env fuel name s).1 = Ok tt → Strong (release env fuel name s).2).
Proof.
  induction fuel as [|fuel IH]; intros name s Hs; [split; [by apply weaken | done]|].
  rewrite release_unfold. case_bool_decide as Hin; [split; [by apply weaken | done]|].
  rewrite bind_run.
  destruct (forEach_guarded (release env fuel) (dependencies_get env name) IH s Hs)
    as [Hweak Hstrong].
  pose proof (dependencies_keep_pending env fuel name s Hin) as Hpending.
  unfold afterDependencies in Hpending.
  destruct (forEach (release env fuel) (dependencies_get env name) s) as [[[]|e|] s1];
    simpl in *; [|by split..].
  by apply steps; [apply Hstrong|].
Qed.

Lemma traverse_guarded (fuel : nat) (s : State) :
  Strong s →
  Weak (traverse env fuel s).2
  ∧ ((traverse env fuel s).1 = Ok tt → Strong (traverse env fuel s).2).
Proof.
  apply forEach_guarded. intros name s0 Hs0.
  destruct (_ && _); [by apply release_guarded | split; [by apply weaken | done]].
Qed.

End Guarded.

Section Run.

Variable env : Env.

(** The four last entries change the proposal only. *)
Lemma module_exports_trace (fuel : nat) :
  trace (module_exports env fuel).2 = trace (traverse env fuel (initial env)).2.
Proof.
  unfold module_exports. rewrite bind_run.
  by destruct (traverse env fuel (initial env)) as [[[]|e|] s1].
Qed.

Lemma module_exports_released (fuel : nat) :
  released (module_exports env fuel).2 = released (traverse env fuel (initial env)).2.
Proof.
  unfold module_exports. rewrite bind_run.
  by destruct (traverse env fuel (initial env)) as [[[]|e|] s1].
Qed.

Lemma module_exports_addresses (fuel : nat) :
  addresses (module_exports env fuel).2 = addresses (traverse env fuel (initial env)).2.
Proof.
  unfold module_exports. rewrite bind_run.
  by destruct (traverse env fuel (initial env)) as [[[]|e|] s1].
Qed.

Lemma module_exports_Ok_traverse (fuel : nat) (l : list ProposalTx) :
  (module_exports env fuel).1 = Ok l → (traverse env fuel (initial env)).1 = Ok tt.
Proof.
  unfold module_exports. rewrite bind_run.
  by destruct (traverse env fuel (initial env)) as [[[]|e|] s1].
Qed.

End Run.

(** ** Nothing is instantiated twice *)

Section Once.

Variable env : Env.

Lemma creations_snoc (tr : list Event) (e : Event) :
  creations (tr ++ [e]) = creations tr ++ creations [e].
Proof. apply omap_app. Qed.

Lemma creates_refl (u : string) (s : State) : creates u s s.
Proof. split; [done|]. exists []. split; [by rewrite app_nil_r | by left]. Qed.

Lemma creates_same (u : string) (s s' : State) :
  released s' = released s → creations (trace s') = creations (trace s) → creates u s s'.
Proof. intros Hr Hc. split; [done|]. exists []. split; [by rewrite app_nil_r | by left]. Qed.

Lemma creations_afterImplementation (u : string) (s : State) :
  creations (trace (afterImplementation env u s)) = creations (trace s) ++ [(u, false)].
Proof. by rewrite afterImplementation_trace, creations_snoc. Qed.

Lemma creations_afterProxy (u : string) (s : State) :
  creations (trace (afterProxy env u s)) = creations (trace s) ++ [(u, true)].
Proof.
  unfold afterProxy, afterInstantiate, creations.
  destruct (dry_run env); simpl; rewrite omap_app; [done|].
  by destruct (addresses s !! "Governance").
Qed.

Lemma link_quiet (u : string) (s : State) :
  released (link u (dependencies_get env u) s).2 = released s
  ∧ creations (trace (link u (dependencies_get env u) s).2) = creations (trace s).
Proof.
  apply (steps_link env
           (λ s s', released s' = released s ∧ creations (trace s') = creations (trace s)) u).
  - done.
  - intros s1 s2 s3 [? ?] [? ?]. split; congruence.
  - intros s0 d a _ _. split; [done|]. simpl. by rewrite creations_snoc, app_nil_r.
Qed.

Lemma deployProxy_creates (u : string) (s : State) :
  released (deployProxy env u s).2 = released s
  ∧ (creations (trace (deployProxy env u s).2) = creations (trace s)
     ∨ creations (trace (deployProxy env u s).2) = creations (trace s) ++ [(u, true)]).
Proof.
  destruct (decide (u = "Governance")) as [->|Hne];
    [rewrite deployProxy_governance; split; [done | by left]|].
  rewrite deployProxy_run by done.
  destruct (artifacts_require env _); [|split; [done | by left]].
  destruct (_ || _); cbn [snd];
    (split; [apply afterProxy_released | right; apply creations_afterProxy]).
Qed.

Lemma deployCoreContract_creates (u : string) (instance : Artifact) (s : State) :
  creates u s (deployCoreContract env u instance s).2.
Proof.
  assert (creates u s (afterImplementation env u s)) as Himpl.
  { split; [apply afterImplementation_released|]. exists [(u, false)].
    split; [apply creations_afterImplementation | right; by left]. }
  destruct (findFunction "getVersionNumber" (abi instance)) as [v|] eqn:Hv; cycle 1.
  { apply findFunction_None in Hv. by rewrite deployCoreContract_unversioned. }
  apply mk_is_Some, findFunction_is_Some in Hv.
  destruct (shouldDeployProxy (report env) u) as [[|]|] eqn:Hf.
  - destruct (deployProxy_creates u (afterImplementation env u s)) as [Hr Hc].
    pose proof (total_deployProxy env u (afterImplementation env u s)) as Htot.
    rewrite afterImplementation_released in Hr. rewrite creations_afterImplementation in Hc.
    assert (∀ s', released s' = released (deployProxy env u (afterImplementation env u s)).2 →
                  trace s' = trace (deployProxy env u (afterImplementation env u s)).2 →
                  creates u s s') as Hfrom.
    { intros s' Hr' Ht'. split; [congruence|]. rewrite Ht'.
      destruct Hc as [-> | ->].
      - exists [(u, false)]. split; [done | right; by left].
      - exists [(u, false); (u, true)]. split; [by rewrite <- app_assoc | right; by right]. }
    destruct (deployProxy env u (afterImplementation env u s)) as [[proxy|e|] s2] eqn:Hp;
      simpl in Htot, Hfrom; [| |done].
    + rewrite (deployCoreContract_new_proxy env _ _ _ _ _ Hv Hf Hp).
      destruct (findFunction "initialize" (abi instance)) as [ini|];
        [destruct (encodeFunctionCall env ini _) as [cd|]|]; cbn [snd]; by apply Hfrom.
    + rewrite (deployCoreContract_proxy_fails env _ _ _ _ _ Hv Hf Hp). by apply Hfrom.
  - rewrite deployCoreContract_implementation_only by done. cbn [snd].
    destruct Himpl as [Hr (l & Hl & Hcase)]. split; [done|]. by exists l.
  - by rewrite deployCoreContract_no_entry.
Qed.

Lemma deployLibrary_creates (u : string) (contractArtifact : Artifact) (s : State) :
  creates u s (deployLibrary env u contractArtifact s).2.
Proof.
  rewrite deployLibrary_run. cbn [snd]. split; [apply afterImplementation_released|].
  exists [(u, false)]. split; [apply creations_afterImplementation | right; by left].
Qed.

Lemma releaseWork_creates (u : string) (contractArtifact : Artifact) (s : State) :
  creates u s (releaseWork env u contractArtifact s).2.
Proof.
  unfold releaseWork. rewrite bind_run.
  destruct (link_quiet u s) as [Hr Hc].
  destruct (link u (dependencies_get env u) s) as [[[]|e|] s1]; simpl in Hr, Hc;
    [|by apply creates_same..].
  assert (∀ s2, creates u s1 s2 → creates u s s2) as Hfrom.
  { unfold creates. by rewrite Hr, Hc. }
  apply Hfrom.
  destruct (bool_decide _); [apply deployCoreContract_creates|].
  destruct (bool_decide _); [apply deployLibrary_creates | apply creates_refl].
Qed.

Lemma tidy_once (s : State) : tidy s → once s.
Proof. by intros [H _]. Qed.

Lemma creates_tidy (u : string) (s s' : State) :
  tidy s → u ∉ released s → creates u s s' → once s' ∧ tidy (markReleased u s').2.
Proof.
  intros [Hnd Hrel] Hnot (Hr & l & Hl & Hcase).
  assert (∀ x b, (x, b) ∈ l → x = u) as Hu.
  { intros x b Hin. destruct Hcase as [-> | [-> | ->]].
    - by apply not_elem_of_nil in Hin.
    - apply list_elem_of_singleton in Hin. congruence.
    - apply elem_of_cons in Hin as [Hin|Hin]; [congruence|].
      apply list_elem_of_singleton in Hin. congruence. }
  assert (NoDup l) as Hl_nd.
  { destruct Hcase as [-> | [-> | ->]];
      [apply NoDup_nil_2 | apply NoDup_singleton |].
    apply NoDup_cons. split; [|apply NoDup_singleton].
    intros Hin. apply list_elem_of_singleton in Hin. discriminate. }
  assert (once s') as Honce.
  { unfold once. rewrite Hl. apply NoDup_app. split; [done | split; [|done]].
    intros [x b] Hold Hnew. apply Hnot. rewrite <- (Hu x b Hnew). by eapply Hrel. }
  split; [done|]. split.
  - unfold once. simpl. by rewrite creations_snoc, app_nil_r.
  - intros x b. simpl. rewrite creations_snoc, app_nil_r, Hl, elem_of_app.
    intros [Hin|Hin].
    + apply elem_of_union_r. rewrite Hr. by eapply Hrel.
    + apply elem_of_union_l, elem_of_singleton. by eapply Hu.
Qed.

Lemma releaseSteps_tidy (u : string) (s : State) :
  tidy s → u ∉ released s →
  once (releaseSteps env u s).2
  ∧ ((releaseSteps env u s).1 = Ok tt → tidy (releaseSteps env u s).2).
Proof.
  intros Hs Hnot. rewrite releaseSteps_run.
  destruct (artifacts_require env u) as [art|]; [|split; [by apply tidy_once | done]].
  destruct (creates_tidy u s _ Hs Hnot (releaseWork_creates u art s)) as [Honce Htidy].
  destruct (releaseWork env u art s) as [[[]|e|] s1]; simpl in *; [|by split..].
  split; [by apply tidy_once | done].
Qed.

Lemma module_exports_once (fuel : nat) : once (module_exports env fuel).2.
Proof.
  unfold once. rewrite module_exports_trace.
  destruct (traverse_guarded env tidy once tidy_once releaseSteps_tidy fuel (initial env))
    as [H _]; [|exact H].
  split; [apply NoDup_nil_2 | intros x b Hin; by apply not_elem_of_nil in Hin].
Qed.

End Once.



(** ** New proxies are handed to Governance *)

Section Ownership.

Variable env : Env.

Hypothesis governance_kept :
  is_Some (contracts (report env) !! "Governance")
  ∨ libraries (report env) !! "Governance" = None.

Lemma handsOver_refl (s : State) : handsOver s s.
Proof.
  split; [done|]. exists []. split; [by rewrite app_nil_r|].
  intros u g Hin. by apply not_elem_of_nil in Hin.
Qed.

Lemma handsOver_trans (s1 s2 s3 : State) :
  handsOver s1 s2 → handsOver s2 s3 → handsOver s1 s3.
Proof.
  intros [Ha1 (t1 & Ht1 & H1)] [Ha2 (t2 & Ht2 & H2)]. split; [congruence|].
  exists (t1 ++ t2). split; [by rewrite Ht2, Ht1, app_assoc|].
  intros u g Hin. apply elem_of_app in Hin as [Hin|Hin]; [by eapply H1|].
  rewrite <- Ha1. by eapply H2.
Qed.

Lemma handsOver_same (s s' : State) :
  addresses s' !! "Governance" = addresses s !! "Governance" → trace s' = trace s →
  handsOver s s'.
Proof.
  intros Ha Ht. split; [done|]. exists []. split; [by rewrite app_nil_r|].
  intros u g Hin. by apply not_elem_of_nil in Hin.
Qed.

Lemma handsOver_event (s : State) (e : Event) :
  (∀ u g, e ≠ EvTransferOwnership u g) → handsOver s (with_trace (λ t, t ++ [e]) s).
Proof.
  intros He. split; [done|]. exists [e]. split; [done|].
  intros u g Hin. apply list_elem_of_singleton in Hin. by destruct (He u g).
Qed.

Lemma handsOver_afterImplementation (u : string) (s : State) :
  handsOver s (afterImplementation env u s).
Proof.
  split; [by rewrite afterImplementation_addresses|].
  exists [EvInstance u (nextAddress env s)]. split; [apply afterImplementation_trace|].
  intros x g Hin. apply list_elem_of_singleton in Hin. discriminate.
Qed.

Lemma handsOver_afterProxy (u : string) (s : State) : handsOver s (afterProxy env u s).
Proof.
  split; [by rewrite afterProxy_addresses|].
  exists (EvProxy u (nextAddress env s) ::
            (if dry_run env then []
             else match addresses s !! "Governance" with
                  | Some governance => [EvTransferOwnership u governance]
                  | None => []
                  end)).
  split; [unfold afterProxy, afterInstantiate; by destruct (dry_run env)|].
  intros x g Hin. apply elem_of_cons in Hin as [Hin|Hin]; [discriminate|].
  destruct (dry_run env); [by apply not_elem_of_nil in Hin|].
  destruct (addresses s !! "Governance") as [g'|]; [|by apply not_elem_of_nil in Hin].
  apply list_elem_of_singleton in Hin. congruence.
Qed.

Lemma handsOver_set (u : string) (a : Address) (s : State) :
  u ≠ "Governance" → handsOver s (with_addresses (λ table, <[u := a]> table) s).
Proof.
  intros Hne. apply handsOver_same; [|done]. simpl. by apply lookup_insert_ne.
Qed.

Lemma releaseSteps_handsOver (u : string) : preserves handsOver (releaseSteps env u).
Proof.
  apply steps_releaseSteps; [apply handsOver_refl | apply handsOver_trans | |].
  - intros art. apply steps_releaseWork;
      [apply handsOver_refl | apply handsOver_trans
      | intros _ s; apply handsOver_afterImplementation
      | intros _ _ s; apply handsOver_afterProxy
      | intros _ Hne s a; by apply handsOver_set
      |
      | intros _ s tx; by apply handsOver_same |].
    + intros Hc Hl s a. apply handsOver_set. intros ->.
      destruct governance_kept as [[ch Hch] | Hnone]; [congruence|].
      rewrite Hnone in Hl. by destruct Hl.
    + intros s d a _ _. by apply handsOver_event.
  - intros s. split; [done|]. exists [EvReleased u]. split; [done|].
    intros x g Hin. apply list_elem_of_singleton in Hin. discriminate.
Qed.

Lemma module_exports_handsOver (fuel : nat) :
  handsOver (initial env) (module_exports env fuel).2.
Proof.
  apply module_exports_preserves;
    [apply handsOver_refl | apply handsOver_trans | apply releaseSteps_handsOver|].
  intros s tx. by apply handsOver_same.
Qed.

End Ownership.

(** ** What the traversal releases *)

Section Reach.

Variable env : Env.

Lemma marksWithin_refl (Q : string → Prop) (s : State) : marksWithin Q s s.
Proof. intros u Hu. by left. Qed.

Lemma marksWithin_trans (Q : string → Prop) (s1 s2 s3 : State) :
  marksWithin Q s1 s2 → marksWithin Q s2 s3 → marksWithin Q s1 s3.
Proof.
  intros H1 H2 u Hu. destruct (H2 u Hu) as [Hu2|HQ]; [by apply H1 | by right].
Qed.

Lemma marksWithin_mono (Q Q' : string → Prop) (s s' : State) :
  (∀ u, Q u → Q' u) → marksWithin Q s s' → marksWithin Q' s s'.
Proof. intros HQ H u Hu. destruct (H u Hu) as [?|?]; [by left | right; by apply HQ]. Qed.

Lemma release_marksWithin (fuel : nat) :
  ∀ name, preserves (marksWithin (dependsOn env name)) (release env fuel name).
Proof.
  induction fuel as [|fuel IH]; intros name s; [apply marksWithin_refl|].
  rewrite release_unfold. case_bool_decide; [apply marksWithin_refl|].
  apply (preserves_bind _ (marksWithin_trans (dependsOn env name))).
  - apply (preserves_forEach _ (marksWithin_refl _) (marksWithin_trans _)).
    intros d Hd s0. apply (marksWithin_mono (dependsOn env d)); [|apply IH].
    intros u Hu. by eapply dependsOn_step.
  - intros _ s0. intros u Hu.
    apply (releaseSteps_marksOnly env name s0), elem_of_union in Hu as [Hu|Hu]; [|by left].
    apply elem_of_singleton in Hu as ->. right. apply dependsOn_refl.
Qed.

Lemma traverse_marksWithin (fuel : nat) :
  preserves (marksWithin (reachable env)) (traverse env fuel).
Proof.
  unfold traverse.
  apply (preserves_forEach _ (marksWithin_refl _) (marksWithin_trans _)).
  intros name Hname s. destruct (_ && _) eqn:Hroot; [|apply marksWithin_refl].
  apply (marksWithin_mono (dependsOn env name)); [|apply release_marksWithin].
  intros u Hu. by exists name.
Qed.

(** In an ordered trace the dependencies of a marked name are marked. *)
Lemma ordered_marked_ready (tr : list Event) (u : string) :
  ordered env tr → EvReleased u ∈ tr → ready env tr u.
Proof.
  intros Hord Hin. apply list_elem_of_split in Hin as (before & after & ->).
  rewrite (assoc_L (++) before [EvReleased u] after : before ++ EvReleased u :: after
           = (before ++ [EvReleased u]) ++ after) at 1.
  apply ready_app, ready_app. by apply (ordered_split env _ Hord before (EvReleased u) after).
Qed.

Lemma consistent_closed (s : State) (r u : string) :
  consistent env s → dependsOn env r u → r ∈ released s → u ∈ released s.
Proof.
  intros [Hord Hacc] Hdep. induction Hdep as [|x d n Hd Hdep IH]; [done|].
  intros Hx. apply IH, Hacc. apply Hacc in Hx.
  by apply (ordered_marked_ready _ x Hord Hx).
Qed.

Lemma traverse_Ok_roots (fuel : nat) (l : list string) (s s' : State) :
  forEach (λ contractName,
      if isCoreContract env contractName && isProxiedContract env contractName
      then release env fuel contractName else ret tt) l s = (Ok tt, s') →
  released s ⊆ released s'
  ∧ ∀ r, r ∈ l → isCoreContract env r && isProxiedContract env r = true → r ∈ released s'.
Proof.
  revert s. induction l as [|x l IH]; intros s H.
  - injection H as <-. split; [done|]. intros r Hr. by apply not_elem_of_nil in Hr.
  - simpl in H. apply bind_Ok in H as ([] & s1 & Hx & H).
    destruct (IH s1 H) as [Hsub Hl].
    assert (released s ⊆ released s1) as Hsub1.
    { destruct (_ && _); [|by injection Hx as <-].
      pose proof (release_grows env fuel x s) as Hg. by rewrite Hx in Hg. }
    split; [by etrans|].
    intros r Hr Hroot. apply elem_of_cons in Hr as [->|Hr]; [|by apply Hl].
    rewrite Hroot in Hx. apply Hsub. by eapply release_Ok_released.
Qed.

End Reach.



(** ** Names and suffixes *)

Section Strings.

Lemma length_append (s1 s2 : string) :
  String.length (s1 +:+ s2) = String.length s1 + String.length s2.
Proof. induction s1 as [|c s1 IH]; simpl; [done | by rewrite IH]. Qed.

Lemma substring_all (s : string) : String.substring 0 (String.length s) s = s.
Proof. induction s as [|c s IH]; simpl; [done | by rewrite IH]. Qed.

Lemma substring_append (p s : string) :
  String.substring (String.length p) (String.length s) (p +:+ s) = s.
Proof. induction p as [|c p IH]; simpl; [apply substring_all | done]. Qed.

Lemma substring_split (s : string) :
  ∀ k, k ≤ String.length s →
       s = String.substring 0 k s +:+ String.substring k (String.length s - k) s.
Proof.
  induction s as [|c s IH]; intros [|k] Hk; simpl in *.
  - done.
  - lia.
  - by rewrite substring_all.
  - change (String c s
            = String c (String.substring 0 k s
                        +:+ String.substring k (String.length s - k) s)).
    f_equal. apply IH. lia.
Qed.

(** [endsWith] holds of the strings that are a prefix followed by the suffix. *)
Lemma endsWith_iff (s suffix : string) :
  endsWith s suffix = true ↔ ∃ p, s = p +:+ suffix.
Proof.
  unfold endsWith. split.
  - intros H. apply andb_true_iff in H as [Hle Heq].
    apply Nat.leb_le in Hle. apply String.eqb_eq in Heq.
    exists (String.substring 0 (String.length s - String.length suffix) s).
    pose proof (substring_split s (String.length s - String.length suffix)) as Hs.
    replace (String.length s - (String.length s - String.length suffix))
      with (String.length suffix) in Hs by lia.
    rewrite Heq in Hs. apply Hs. lia.
  - intros [p ->]. rewrite length_append. apply andb_true_iff. split.
    + apply Nat.leb_le. lia.
    + replace (String.length p + String.length suffix - String.length suffix)
        with (String.length p) by lia.
      rewrite substring_append. apply String.eqb_refl.
Qed.

End Strings.

(** ** Linking *)

Section Linking.

Lemma link_cons (u d : string) (l : list string) (s : State) :
  link u (d :: l) s =
  match addresses s !! d with
  | Some a => link u l (with_trace (λ t, t ++ [EvLink u d a]) s)
  | None => (Err (Thrown ("Unable to find address for " +:+ d)), s)
  end.
Proof.
  unfold link. simpl. rewrite !bind_run. unfold ContractAddresses.get.
  by destruct (addresses s !! d).
Qed.

Lemma link_present (u : string) (l : list string) :
  ∀ s, (∀ d, d ∈ l → is_Some (addresses s !! d)) → (link u l s).1 = Ok tt.
Proof.
  induction l as [|d l IH]; intros s Hall; [done|].
  rewrite link_cons. destruct (Hall d) as [a Ha]; [left|]. rewrite Ha.
  apply IH. intros x Hx. simpl. apply Hall. by right.
Qed.

Lemma link_missing (u : string) (before : list string) (d : string) (after : list string) :
  ∀ s, (∀ x, x ∈ before → is_Some (addresses s !! x)) → addresses s !! d = None →
       (link u (before ++ d :: after) s).1
       = Err (Thrown ("Unable to find address for " +:+ d)).
Proof.
  induction before as [|x before IH]; intros s Hall Hd; simpl.
  - rewrite link_cons. by rewrite Hd.
  - rewrite link_cons. destruct (Hall x) as [a Ha]; [left|]. rewrite Ha.
    apply IH; [|done]. intros y Hy. simpl. apply Hall. by right.
Qed.

End Linking.

(** ** The table after a release *)

Section Table.

Variable env : Env.

Lemma nextAddress_ext (s s' : State) :
  deployed s' = deployed s → nextAddress env s' = nextAddress env s.
Proof. intros H. unfold nextAddress. by rewrite H. Qed.

Lemma afterImplementation_deployed (u : string) (s : State) :
  deployed (afterImplementation env u s) = if dry_run env then deployed s else S (deployed s).
Proof. unfold afterImplementation, afterInstantiate. by destruct (dry_run env). Qed.

Lemma deployCoreContract_Ok_table (u : string) (instance : Artifact) (s s' : State) :
  deployCoreContract env u instance s = (Ok tt, s') →
  match shouldDeployProxy (report env) u with
  | Some true =>
      addresses s' = <[u := nextAddress env (afterImplementation env u s)]> (addresses s)
      ∧ setAddressForTx u (nextAddress env (afterImplementation env u s)) ∈ proposal s'
  | _ => addresses s' = addresses s
  end.
Proof.
  intros H.
  destruct (findFunction "getVersionNumber" (abi instance)) as [v|] eqn:Hv; cycle 1.
  { apply findFunction_None in Hv. by rewrite deployCoreContract_unversioned in H. }
  apply mk_is_Some, findFunction_is_Some in Hv.
  destruct (shouldDeployProxy (report env) u) as [[|]|] eqn:Hf.
  - destruct (decide (u = "Governance")) as [Hgov|Hne].
    { pose proof (deployProxy_governance env (afterImplementation env u s)) as Hp.
      rewrite <- Hgov in Hp at 1.
      by rewrite (deployCoreContract_proxy_fails env _ _ _ _ _ Hv Hf Hp) in H. }
    pose proof (deployProxy_run env u (afterImplementation env u s) Hne) as Hp.
    destruct (artifacts_require env (u +:+ "Proxy")) as [Proxy|];
      [|by rewrite (deployCoreContract_proxy_fails env _ _ _ _ _ Hv Hf Hp) in H].
    destruct (_ || _);
      [|by rewrite (deployCoreContract_proxy_fails env _ _ _ _ _ Hv Hf Hp) in H].
    rewrite (deployCoreContract_new_proxy env _ _ _ _ _ Hv Hf Hp) in H. cbn [address] in H.
    assert (∀ l, s' = with_proposal (λ p, p ++ l)
                        (afterRegistryEntry u (nextAddress env (afterImplementation env u s))
                           (afterProxy env u (afterImplementation env u s))) →
                 addresses s'
                 = <[u := nextAddress env (afterImplementation env u s)]> (addresses s)
                 ∧ setAddressForTx u (nextAddress env (afterImplementation env u s))
                   ∈ proposal s') as Hshape.
    { intros l ->. split.
      - change (<[u := nextAddress env (afterImplementation env u s)]>
                  (addresses (afterProxy env u (afterImplementation env u s)))
                = <[u := nextAddress env (afterImplementation env u s)]> (addresses s)).
        by rewrite afterProxy_addresses, afterImplementation_addresses.
      - rewrite proposal_with_proposal, proposal_afterRegistryEntry.
        apply elem_of_app. left. apply elem_of_app. right. by apply list_elem_of_singleton. }
    destruct (findFunction "initialize" (abi instance)) as [ini|];
      [destruct (encodeFunctionCall env ini _) as [cd|]; [|done]|];
      injection H as <-; by eapply Hshape.
  - rewrite deployCoreContract_implementation_only in H by done. injection H as <-.
    change (addresses (afterImplementation env u s) = addresses s).
    apply afterImplementation_addresses.
  - by rewrite deployCoreContract_no_entry in H.
Qed.

End Table.



(** * Further properties of the script *)

(** X1.  [ContractAddresses]: after [set(c, a)], [get(c)] returns [a] and
    changes nothing; [get] of any other name gives what it gave before the
    [set]; a second [set] of the same name replaces the first; and [set]
    touches the table only. *)
Theorem X1_set_then_get (c c' : string) (a b : Address) (s : State) :
  ContractAddresses.get c (ContractAddresses.set c a s).2
  = (Ok a, (ContractAddresses.set c a s).2)
  ∧ (c' ≠ c →
     (ContractAddresses.get c' (ContractAddresses.set c a s).2).1
     = (ContractAddresses.get c' s).1)
  ∧ (ContractAddresses.set c b (ContractAddresses.set c a s).2).2
    = (ContractAddresses.set c b s).2
  ∧ released (ContractAddresses.set c a s).2 = released s
  ∧ proposal (ContractAddresses.set c a s).2 = proposal s
  ∧ trace (ContractAddresses.set c a s).2 = trace s.
Proof.
  unfold ContractAddresses.get, ContractAddresses.set. cbn [fst snd].
  split; [|split; [|split; [|done]]].
  - change (addresses (with_addresses (λ table, <[c := a]> table) s))
      with (<[c := a]> (addresses s)).
    by rewrite lookup_insert_eq.
  - intros Hne.
    change (addresses (with_addresses (λ table, <[c := a]> table) s))
      with (<[c := a]> (addresses s)).
    rewrite lookup_insert_ne by done. by destruct (addresses s !! c').
  - unfold with_addresses. simpl. by rewrite insert_insert_eq.
Qed.

(** X2.  [ContractAddresses.create]: the table does not depend on the order
    of the names, hence not on the order in which the registry lookups of
    [Promise.all] complete. *)
Theorem X2_create_any_order (env : Env) (names names' : list string)
    (libraryAddresses : gmap string Address) :
  names ≡ₚ names' →
  ContractAddresses.create env names libraryAddresses
  = ContractAddresses.create env names' libraryAddresses.
Proof. apply create_Permutation. Qed.

Lemma X2_create_any_order_witness :
  ["Exchange"; "Governance"] ≡ₚ ["Governance"; "Exchange"]
  ∧ ContractAddresses.create (Demo.world Demo.upgradeReport false)
      ["Exchange"; "Governance"] {[ "Signatures" := "0xA2" ]}
    = ContractAddresses.create (Demo.world Demo.upgradeReport false)
        ["Governance"; "Exchange"] {[ "Signatures" := "0xA2" ]}.
Proof.
  split; [apply perm_swap|].
  apply (X2_create_any_order (Demo.world Demo.upgradeReport false)). apply perm_swap.
Defined.

(** X3.  [isProxiedContract]: a name is proxied exactly when it does not end
    in "Proxy" and an artifact is found under the name followed by "Proxy";
    so no proxy artifact is itself taken for a proxied contract. *)
Theorem X3_isProxiedContract_iff (env : Env) (contractName : string) :
  isProxiedContract env contractName = true
  ↔ (¬ ∃ p, contractName = p +:+ "Proxy")
    ∧ is_Some (artifacts_require env (contractName +:+ "Proxy")).
Proof.
  unfold isProxiedContract.
  destruct (endsWith contractName "Proxy") eqn:Hends.
  - split; [done|]. intros [Hno _]. destruct Hno. by apply endsWith_iff.
  - assert (¬ ∃ p, contractName = p +:+ "Proxy") as Hno.
    { intros Hex. apply endsWith_iff in Hex. congruence. }
    destruct (artifacts_require env (contractName +:+ "Proxy")) as [art|].
    + split; [intros _; by split | done].
    + split; [done|]. intros [_ [art Hart]]. discriminate.
Qed.

(** X4.  In a run of the script, whatever its outcome, no name gets two new
    implementations and no name gets two new proxies. *)
Theorem X4_instantiated_once (env : Env) (fuel : nat) :
  NoDup (creations (trace (module_exports env fuel).2)).
Proof. apply module_exports_once. Qed.

(** X5.  Once a name is marked released, the run does nothing more for it:
    no operation of the trace — link, instantiation, transfer of ownership
    or marking — on a name comes after the marking of that name. *)
Theorem X5_released_left_alone (env : Env) (fuel : nat)
    (before : list Event) (e : Event) (after : list Event) :
  trace (module_exports env fuel).2 = before ++ e :: after →
  EvReleased (unit_of e) ∉ before.
Proof.
  intros Htrace. destruct (module_exports_sound env fuel) as (_ & Huntouched & _).
  by eapply untouched_split.
Qed.

Lemma X5_released_left_alone_witness :
  trace (module_exports (Demo.world Demo.upgradeReport false) 3).2
  = [EvInstance "Signatures" "0xN0"; EvReleased "Signatures";
     EvLink "Exchange" "Signatures" "0xN0"; EvInstance "Exchange" "0xN1"]
    ++ EvReleased "Exchange"
    :: [EvReleased "Proposals"; EvLink "Governance" "Proposals" "0xA1";
        EvLink "Governance" "Signatures" "0xN0"; EvInstance "Governance" "0xN2";
        EvReleased "Governance"; EvReleased "Reserve"; EvReleased "StableTokenGBP"]
  ∧ EvReleased "Exchange"
    ∉ [EvInstance "Signatures" "0xN0"; EvReleased "Signatures";
       EvLink "Exchange" "Signatures" "0xN0"; EvInstance "Exchange" "0xN1"].
Proof.
  assert (trace (module_exports (Demo.world Demo.upgradeReport false) 3).2
          = [EvInstance "Signatures" "0xN0"; EvReleased "Signatures";
             EvLink "Exchange" "Signatures" "0xN0"; EvInstance "Exchange" "0xN1"]
            ++ EvReleased "Exchange"
            :: [EvReleased "Proposals"; EvLink "Governance" "Proposals" "0xA1";
                EvLink "Governance" "Signatures" "0xN0"; EvInstance "Governance" "0xN2";
                EvReleased "Governance"; EvReleased "Reserve"; EvReleased "StableTokenGBP"])
    as Htrace by (vm_compute; reflexivity).
  split; [exact Htrace|].
  exact (X5_released_left_alone (Demo.world Demo.upgradeReport false) 3 _ _ _ Htrace).
Defined.

(** X6.  Every link of a run is canonical: when an artifact was linked
    against the address [a] of a dependency [d], then at the end of the run,
    whatever its outcome, [d] is released and the table still holds [a]
    for [d]. *)
Theorem X6_links_canonical (env : Env) (fuel : nat) (u d : string) (a : Address) :
  EvLink u d a ∈ trace (module_exports env fuel).2 →
  d ∈ released (module_exports env fuel).2
  ∧ addresses (module_exports env fuel).2 !! d = Some a.
Proof.
  intros Hin. destruct (module_exports_sound env fuel) as (_ & _ & Hcanonical).
  by apply (Hcanonical u).
Qed.

Lemma X6_links_canonical_witness :
  EvLink "Exchange" "Signatures" "0xN0"
  ∈ trace (module_exports (Demo.world Demo.upgradeReport false) 3).2
  ∧ "Signatures" ∈ released (module_exports (Demo.world Demo.upgradeReport false) 3).2
  ∧ addresses (module_exports (Demo.world Demo.upgradeReport false) 3).2 !! "Signatures"
    = Some "0xN0".
Proof.
  assert (EvLink "Exchange" "Signatures" "0xN0"
          ∈ trace (module_exports (Demo.world Demo.upgradeReport false) 3).2) as Hin.
  { vm_compute. do 2 apply list_elem_of_further. apply list_elem_of_here. }
  split; [exact Hin|].
  exact (X6_links_canonical (Demo.world Demo.upgradeReport false) 3 _ _ _ Hin).
Defined.

(** X7.  The registry entries of the proposal agree with the table: at the
    end of a run, whatever its outcome, a [Registry.setAddressFor(n, p)]
    entry of the proposal names the address the table holds for [n]. *)
Theorem X7_registry_entries_agree (env : Env) (fuel : nat) (n : string) (p : Address) :
  setAddressForTx n p ∈ proposal (module_exports env fuel).2 →
  addresses (module_exports env fuel).2 !! n = Some p.
Proof. apply module_exports_registered. Qed.

Lemma X7_registry_entries_agree_witness :
  setAddressForTx "Exchange" "0xN1"
  ∈ proposal (module_exports (Demo.world Demo.stableTokenReport false) 3).2
  ∧ addresses (module_exports (Demo.world Demo.stableTokenReport false) 3).2 !! "Exchange"
    = Some "0xN1".
Proof.
  assert (setAddressForTx "Exchange" "0xN1"
          ∈ proposal (module_exports (Demo.world Demo.stableTokenReport false) 3).2) as Hin.
  { vm_compute. apply list_elem_of_here. }
  split; [exact Hin|].
  exact (X7_registry_entries_agree (Demo.world Demo.stableTokenReport false) 3 _ _ Hin).
Defined.

(** X8.  A run deploys only what the report names: every new implementation
    is of a name the report lists as a core contract or as a library; every
    new proxy, and every transfer of ownership, is for a core contract whose
    report entry has a storage change or a NewContract change, and never for
    Governance; and every link is to a declared dependency. *)
Theorem X8_only_reported_deployed (env : Env) (fuel : nat) :
  Forall (justifiedEvent env) (trace (module_exports env fuel).2).
Proof.
  destruct (module_exports_justified env fuel) as (t & Ht & Hall).
  by rewrite Ht.
Qed.

(** X9.  The table entry of a name is rewritten only for a core contract
    that gets a new proxy or for a library of the report that is not also
    a core contract of the report: for every other name the table holds at
    the end of the run, whatever its outcome, what [ContractAddresses.create]
    put there. *)
Theorem X9_table_kept (env : Env) (fuel : nat) (n : string) :
  ¬ rewritable env n →
  addresses (module_exports env fuel).2 !! n = addresses (initial env) !! n.
Proof. intros Hn. by apply module_exports_tableOutside. Qed.

Lemma X9_table_kept_witness :
  ¬ rewritable (Demo.world Demo.upgradeReport false) "Exchange"
  ∧ addresses (module_exports (Demo.world Demo.upgradeReport false) 3).2 !! "Exchange"
    = addresses (initial (Demo.world Demo.upgradeReport false)) !! "Exchange".
Proof.
  assert (¬ rewritable (Demo.world Demo.upgradeReport false) "Exchange") as Hn.
  { intros [[H _] | [H _]]; vm_compute in H; discriminate H. }
  split; [exact Hn|].
  exact (X9_table_kept (Demo.world Demo.upgradeReport false) 3 "Exchange" Hn).
Defined.

(** X10.  Unless the report lists Governance as a library only, every new
    proxy whose ownership is transferred during a run is handed to the
    address [ContractAddresses.create] stored for Governance. *)
Theorem X10_ownership_to_governance (env : Env) (fuel : nat) (u : string) (g : Address) :
  is_Some (contracts (report env) !! "Governance")
  ∨ libraries (report env) !! "Governance" = None →
  EvTransferOwnership u g ∈ trace (module_exports env fuel).2 →
  addresses (initial env) !! "Governance" = Some g.
Proof.
  intros Hkept Hin.
  destruct (module_exports_handsOver env Hkept fuel) as [_ (t & Ht & Hall)].
  apply (Hall u). by rewrite Ht in Hin.
Qed.

Lemma X10_ownership_to_governance_witness :
  (is_Some (contracts (report (Demo.world Demo.stableTokenReport false)) !! "Governance")
   ∨ libraries (report (Demo.world Demo.stableTokenReport false)) !! "Governance" = None)
  ∧ EvTransferOwnership "Exchange" "0x60"
    ∈ trace (module_exports (Demo.world Demo.stableTokenReport false) 3).2
  ∧ addresses (initial (Demo.world Demo.stableTokenReport false)) !! "Governance"
    = Some "0x60".
Proof.
  assert (is_Some (contracts (report (Demo.world Demo.stableTokenReport false)) !! "Governance")
          ∨ libraries (report (Demo.world Demo.stableTokenReport false)) !! "Governance"
            = None) as Hkept by (right; reflexivity).
  assert (EvTransferOwnership "Exchange" "0x60"
          ∈ trace (module_exports (Demo.world Demo.stableTokenReport false) 3).2) as Hin.
  { vm_compute. do 4 apply list_elem_of_further. apply list_elem_of_here. }
  split; [exact Hkept | split; [exact Hin|]].
  exact (X10_ownership_to_governance (Demo.world Demo.stableTokenReport false) 3 _ _
           Hkept Hin).
Defined.

(** X11.  A dry run creates nothing: no contract is created on the network,
    no ownership is transferred, and every implementation and proxy of the
    trace is the stand-in at the registry address. *)
Theorem X11_dry_run_creates_nothing (env : Env) (fuel : nat) :
  dry_run env = true →
  deployed (module_exports env fuel).2 = 0
  ∧ Forall (dryEvent env) (trace (module_exports env fuel).2).
Proof.
  intros Hdry. destruct (module_exports_dryRun env Hdry fuel) as [Hd (t & Ht & Hall)].
  split; [exact Hd | by rewrite Ht].
Qed.

Lemma X11_dry_run_creates_nothing_witness :
  dry_run (Demo.world Demo.stableTokenReport true) = true
  ∧ deployed (module_exports (Demo.world Demo.stableTokenReport true) 3).2 = 0
  ∧ Forall (dryEvent (Demo.world Demo.stableTokenReport true))
      (trace (module_exports (Demo.world Demo.stableTokenReport true) 3).2).
Proof.
  split; [reflexivity|].
  exact (X11_dry_run_creates_nothing (Demo.world Demo.stableTokenReport true) 3 eq_refl).
Defined.

(** X12.  Releasing a name leaves the table, the proposal and the number of
    created contracts as they are when the report lists neither the name
    nor any name its dependency lists lead to. *)
Theorem X12_unreported_release_idle (env : Env) (fuel : nat) (name : string) (s : State) :
  (∀ n, dependsOn env name n →
        contracts (report env) !! n = None ∧ libraries (report env) !! n = None) →
  idle s (release env fuel name s).2.
Proof.
  intros Hnone.
  apply (release_preserves_within env idle
           (λ n, contracts (report env) !! n = None ∧ libraries (report env) !! n = None));
    [apply idle_refl | apply idle_trans | | done].
  intros n [Hc Hl]. by apply releaseSteps_idle.
Qed.

Lemma X12_unreported_release_idle_witness :
  (∀ n, dependsOn (Demo.world Demo.upgradeReport false) "Reserve" n →
        contracts (report (Demo.world Demo.upgradeReport false)) !! n = None
        ∧ libraries (report (Demo.world Demo.upgradeReport false)) !! n = None)
  ∧ idle (initial (Demo.world Demo.upgradeReport false))
      (release (Demo.world Demo.upgradeReport false) 2 "Reserve"
         (initial (Demo.world Demo.upgradeReport false))).2.
Proof.
  assert (∀ n, dependsOn (Demo.world Demo.upgradeReport false) "Reserve" n →
               contracts (report (Demo.world Demo.upgradeReport false)) !! n = None
               ∧ libraries (report (Demo.world Demo.upgradeReport false)) !! n = None) as Hnone.
  { intros n Hn. inversion Hn as [|? d ? Hd]; subst.
    - split; reflexivity.
    - by apply not_elem_of_nil in Hd. }
  split; [exact Hnone|].
  exact (X12_unreported_release_idle (Demo.world Demo.upgradeReport false) 2 "Reserve" _ Hnone).
Defined.

(** X13.  What a run releases: only names that a listed, proxied core
    contract leads to along the dependency lists, whatever the outcome; and
    when the run returns the proposal, all of them. *)
Theorem X13_released_are_reachable (env : Env) (fuel : nat) :
  (∀ u, u ∈ released (module_exports env fuel).2 → reachable env u)
  ∧ (∀ l, (module_exports env fuel).1 = Ok l →
          ∀ u, reachable env u → u ∈ released (module_exports env fuel).2).
Proof.
  split.
  - intros u Hu. rewrite module_exports_released in Hu.
    destruct (traverse_marksWithin env fuel (initial env) u Hu) as [Hin|Hreach]; [|done].
    by apply not_elem_of_empty in Hin.
  - intros l Hok u (r & [Hlisted Hroot] & Hdep).
    apply (consistent_closed env _ r u); [apply module_exports_consistent | done|].
    rewrite module_exports_released. apply module_exports_Ok_traverse in Hok.
    destruct (traverse env fuel (initial env)) as [out s1] eqn:Hrun. simpl in Hok. subst out.
    unfold traverse in Hrun. by apply (traverse_Ok_roots env fuel _ _ _ Hrun).
Qed.

(** X14.  When a listed, proxied core contract is on a cycle of the
    dependency lists, the run never returns a proposal, whatever the depth
    allowed to the recursion. *)
Theorem X14_cycle_never_completes (env : Env) (P : string → Prop) (fuel : nat)
    (l : list ProposalTx) :
  (∀ p, P p → ∃ d, d ∈ dependencies_get env p ∧ P d) →
  (∃ r, root env r ∧ P r) →
  (module_exports env fuel).1 ≠ Ok l.
Proof.
  intros Hcycle (r & [Hlisted Hroot] & HP) Hok.
  apply module_exports_Ok_traverse in Hok.
  apply (traverse_cycle env P fuel (env_contracts env) (initial env) Hcycle);
    [by intros p _ Hin; apply not_elem_of_empty in Hin | by exists r | exact Hok].
Qed.

Lemma X14_cycle_never_completes_witness :
  (∀ p, p = "Exchange" ∨ p = "Reserve" →
        ∃ d, d ∈ dependencies_get Loop.world p ∧ (d = "Exchange" ∨ d = "Reserve"))
  ∧ (∃ r, root Loop.world r ∧ (r = "Exchange" ∨ r = "Reserve"))
  ∧ (module_exports Loop.world 7).1 ≠ Ok [].
Proof.
  assert (∀ p, p = "Exchange" ∨ p = "Reserve" →
               ∃ d, d ∈ dependencies_get Loop.world p ∧ (d = "Exchange" ∨ d = "Reserve"))
    as Hcycle.
  { intros p [-> | ->].
    - exists "Reserve". split; [apply list_elem_of_here | by right].
    - exists "Exchange". split; [apply list_elem_of_here | by left]. }
  assert (∃ r, root Loop.world r ∧ (r = "Exchange" ∨ r = "Reserve")) as Hroot.
  { exists "Exchange". split; [|by left].
    split; [apply list_elem_of_here | vm_compute; reflexivity]. }
  split; [exact Hcycle | split; [exact Hroot|]].
  exact (X14_cycle_never_completes Loop.world (λ p, p = "Exchange" ∨ p = "Reserve") 7 []
           Hcycle Hroot).
Defined.

(** X15.  When the dependency lists decrease a rank, the recursion ends: a
    depth above the ranks of the listed names is enough for the run, and
    every larger depth gives the same outcome and the same state. *)
Theorem X15_ranked_run (env : Env) (rank : string → nat) (fuel fuel' : nat) :
  (∀ u d, d ∈ dependencies_get env u → rank d < rank u) →
  (∀ n, n ∈ env_contracts env → rank n < fuel) →
  fuel ≤ fuel' →
  (module_exports env fuel).1 ≠ OutOfFuel
  ∧ module_exports env fuel' = module_exports env fuel.
Proof.
  intros Hrank Hfuel Hle.
  pose proof (module_exports_total env rank fuel Hrank Hfuel) as Htotal.
  split; [exact Htotal | by apply module_exports_stable_le].
Qed.

Lemma X15_ranked_run_witness :
  (∀ u d, d ∈ dependencies_get (Demo.world Demo.upgradeReport false) u →
          length (Demo.dependenciesOf d) < length (Demo.dependenciesOf u))
  ∧ (∀ n, n ∈ env_contracts (Demo.world Demo.upgradeReport false) →
          length (Demo.dependenciesOf n) < 3)
  ∧ 3 ≤ 5
  ∧ (module_exports (Demo.world Demo.upgradeReport false) 3).1 ≠ OutOfFuel
  ∧ module_exports (Demo.world Demo.upgradeReport false) 5
    = module_exports (Demo.world Demo.upgradeReport false) 3.
Proof.
  assert (∀ u d, d ∈ dependencies_get (Demo.world Demo.upgradeReport false) u →
                 length (Demo.dependenciesOf d) < length (Demo.dependenciesOf u)) as Hrank.
  { intros u d Hd. change (d ∈ Demo.dependenciesOf u) in Hd.
    assert (d = "Proposals" ∨ d = "Signatures") as Hcase.
    { unfold Demo.dependenciesOf in Hd.
      destruct (String.eqb u "Governance"); [|destruct (String.eqb u "Exchange")].
      - apply elem_of_cons in Hd as [-> | Hd]; [by left|].
        apply list_elem_of_singleton in Hd as ->. by right.
      - apply list_elem_of_singleton in Hd as ->. by right.
      - by apply not_elem_of_nil in Hd. }
    assert (0 < length (Demo.dependenciesOf u)) as Hpos.
    { destruct (Demo.dependenciesOf u); [by apply not_elem_of_nil in Hd | simpl; lia]. }
    destruct Hcase as [-> | ->]; exact Hpos. }
  assert (∀ n, n ∈ env_contracts (Demo.world Demo.upgradeReport false) →
               length (Demo.dependenciesOf n) < 3) as Hfuel.
  { intros n _. unfold Demo.dependenciesOf.
    destruct (String.eqb n "Governance"); [simpl; lia|].
    destruct (String.eqb n "Exchange"); simpl; lia. }
  assert (3 ≤ 5) as Hle by lia.
  split; [exact Hrank | split; [exact Hfuel | split; [exact Hle|]]].
  exact (X15_ranked_run (Demo.world Demo.upgradeReport false)
           (λ n, length (Demo.dependenciesOf n)) 3 5 Hrank Hfuel Hle).
Defined.

(** X16.  [release] only adds: whatever its outcome, the proposal and the
    trace it leaves are those it found with entries appended, no created
    contract is forgotten and no released name is taken back. *)
Theorem X16_release_only_appends (env : Env) (fuel : nat) (name : string) (s : State) :
  extends s (release env fuel name s).2.
Proof.
  apply (release_preserves env extends extends_refl extends_trans (releaseSteps_extends env)).
Qed.

(** X17.  The table after a successful release of a name not yet released,
    against the table its dependencies left: a core contract that gets a new
    proxy is stored under the proxy's address, which the proposal registers;
    a library of the report that is not a core contract of the report is
    stored under the address of its new instance; in every other case,
    an upgrade of the implementation only included, the table is kept. *)
Theorem X17_table_after_release (env : Env) (fuel : nat) (name : string) (s : State) :
  name ∉ released s →
  (release env (S fuel) name s).1 = Ok tt →
  let s1 := afterDependencies env fuel name s in
  let s' := (release env (S fuel) name s).2 in
  match shouldDeployProxy (report env) name with
  | Some true =>
      addresses s' = <[name := nextAddress env (afterImplementation env name s1)]> (addresses s1)
      ∧ setAddressForTx name (nextAddress env (afterImplementation env name s1)) ∈ proposal s'
  | Some false => addresses s' = addresses s1
  | None =>
      if bool_decide (is_Some (libraries (report env) !! name))
      then addresses s' = <[name := nextAddress env s1]> (addresses s1)
      else addresses s' = addresses s1
  end.
Proof.
  intros Hnot Hok s1 s'.
  destruct (release env (S fuel) name s) as [out s0] eqn:Hrun. simpl in Hok. subst out.
  destruct (release_Ok_steps env fuel name s s0 Hnot Hrun)
    as (art & s2 & s3 & Hart & Hdeps & Hlink & Hdeploy & ->).
  subst s' s1. cbn [snd].
  change (addresses (markReleased name s3).2) with (addresses s3).
  change (proposal (markReleased name s3).2) with (proposal s3).
  set (s1 := afterDependencies env fuel name s) in *.
  pose proof (link_sameTables name (dependencies_get env name) s1) as (Ha & _ & _).
  pose proof (link_linksOnly name (dependencies_get env name) s1) as [_ Hd].
  rewrite Hlink in Ha, Hd. simpl in Ha, Hd.
  assert (nextAddress env (afterImplementation env name s2)
          = nextAddress env (afterImplementation env name s1)) as Hnext.
  { apply nextAddress_ext. rewrite !afterImplementation_deployed. by rewrite Hd. }
  unfold shouldDeployProxy in *.
  destruct (contracts (report env) !! name) as [changes|] eqn:Hc.
  - rewrite bool_decide_eq_true_2 in Hdeploy by done.
    apply deployCoreContract_Ok_table in Hdeploy. unfold shouldDeployProxy in Hdeploy.
    rewrite Hc in Hdeploy.
    destruct (_ || _); [|congruence].
    rewrite Hnext, Ha in Hdeploy. exact Hdeploy.
  - rewrite bool_decide_eq_false_2 in Hdeploy by (by intros [? ?]).
    destruct (bool_decide (is_Some (libraries (report env) !! name))).
    + rewrite deployLibrary_run in Hdeploy. injection Hdeploy as <-.
      change (<[name := nextAddress env s2]> (addresses (afterImplementation env name s2))
              = <[name := nextAddress env s1]> (addresses s1)).
      by rewrite afterImplementation_addresses, Ha, (nextAddress_ext env s1 s2).
    + injection Hdeploy as <-. exact Ha.
Qed.

Lemma X17_table_after_release_witness :
  ("Signatures" ∉ released (initial (Demo.world Demo.upgradeReport false)))
  ∧ (release (Demo.world Demo.upgradeReport false) 1 "Signatures"
       (initial (Demo.world Demo.upgradeReport false))).1 = Ok tt
  ∧ addresses (release (Demo.world Demo.upgradeReport false) 1 "Signatures"
                 (initial (Demo.world Demo.upgradeReport false))).2
    = <["Signatures" := "0xN0"]> (addresses (initial (Demo.world Demo.upgradeReport false))).
Proof.
  assert ("Signatures" ∉ released (initial (Demo.world Demo.upgradeReport false))) as Hnot
    by apply not_elem_of_empty.
  assert ((release (Demo.world Demo.upgradeReport false) 1 "Signatures"
             (initial (Demo.world Demo.upgradeReport false))).1 = Ok tt) as Hok
    by (vm_compute; reflexivity).
  split; [exact Hnot | split; [exact Hok|]].
  exact (X17_table_after_release (Demo.world Demo.upgradeReport false) 0 "Signatures" _
           Hnot Hok).
Defined.

(** X18.  [deployProxy] outside a dry run, for a name other than Governance
    whose proxy artifact exists, when the table has no address for
    Governance: the proxy is created, then the call fails on the lookup of
    Governance, and the ownership of the new proxy is not transferred. *)
Theorem X18_deployProxy_without_governance (env : Env) (contractName : string)
    (Proxy : Artifact) (s : State) :
  contractName ≠ "Governance" →
  artifacts_require env (contractName +:+ "Proxy") = Some Proxy →
  dry_run env = false →
  addresses s !! "Governance" = None →
  deployProxy env contractName s
  = (Err (Thrown "Unable to find address for Governance"),
     with_trace (λ t, t ++ [EvProxy contractName (newAddress env (deployed s))])
       (with_deployed S s)).
Proof.
  intros Hne Hart Hdry Hgov. rewrite deployProxy_run by done.
  rewrite Hart, Hdry, Hgov. simpl.
  unfold afterProxy, afterInstantiate, nextAddress. by rewrite Hdry, Hgov.
Qed.

Lemma X18_deployProxy_without_governance_witness :
  "Exchange" ≠ "Governance"
  ∧ artifacts_require (Demo.world Demo.upgradeReport false) ("Exchange" +:+ "Proxy")
    = Some Demo.proxyArtifact
  ∧ dry_run (Demo.world Demo.upgradeReport false) = false
  ∧ addresses Demo.empty !! "Governance" = None
  ∧ deployProxy (Demo.world Demo.upgradeReport false) "Exchange" Demo.empty
    = (Err (Thrown "Unable to find address for Governance"),
       with_trace (λ t, t ++ [EvProxy "Exchange"
                                (newAddress (Demo.world Demo.upgradeReport false)
                                   (deployed Demo.empty))])
         (with_deployed S Demo.empty)).
Proof.
  assert ("Exchange" ≠ "Governance") as Hne by discriminate.
  assert (artifacts_require (Demo.world Demo.upgradeReport false) ("Exchange" +:+ "Proxy")
          = Some Demo.proxyArtifact) as Hart by (vm_compute; reflexivity).
  assert (dry_run (Demo.world Demo.upgradeReport false) = false) as Hdry by reflexivity.
  assert (addresses Demo.empty !! "Governance" = None) as Hgov by reflexivity.
  split; [exact Hne | split; [exact Hart | split; [exact Hdry | split; [exact Hgov|]]]].
  exact (X18_deployProxy_without_governance (Demo.world Demo.upgradeReport false) "Exchange"
           Demo.proxyArtifact Demo.empty Hne Hart Hdry Hgov).
Defined.

(** X19.  Linking an artifact against its dependencies succeeds when the
    table has an address for each of them, and otherwise fails with the
    error of [ContractAddresses.get] for the first dependency, in the order
    of the list, that has none. *)
Theorem X19_link_outcome (u : string) (contractDependencies : list string) (s : State) :
  ((∀ d, d ∈ contractDependencies → is_Some (addresses s !! d)) →
   (link u contractDependencies s).1 = Ok tt)
  ∧ (∀ before d after,
       contractDependencies = before ++ d :: after →
       (∀ x, x ∈ before → is_Some (addresses s !! x)) →
       addresses s !! d = None →
       (link u contractDependencies s).1
       = Err (Thrown ("Unable to find address for " +:+ d))).
Proof.
  split; [apply link_present|].
  intros before d after -> Hbefore Hd. by apply link_missing.
Qed.

(** X20.  [release] of a name not yet released for which no artifact is
    found: the dependencies are released first, then the call fails for the
    missing artifact, and nothing is linked, deployed or marked for the
    name. *)
Theorem X20_release_without_artifact (env : Env) (fuel : nat) (name : string) (s : State) :
  name ∉ released s →
  artifacts_require env name = None →
  (forEach (release env fuel) (dependencies_get env name) s).1 = Ok tt →
  release env (S fuel) name s
  = (Err (ArtifactNotFound name), afterDependencies env fuel name s).
Proof.
  intros Hnot Hart Hdeps. rewrite release_unfold, bool_decide_eq_false_2 by done.
  rewrite bind_run. unfold afterDependencies.
  destruct (forEach (release env fuel) (dependencies_get env name) s) as [out s1].
  simpl in Hdeps. subst out. rewrite releaseSteps_run. by rewrite Hart.
Qed.

Lemma X20_release_without_artifact_witness :
  ("Oracle" ∉ released (initial (Demo.world Demo.upgradeReport false)))
  ∧ artifacts_require (Demo.world Demo.upgradeReport false) "Oracle" = None
  ∧ (forEach (release (Demo.world Demo.upgradeReport false) 0)
       (dependencies_get (Demo.world Demo.upgradeReport false) "Oracle")
       (initial (Demo.world Demo.upgradeReport false))).1 = Ok tt
  ∧ release (Demo.world Demo.upgradeReport false) 1 "Oracle"
      (initial (Demo.world Demo.upgradeReport false))
    = (Err (ArtifactNotFound "Oracle"),
       afterDependencies (Demo.world Demo.upgradeReport false) 0 "Oracle"
         (initial (Demo.world Demo.upgradeReport false))).
Proof.
  assert ("Oracle" ∉ released (initial (Demo.world Demo.upgradeReport false))) as Hnot
    by apply not_elem_of_empty.
  assert (artifacts_require (Demo.world Demo.upgradeReport false) "Oracle" = None) as Hart
    by (vm_compute; reflexivity).
  assert ((forEach (release (Demo.world Demo.upgradeReport false) 0)
             (dependencies_get (Demo.world Demo.upgradeReport false) "Oracle")
             (initial (Demo.world Demo.upgradeReport false))).1 = Ok tt) as Hdeps
    by reflexivity.
  split; [exact Hnot | split; [exact Hart | split; [exact Hdeps|]]].
  exact (X20_release_without_artifact (Demo.world Demo.upgradeReport false) 0 "Oracle" _
           Hnot Hart Hdeps).
Defined.

(** ** The wallet contract *)

Section WalletBatch.

Context {Chain : Type}.
Variable world : Wallet.World Chain.

Lemma uint256_small (n : N) : (n < 2 ^ 256)%N → Wallet.uint256 n = n.
Proof. intros H. unfold Wallet.uint256. by apply N.mod_small. Qed.

Lemma SafeMath_add_small (a b : N) :
  (a + b < 2 ^ 256)%N → Wallet.SafeMath.add a b = Wallet.Return (a + b)%N.
Proof.
  intros H. unfold Wallet.SafeMath.add. rewrite uint256_small by done. cbv zeta.
  by rewrite (proj2 (N.leb_le a (a + b)%N)) by lia.
Qed.

(** [SafeMath.add] of two [uint256] values returns only when the sum does
    not wrap around. *)
Lemma SafeMath_add_Return (a b c : N) :
  (a < 2 ^ 256)%N → (b < 2 ^ 256)%N →
  Wallet.SafeMath.add a b = Wallet.Return c → c = (a + b)%N ∧ (a + b < 2 ^ 256)%N.
Proof.
  intros Ha Hb. unfold Wallet.SafeMath.add, Wallet.uint256. cbv zeta.
  destruct (a <=? (a + b) mod 2 ^ 256)%N eqn:Hle; [|done].
  intros [= <-]. apply N.leb_le in Hle.
  destruct (decide (a + b < 2 ^ 256)%N) as [Hsmall|Hwrap].
  - by rewrite N.mod_small.
  - exfalso.
    assert ((a + b) mod 2 ^ 256 = a + b - 2 ^ 256)%N as Hmod.
    { symmetry. apply (N.mod_unique _ _ 1%N); lia. }
    lia.
Qed.

(** The loop does not look below its index. *)
Lemma executeTransactions_from_shift (sender d v len : N) (ds vs lens : list N)
    (data : list Byte.byte) (remaining : nat) :
  ∀ i dataPosition st,
    Wallet.executeTransactions_from world sender (d :: ds) (v :: vs) data (len :: lens)
      remaining (S i) dataPosition st
    = Wallet.executeTransactions_from world sender ds vs data lens remaining i dataPosition st.
Proof.
  induction remaining as [|remaining IH]; intros i dataPosition st; [done|].
  simpl. destruct (ds !! i) as [d'|]; [|done]. destruct (vs !! i) as [v'|]; [|done].
  destruct (lens !! i) as [len'|]; [|done].
  destruct (Wallet.sliceData world data dataPosition len') as [sliced|reason]; [|done].
  destruct (Wallet.executeTransaction world sender d' v' sliced st) as [[ret st']|reason];
    [|done].
  destruct (Wallet.SafeMath.add dataPosition len') as [dataPosition'|reason]; [|done].
  apply IH.
Qed.

(** One turn of the loop. *)
Lemma executeTransactions_from_cons (sender d v len : N) (ds vs lens : list N)
    (data : list Byte.byte) (remaining : nat) (dataPosition : N) (st : Wallet.Storage Chain) :
  Wallet.executeTransactions_from world sender (d :: ds) (v :: vs) data (len :: lens)
    (S remaining) 0 dataPosition st
  = match Wallet.sliceData world data dataPosition len with
    | Wallet.Revert reason => Wallet.Revert reason
    | Wallet.Return sliced =>
        match Wallet.executeTransaction world sender d v sliced st with
        | Wallet.Revert reason => Wallet.Revert reason
        | Wallet.Return (_, st') =>
            match Wallet.SafeMath.add dataPosition len with
            | Wallet.Revert reason => Wallet.Revert reason
            | Wallet.Return dataPosition' =>
                Wallet.executeTransactions_from world sender ds vs data lens
                  remaining 0 dataPosition' st'
            end
        end
    end.
Proof.
  simpl. destruct (Wallet.sliceData world data dataPosition len) as [sliced|reason]; [|done].
  destruct (Wallet.executeTransaction world sender d v sliced st) as [[ret st']|reason];
    [|done].
  destruct (Wallet.SafeMath.add dataPosition len) as [dataPosition'|reason]; [|done].
  apply executeTransactions_from_shift.
Qed.

Hypothesis slices : Wallet.slices world.

Lemma sliceData_drop (data : list Byte.byte) (k p len : N) :
  (k + p + len < 2 ^ 256)%N →
  (k + p <= N.of_nat (length data))%N →
  Wallet.sliceData world data (k + p) len
  = Wallet.sliceData world (drop (N.to_nat k) data) p len.
Proof.
  intros Hsum Hk. unfold Wallet.sliceData. destruct (0 <? len)%N; [|done].
  rewrite !slices by lia. rewrite length_drop, drop_drop.
  replace (N.to_nat k + N.to_nat p) with (N.to_nat (k + p)) by lia.
  destruct (k + p + len <=? N.of_nat (length data))%N eqn:Hin.
  - apply N.leb_le in Hin. by rewrite (proj2 (N.leb_le _ _)) by lia.
  - apply N.leb_gt in Hin. by rewrite (proj2 (N.leb_gt _ _)) by lia.
Qed.

(** What [sliceData] returns where the sum does not wrap around. *)
Lemma sliceData_Return (data : list Byte.byte) (start len : N) (sliced : list Byte.byte) :
  (start + len < 2 ^ 256)%N →
  Wallet.sliceData world data start len = Wallet.Return sliced →
  sliced = take (N.to_nat len) (drop (N.to_nat start) data)
  ∧ (len = 0%N ∨ (start + len <= N.of_nat (length data))%N).
Proof.
  intros Hsum. unfold Wallet.sliceData. destruct (0 <? len)%N eqn:Hpos.
  - rewrite slices by done.
    destruct (start + len <=? N.of_nat (length data))%N eqn:Hin; [|done].
    intros [= <-]. split; [done|]. right. by apply N.leb_le.
  - intros [= <-]. apply N.ltb_ge in Hpos.
    assert (len = 0%N) as -> by lia. split; [done | by left].
Qed.

(** The loop on data that starts [k] bytes further. *)
Lemma executeTransactions_from_drop (sender : N) (data : list Byte.byte) (k : N)
    (ds : list N) :
  ∀ (vs lens : list N) (p : N) (st : Wallet.Storage Chain),
    (k + p + Wallet.total_length lens < 2 ^ 256)%N →
    (k + p <= N.of_nat (length data))%N →
    Wallet.executeTransactions_from world sender ds vs data lens (length ds) 0 (k + p) st
    = Wallet.executeTransactions_from world sender ds vs (drop (N.to_nat k) data) lens
        (length ds) 0 p st.
Proof.
  induction ds as [|d ds IH]; intros vs lens p st Hsum Hk; [done|].
  destruct vs as [|v vs]; [done|]. destruct lens as [|len lens]; [done|].
  change (Wallet.total_length (len :: lens)) with (len + Wallet.total_length lens)%N in Hsum.
  change (length (d :: ds)) with (S (length ds)).
  rewrite !executeTransactions_from_cons.
  rewrite <- (sliceData_drop data k p len) by lia.
  destruct (Wallet.sliceData world data (k + p) len) as [sliced|reason] eqn:Hslice; [|done].
  destruct (Wallet.executeTransaction world sender d v sliced st) as [[ret st']|reason];
    [|done].
  apply sliceData_Return in Hslice as [_ Hin]; [|lia].
  rewrite !SafeMath_add_small by lia.
  rewrite <- N.add_assoc. apply IH; lia.
Qed.

(** A batch is its first transaction, on the first bytes of the data, and
    then the batch of the others on the bytes that follow. *)
Lemma executeTransactions_cons (sender d v len : N) (ds vs lens : list N)
    (data : list Byte.byte) (st : Wallet.Storage Chain) :
  (Wallet.total_length (len :: lens) < 2 ^ 256)%N →
  Wallet.executeTransactions world sender (d :: ds) (v :: vs) data (len :: lens) st
  = if (length ds =? length vs) && (length vs =? length lens) then
      match Wallet.sliceData world data 0 len with
      | Wallet.Revert reason => Wallet.Revert reason
      | Wallet.Return sliced =>
          match Wallet.executeTransaction world sender d v sliced st with
          | Wallet.Revert reason => Wallet.Revert reason
          | Wallet.Return (_, st') =>
              Wallet.executeTransactions world sender ds vs (drop (N.to_nat len) data) lens st'
          end
      end
    else Wallet.Revert (Some "Input arrays must be same length").
Proof.
  intros Hsum.
  change (Wallet.total_length (len :: lens)) with (len + Wallet.total_length lens)%N in Hsum.
  unfold Wallet.executeTransactions.
  change (length (d :: ds) =? length (v :: vs)) with (length ds =? length vs).
  change (length (v :: vs) =? length (len :: lens)) with (length vs =? length lens).
  destruct ((length ds =? length vs) && (length vs =? length lens)); [|done].
  change (length (d :: ds)) with (S (length ds)).
  rewrite executeTransactions_from_cons.
  destruct (Wallet.sliceData world data 0 len) as [sliced|reason] eqn:Hslice; [|done].
  destruct (Wallet.executeTransaction world sender d v sliced st) as [[ret st']|reason];
    [|done].
  apply sliceData_Return in Hslice as [_ Hin]; [|lia].
  rewrite SafeMath_add_small by lia. rewrite N.add_0_l.
  rewrite <- (N.add_0_r len) at 1.
  apply executeTransactions_from_drop; lia.
Qed.

(** A turn of the loop that is followed by a return. *)
Lemma executeTransactions_from_cons_Return (sender d v len : N) (ds vs lens : list N)
    (data : list Byte.byte) (remaining : nat) (dataPosition : N)
    (st st' : Wallet.Storage Chain) :
  (dataPosition < 2 ^ 256)%N → (len < 2 ^ 256)%N →
  Wallet.executeTransactions_from world sender (d :: ds) (v :: vs) data (len :: lens)
    (S remaining) 0 dataPosition st = Wallet.Return (tt, st') →
  ∃ ret st1,
    Wallet.executeTransaction world sender d v
      (take (N.to_nat len) (drop (N.to_nat dataPosition) data)) st = Wallet.Return (ret, st1)
    ∧ (len = 0%N ∨ (dataPosition + len <= N.of_nat (length data))%N)
    ∧ (dataPosition + len < 2 ^ 256)%N
    ∧ Wallet.executeTransactions_from world sender ds vs data lens remaining 0
        (dataPosition + len) st1 = Wallet.Return (tt, st').
Proof.
  intros Hpos Hlen. rewrite executeTransactions_from_cons.
  destruct (Wallet.sliceData world data dataPosition len) as [sliced|reason] eqn:Hslice;
    [|done].
  destruct (Wallet.executeTransaction world sender d v sliced st) as [[ret st1]|reason]
    eqn:Hfirst; [|done].
  destruct (Wallet.SafeMath.add dataPosition len) as [dataPosition'|reason] eqn:Hadd; [|done].
  apply SafeMath_add_Return in Hadd as [-> Hsum]; [|done..].
  apply sliceData_Return in Hslice as [-> Hin]; [|done].
  intros Hrest. by exists ret, st1.
Qed.

(** A loop that returns stayed within the data. *)
Lemma executeTransactions_from_within (sender : N) (data : list Byte.byte) (ds : list N) :
  ∀ (vs lens : list N) (dataPosition : N) (st st' : Wallet.Storage Chain),
    length vs = length ds → length lens = length ds →
    (dataPosition < 2 ^ 256)%N → (dataPosition <= N.of_nat (length data))%N →
    Wallet.inRange lens →
    Wallet.executeTransactions_from world sender ds vs data lens (length ds) 0 dataPosition st
    = Wallet.Return (tt, st') →
    (dataPosition + Wallet.total_length lens <= N.of_nat (length data))%N.
Proof.
  induction ds as [|d ds IH]; intros vs lens pos st st' Hvs Hlens Hpos Hin Hrange Hrun.
  - destruct lens; [|done]. unfold Wallet.total_length. simpl. lia.
  - destruct vs as [|v vs]; [done|]. destruct lens as [|len lens]; [done|].
    apply Forall_cons in Hrange as [Hlen Hrange].
    apply executeTransactions_from_cons_Return in Hrun
      as (ret & st1 & _ & Hfit & Hsum & Hrest); [|done..].
    apply IH in Hrest; [|simpl in *; lia.. | done].
    change (Wallet.total_length (len :: lens)) with (len + Wallet.total_length lens)%N. lia.
Qed.

Lemma executeTransactions_lengths (sender : N) (ds vs lens : list N) (data : list Byte.byte)
    (st st' : Wallet.Storage Chain) :
  Wallet.executeTransactions world sender ds vs data lens st = Wallet.Return (tt, st') →
  length vs = length ds ∧ length lens = length ds
  ∧ Wallet.executeTransactions_from world sender ds vs data lens (length ds) 0 0%N st
    = Wallet.Return (tt, st').
Proof.
  unfold Wallet.executeTransactions.
  destruct (length ds =? length vs) eqn:H1; [|done].
  destruct (length vs =? length lens) eqn:H2; [|done].
  apply Nat.eqb_eq in H1, H2. simpl. intros Hrun. repeat split; [lia.. | done].
Qed.

Lemma executeTransactions_total_length (sender : N) (ds vs lens : list N)
    (data : list Byte.byte) (st st' : Wallet.Storage Chain) :
  Wallet.inRange lens →
  Wallet.executeTransactions world sender ds vs data lens st = Wallet.Return (tt, st') →
  (Wallet.total_length lens <= N.of_nat (length data))%N.
Proof.
  intros Hrange Hrun. apply executeTransactions_lengths in Hrun as (Hvs & Hlens & Hrun).
  apply executeTransactions_from_within in Hrun; [lia | done.. | | lia | done].
  by apply N.ltb_lt.
Qed.

(** The segments of the data, put together. *)
Lemma concat_segments (lens : list N) :
  ∀ data : list Byte.byte,
    concat (Wallet.segments data lens) = take (N.to_nat (Wallet.total_length lens)) data.
Proof.
  induction lens as [|len lens IH]; intros data; [done|].
  change (Wallet.total_length (len :: lens)) with (len + Wallet.total_length lens)%N.
  simpl. rewrite IH, take_take_drop. f_equal. lia.
Qed.

Hypothesis detached : Wallet.detached world.

Lemma executeTransaction_logs (sender d v : N) (data ret : list Byte.byte)
    (st st' : Wallet.Storage Chain) :
  Wallet.executeTransaction world sender d v data st = Wallet.Return (ret, st') →
  Wallet.logs st' = Wallet.logs st ++ [Wallet.TransactionExecution d v data ret].
Proof.
  unfold Wallet.executeTransaction. destruct (_ || _); [|done].
  destruct (Wallet.execute world d v data st) as [[ret0 st0]|reason] eqn:Hcall; [|done].
  intros [= <- <-]. simpl. by rewrite (detached _ _ _ _ _ _ Hcall).
Qed.

(** A loop that returns has logged its transactions, each with its segment
    of the data. *)
Lemma executeTransactions_from_logs (sender : N) (data : list Byte.byte) (ds : list N) :
  ∀ (vs lens : list N) (dataPosition : N) (st st' : Wallet.Storage Chain),
    length vs = length ds → length lens = length ds →
    (dataPosition < 2 ^ 256)%N → Wallet.inRange lens →
    Wallet.executeTransactions_from world sender ds vs data lens (length ds) 0 dataPosition st
    = Wallet.Return (tt, st') →
    ∃ returnData,
      length returnData = length ds
      ∧ Wallet.logs st'
        = Wallet.logs st
          ++ Wallet.executions ds vs
               (Wallet.segments (drop (N.to_nat dataPosition) data) lens) returnData.
Proof.
  induction ds as [|d ds IH]; intros vs lens pos st st' Hvs Hlens Hpos Hrange Hrun.
  - injection Hrun as <-. exists []. split; [done|]. simpl. by rewrite app_nil_r.
  - destruct vs as [|v vs]; [done|]. destruct lens as [|len lens]; [done|].
    apply Forall_cons in Hrange as [Hlen Hrange].
    apply executeTransactions_from_cons_Return in Hrun
      as (ret & st1 & Hfirst & _ & Hsum & Hrest); [|done..].
    apply executeTransaction_logs in Hfirst.
    apply IH in Hrest as (rets & Hcount & Hlogs); [|simpl in *; lia.. | done].
    exists (ret :: rets). split; [simpl; by rewrite Hcount|].
    rewrite Hlogs, Hfirst, <- app_assoc. simpl. rewrite drop_drop.
    by replace (N.to_nat pos + N.to_nat len) with (N.to_nat (pos + len)) by lia.
Qed.

Lemma executeTransactions_logs (sender : N) (ds vs lens : list N)
    (data : list Byte.byte) (st st' : Wallet.Storage Chain) :
  Wallet.inRange lens →
  Wallet.executeTransactions world sender ds vs data lens st = Wallet.Return (tt, st') →
  ∃ returnData,
    length returnData = length ds
    ∧ Wallet.logs st'
      = Wallet.logs st ++ Wallet.executions ds vs (Wallet.segments data lens) returnData.
Proof.
  intros Hrange Hrun. apply executeTransactions_lengths in Hrun as (Hvs & Hlens & Hrun).
  apply executeTransactions_from_logs in Hrun; [done.. | | done].
  by apply N.ltb_lt.
Qed.

End WalletBatch.

(** X21.  [executeTransactions] of the wallet: the empty batch returns for
    any sender and changes nothing; arrays of different lengths are refused;
    and a batch that is not empty reverts as a whole when the sender is
    neither the signer nor the owner. *)
Theorem X21_executeTransactions_refuses {Chain : Type} (world : Wallet.World Chain)
    (sender : N) (destinations values : list N) (data : list Byte.byte)
    (dataLengths : list N) (st : Wallet.Storage Chain) :
  Wallet.executeTransactions world sender [] [] data [] st = Wallet.Return (tt, st)
  ∧ (length destinations ≠ length values ∨ length values ≠ length dataLengths →
     Wallet.executeTransactions world sender destinations values data dataLengths st
     = Wallet.Revert (Some "Input arrays must be same length"))
  ∧ (sender ≠ Wallet.signer st → sender ≠ Wallet.owner st → destinations ≠ [] →
     ∃ reason,
       Wallet.executeTransactions world sender destinations values data dataLengths st
       = Wallet.Revert reason).
Proof.
  split; [done|]. unfold Wallet.executeTransactions. split.
  - intros Hne.
    destruct (length destinations =? length values) eqn:H1;
      [destruct (length values =? length dataLengths) eqn:H2|]; [|done..].
    apply Nat.eqb_eq in H1, H2. by destruct Hne.
  - intros Hsigner Howner Hbatch.
    destruct (_ && _) eqn:Hlen; [|by eexists].
    apply andb_true_iff in Hlen as [H1 H2]. apply Nat.eqb_eq in H1, H2.
    destruct destinations as [|d ds]; [done|].
    destruct values as [|v vs]; [done|]. destruct dataLengths as [|len lens]; [done|].
    simpl. destruct (Wallet.sliceData world data 0 len) as [sliced|reason]; [|by eexists].
    unfold Wallet.executeTransaction.
    rewrite (proj2 (N.eqb_neq _ _) Hsigner), (proj2 (N.eqb_neq _ _) Howner). by eexists.
Qed.

(** X22.  A batch whose data lengths add up to a [uint256] is its first
    transaction followed by the batch of the others, provided
    [BytesLib.slice] returns the segment asked for when it lies within the
    array and reverts when it does not: [executeTransactions] sends the
    first [dataLengths[0]] bytes of the data to the first destination, then
    behaves as [executeTransactions] of the remaining entries on the
    remaining bytes; a revert of either part is a revert of the whole. *)
Theorem X22_executeTransactions_head_tail {Chain : Type} (world : Wallet.World Chain)
    (sender d v len : N) (ds vs lens : list N) (data : list Byte.byte)
    (st : Wallet.Storage Chain) :
  Wallet.slices world →
  (Wallet.total_length (len :: lens) < 2 ^ 256)%N →
  Wallet.executeTransactions world sender (d :: ds) (v :: vs) data (len :: lens) st
  = if (length ds =? length vs) && (length vs =? length lens) then
      match Wallet.sliceData world data 0 len with
      | Wallet.Revert reason => Wallet.Revert reason
      | Wallet.Return sliced =>
          match Wallet.executeTransaction world sender d v sliced st with
          | Wallet.Revert reason => Wallet.Revert reason
          | Wallet.Return (_, st') =>
              Wallet.executeTransactions world sender ds vs (drop (N.to_nat len) data) lens st'
          end
      end
    else Wallet.Revert (Some "Input arrays must be same length").
Proof. intros Hslices Hsum. by apply executeTransactions_cons. Qed.

Lemma X22_executeTransactions_head_tail_witness :
  Wallet.executeTransactions Wallet.counting 7 [1; 2]%N [10; 20]%N
    [Byte.x61; Byte.x62; Byte.x63] [2; 1]%N Wallet.fresh
  = match Wallet.executeTransaction Wallet.counting 7 1 10 [Byte.x61; Byte.x62]
            Wallet.fresh with
    | Wallet.Revert reason => Wallet.Revert reason
    | Wallet.Return (_, st') =>
        Wallet.executeTransactions Wallet.counting 7 [2]%N [20]%N [Byte.x63] [1]%N st'
    end.
Proof.
  assert (Wallet.slices Wallet.counting) as Hslices.
  { intros data start len Hsum. cbv [Wallet.slice Wallet.counting].
    by rewrite uint256_small. }
  assert (Wallet.total_length [2; 1]%N < 2 ^ 256)%N as Hsum by (vm_compute; reflexivity).
  exact (X22_executeTransactions_head_tail Wallet.counting 7 1 10 2 [2]%N [20]%N [1]%N
           [Byte.x61; Byte.x62; Byte.x63] Wallet.fresh Hslices Hsum).
Defined.

(** X23.  A batch that returns did not read beyond its data: the data
    lengths add up to at most the length of the data.  [BytesLib.slice] is
    only taken to revert on a segment that does not lie within the array
    when its bound check does not wrap around; a sum that wraps around is
    caught by [SafeMath.add]. *)
Theorem X23_executeTransactions_within_data {Chain : Type} (world : Wallet.World Chain)
    (sender : N) (destinations values : list N) (data : list Byte.byte)
    (dataLengths : list N) (st st' : Wallet.Storage Chain) :
  Wallet.slices world →
  Wallet.inRange dataLengths →
  Wallet.executeTransactions world sender destinations values data dataLengths st
  = Wallet.Return (tt, st') →
  (Wallet.total_length dataLengths <= N.of_nat (length data))%N.
Proof. intros Hslices. by apply executeTransactions_total_length. Qed.

Lemma X23_executeTransactions_within_data_witness :
  (Wallet.total_length [2; 1]%N <= N.of_nat (length [Byte.x61; Byte.x62; Byte.x63]))%N.
Proof.
  assert (Wallet.slices Wallet.counting) as Hslices.
  { intros data start len Hsum. cbv [Wallet.slice Wallet.counting].
    by rewrite uint256_small. }
  assert (Wallet.inRange [2; 1]%N) as Hrange
    by (repeat (apply Forall_cons; split; [vm_compute; reflexivity|]); apply Forall_nil_2).
  eapply (X23_executeTransactions_within_data Wallet.counting 7 [1; 2]%N [10; 20]%N
            [Byte.x61; Byte.x62; Byte.x63] [2; 1]%N Wallet.fresh _ Hslices Hrange).
  vm_compute. reflexivity.
Defined.



(** X25.  [executeMetaTransaction]: a signature that does not recover to the
    signer over the current nonce is refused before anything is called; with
    the nonce at its maximum the call reverts; otherwise the callee runs
    with the nonce already incremented, and the nonce logged is one less
    than the nonce the callee left. *)
Theorem X25_executeMetaTransaction_outcome {Chain : Type} (world : Wallet.World Chain)
    (destination value : N) (data : list Byte.byte) (v r s : N) (st : Wallet.Storage Chain) :
  (Wallet.getMetaTransactionSigner world destination value data (Wallet.nonce st) v r s st
   ≠ Wallet.signer st →
   Wallet.executeMetaTransaction world destination value data v r s st
   = Wallet.Revert (Some "Invalid meta-transaction signer"))
  ∧ (Wallet.getMetaTransactionSigner world destination value data (Wallet.nonce st) v r s st
     = Wallet.signer st →
     (Wallet.nonce st = 2 ^ 256 - 1)%N →
     ∃ reason, Wallet.executeMetaTransaction world destination value data v r s st
               = Wallet.Revert reason)
  ∧ (Wallet.getMetaTransactionSigner world destination value data (Wallet.nonce st) v r s st
     = Wallet.signer st →
     (Wallet.nonce st < 2 ^ 256 - 1)%N →
     ∀ returnData st',
       Wallet.execute world destination value data
         (Wallet.with_nonce (Wallet.nonce st + 1)%N st) = Wallet.Return (returnData, st') →
       (1 <= Wallet.nonce st')%N →
       Wallet.executeMetaTransaction world destination value data v r s st
       = Wallet.Return
           (returnData,
            Wallet.emit (Wallet.MetaTransactionExecution destination value data
                           (Wallet.nonce st' - 1)%N returnData) st')).
Proof.
  unfold Wallet.executeMetaTransaction. cbv zeta. split; [|split].
  - intros Hne. by rewrite (proj2 (N.eqb_neq _ _) Hne).
  - intros -> Hmax. rewrite N.eqb_refl. unfold Wallet.SafeMath.add, Wallet.uint256.
    rewrite Hmax. by eexists.
  - intros -> Hlt ret st' Hcall Hpos. rewrite N.eqb_refl.
    rewrite SafeMath_add_small by lia. rewrite Hcall.
    unfold Wallet.SafeMath.sub. by rewrite (proj2 (N.leb_le _ _) Hpos).
Qed.
